(** * npm-check-engines: the engine-range reducer of [lib/tasks.ts]

    The development embeds [sortRangeSet], [setToRange],
    [applyMinVersionToRangeSet], [restrictiveRange], [humanizeRange],
    [getConstraintFromEngines] and [computeEnginesConstraint] of
    [lib/tasks.ts], over the data model of the [semver] package
    (version 7.3.8, the one pinned by [package.json]).

    The [semver] package is an external dependency.  Its operations are
    taken through the interface [SemverLib]; statements that hold whatever
    the package computes are proved for every implementation of the
    interface, and [node_semver] is an executable model of the package on
    the comparator syntax that the package itself prints.

    The test [constraintKey in engines] also finds the properties that an
    object or an array inherits from its prototypes.  Their names depend
    on the runtime and are taken through the interface [Runtime].

    The tasks of the check command that work on the loaded files,
    [computeEnginesConstraints], [generateUpdateCommandFromContext],
    [outputComputedConstraints] and [updatePackageJson], are embedded over
    the context of the command; what they take from other modules and
    packages (the list of engine names, the relative path, the colours, the
    table and the sorting of [package.json]) is a parameter.

    The calls of [debug], which only write log lines, are left out. *)

From Stdlib Require Import List String Ascii Bool NArith PeanoNat Lia.
From Stdlib Require Decimal DecimalFacts DecimalString DecimalN DecimalPos.
From Stdlib Require Permutation Sorted.
Import ListNotations.
Local Open Scope list_scope.
Local Open Scope string_scope.

(** ** Exceptions and divergence

    A JavaScript call either returns, throws, or never returns.  The only
    errors of the modelled code are [new Error('Not yet implemented :/')]
    and the [TypeError]s of the [semver] constructors and of property
    accesses on [undefined].  [Diverge] is the result of a recursive model
    that ran out of fuel. *)

Inductive Error : Type :=
  | NotYetImplemented
  | TypeError.

Inductive Outcome (A : Type) : Type :=
  | Ok (a : A)
  | Throw (e : Error)
  | Diverge.

Arguments Ok {A} a.
Arguments Throw {A} e.
Arguments Diverge {A}.

Definition bind {A B : Type} (m : Outcome A) (k : A -> Outcome B) : Outcome B :=
  match m with
  | Ok a => k a
  | Throw e => Throw e
  | Diverge => Diverge
  end.

Notation "x <- m ;; k" := (bind m (fun x => k))
  (at level 61, m at next level, right associativity).
Notation "' pat <- m ;; k" := (bind m (fun x => match x with pat => k end))
  (at level 61, pat pattern, m at next level, right associativity).

(** [orThrow o]: the value of a library constructor that throws a
    [TypeError] when it rejects its argument. *)
Definition orThrow {A : Type} (o : option A) : Outcome A :=
  match o with
  | Some a => Ok a
  | None => Throw TypeError
  end.

Fixpoint mapM {A B : Type} (f : A -> Outcome B) (l : list A) : Outcome (list B) :=
  match l with
  | [] => Ok []
  | a :: l' => b <- f a ;; bs <- mapM f l' ;; Ok (b :: bs)
  end.

(** ** Data model of the [semver] package *)

(** A prerelease identifier: the [SemVer] constructor turns an all-digit
    identifier into a number and keeps any other as a string. *)
Inductive Identifier : Type :=
  | Numeric (n : N)
  | Alphanumeric (s : string).

Record SemVer : Type := mkSemVer {
  major : N;
  minor : N;
  patch : N;
  prerelease : list Identifier
}.

(** The operator of a comparator; [OpEq] is the empty operator, which the
    [Comparator] constructor also stores for [=]. *)
Inductive Operator : Type :=
  | OpEq
  | OpGt
  | OpGte
  | OpLt
  | OpLte.

(** A comparator is [ANY] (the comparator of the empty string, whose
    [semver] field is the [ANY] symbol) or an operator with a version. *)
Inductive Comparator : Type :=
  | ANY
  | Cmp (op : Operator) (v : SemVer).

(** A [Range] object: the text it was built from and its comparator
    groups ([set]), one list of comparators per [||] branch. *)
Record Range : Type := mkRange {
  raw : string;
  set : list (list Comparator)
}.

Definition operator (c : Comparator) : Operator :=
  match c with
  | ANY => OpEq
  | Cmp op _ => op
  end.

Definition semver (c : Comparator) : option SemVer :=
  match c with
  | ANY => None
  | Cmp _ v => Some v
  end.

(** *** Text of numbers, versions and comparators *)

Definition show (n : N) : string := DecimalString.NilEmpty.string_of_uint (N.to_uint n).

Definition identifier_text (i : Identifier) : string :=
  match i with
  | Numeric n => show n
  | Alphanumeric s => s
  end.

(** [Array.prototype.join]. *)
Fixpoint join (sep : string) (l : list string) : string :=
  match l with
  | [] => ""
  | [s] => s
  | s :: l' => s ++ sep ++ join sep l'
  end.

(** [SemVer.prototype.format]: the [version] field. *)
Definition version (v : SemVer) : string :=
  show (major v) ++ "." ++ show (minor v) ++ "." ++ show (patch v) ++
  match prerelease v with
  | [] => ""
  | p => "-" ++ join "." (map identifier_text p)
  end.

(** The [raw] field of the versions the reducer handles: they come from
    [semver.minVersion], which builds them from a [version] text. *)
Definition SemVer_raw (v : SemVer) : string := version v.

Definition operator_text (op : Operator) : string :=
  match op with
  | OpEq => ""
  | OpGt => ">"
  | OpGte => ">="
  | OpLt => "<"
  | OpLte => "<="
  end.

(** The [value] field of a comparator. *)
Definition value (c : Comparator) : string :=
  match c with
  | ANY => ""
  | Cmp op v => operator_text op ++ version v
  end.

Definition Operator_eqb (a b : Operator) : bool :=
  match a, b with
  | OpEq, OpEq | OpGt, OpGt | OpGte, OpGte | OpLt, OpLt | OpLte, OpLte => true
  | _, _ => false
  end.

(** *** Precedence of versions ([semver.compare]) *)

Definition compareIdentifiers (a b : Identifier) : comparison :=
  match a, b with
  | Numeric x, Numeric y => N.compare x y
  | Numeric _, Alphanumeric _ => Lt
  | Alphanumeric _, Numeric _ => Gt
  | Alphanumeric x, Alphanumeric y => String.compare x y
  end.

Fixpoint comparePreList (a b : list Identifier) : comparison :=
  match a, b with
  | [], [] => Eq
  | _ :: _, [] => Gt
  | [], _ :: _ => Lt
  | x :: a', y :: b' =>
      match compareIdentifiers x y with
      | Eq => comparePreList a' b'
      | c => c
      end
  end.

(** [SemVer.prototype.comparePre]: a version without prerelease is above
    the same version with one. *)
Definition comparePre (a b : SemVer) : comparison :=
  match prerelease a, prerelease b with
  | _ :: _, [] => Lt
  | [], _ :: _ => Gt
  | [], [] => Eq
  | pa, pb => comparePreList pa pb
  end.

Definition compareMain (a b : SemVer) : comparison :=
  match N.compare (major a) (major b) with
  | Eq =>
      match N.compare (minor a) (minor b) with
      | Eq => N.compare (patch a) (patch b)
      | c => c
      end
  | c => c
  end.

Definition compare (a b : SemVer) : comparison :=
  match compareMain a b with
  | Eq => comparePre a b
  | c => c
  end.

Definition eq (a b : SemVer) : bool :=
  match compare a b with Eq => true | _ => false end.
Definition gt (a b : SemVer) : bool :=
  match compare a b with Gt => true | _ => false end.
Definition gte (a b : SemVer) : bool :=
  match compare a b with Lt => false | _ => true end.
Definition lt (a b : SemVer) : bool :=
  match compare a b with Lt => true | _ => false end.
Definition lte (a b : SemVer) : bool :=
  match compare a b with Gt => false | _ => true end.

(** [cmp(a, op, b)] of the package, for the operators of a comparator. *)
Definition cmp (a : SemVer) (op : Operator) (b : SemVer) : bool :=
  match op with
  | OpEq => eq a b
  | OpGt => gt a b
  | OpGte => gte a b
  | OpLt => lt a b
  | OpLte => lte a b
  end.

(** [Comparator.prototype.test]. *)
Definition Comparator_test (c : Comparator) (v : SemVer) : bool :=
  match c with
  | ANY => true
  | Cmp op w => cmp v op w
  end.

(** ** The operations of the [semver] package used by [lib/tasks.ts]

    Constructors return [None] where the package throws a [TypeError];
    [semver_validRange] and [semver_minVersion] return [None] for [null]. *)

Class SemverLib : Type := {
  (** [new semver.SemVer(text)] *)
  SemVer_new : string -> option SemVer;
  (** [new semver.Comparator(text)] *)
  Comparator_new : string -> option Comparator;
  (** [new semver.Range(text, rangeOptions)] *)
  Range_new : string -> option Range;
  (** [semver.validRange(text)] *)
  semver_validRange : string -> option string;
  (** [semver.subset(sub, dom)] *)
  semver_subset : Range -> Range -> bool;
  (** [r1.intersects(r2, rangeOptions)] *)
  Range_intersects : Range -> Range -> bool;
  (** [semver.minVersion(range, rangeOptions)] *)
  semver_minVersion : Range -> option SemVer
}.

(** ** String helpers of the JavaScript runtime *)

Definition is_space (c : ascii) : bool :=
  match nat_of_ascii c with
  | 32 | 9 | 10 | 11 | 12 | 13 => true
  | _ => false
  end.

Fixpoint trimStart (s : string) : string :=
  match s with
  | String c s' => if is_space c then trimStart s' else s
  | EmptyString => EmptyString
  end.

Fixpoint trimEnd (s : string) : string :=
  match s with
  | EmptyString => EmptyString
  | String c s' =>
      match trimEnd s' with
      | EmptyString => if is_space c then EmptyString else String c EmptyString
      | t => String c t
      end
  end.

(** [String.prototype.trim]. *)
Definition trim (s : string) : string := trimEnd (trimStart s).

Fixpoint drop (n : nat) (s : string) : string :=
  match n, s with
  | O, _ => s
  | S n', String _ s' => drop n' s'
  | S _, EmptyString => EmptyString
  end.

(** [removeFirst pat s] is [s.replace(pat, '')] when [pat] occurs in [s],
    and [None] when it does not ([s.includes(pat)] is false). *)
Fixpoint removeFirst (pat s : string) : option string :=
  if prefix pat s then Some (drop (String.length pat) s)
  else match s with
       | EmptyString => None
       | String c s' => option_map (String c) (removeFirst pat s')
       end.

Definition includes (pat s : string) : bool :=
  match removeFirst pat s with Some _ => true | None => false end.

(** ** The lock-file entries read by the aggregation *)

(** The [engines] property of a lock-file package: an object from engine
    names to constraint texts, or an array of ["<engine> <constraint>"]
    texts.  An object is a list of its properties, each name at most once. *)
Inductive LockPackageEngines : Type :=
  | EnginesObject (properties : list (string * string))
  | EnginesArray (items : list string).

Record LockPackage : Type := mkLockPackage {
  engines : LockPackageEngines
}.

Fixpoint property (key : string) (properties : list (string * string)) : option string :=
  match properties with
  | [] => None
  | (k, v) :: rest => if String.eqb k key then Some v else property key rest
  end.

(** The item of an array under the property name [key]: the names of the
    items are the decimal texts of their indices, counted from [i]. *)
Fixpoint Array_item (i : N) (items : list string) (key : string) : option string :=
  match items with
  | [] => None
  | item :: rest =>
      if String.eqb (show i) key then Some item else Array_item (i + 1) rest key
  end.

(** The properties that objects and arrays inherit.  [key in engines] and
    [engines[key]] look [key] up in [engines] itself and then in its
    prototypes, [Object.prototype] for an object, [Array.prototype] and
    [Object.prototype] for an array.  The names found there depend on the
    runtime; their values are methods and, under [__proto__], the prototype
    object itself. *)
Class Runtime : Type := {
  (** [key in Object.prototype] *)
  Object_inherits : string -> bool;
  (** [key in Array.prototype] *)
  Array_inherits : string -> bool
}.

(** What [engines[constraintKey]] can be: a text, the [length] of an array,
    or the value of an inherited property. *)
Inductive Property : Type :=
  | Text (s : string)
  | Length (n : nat)
  | Inherited.

(** [getConstraintFromEngines] of [lib/tasks.ts]; [None] is [undefined]. *)
Definition getConstraintFromEngines {R : Runtime}
  (e : LockPackageEngines) (constraintKey : string) : option Property :=
  match e with
  | EnginesObject properties =>
      match property constraintKey properties with
      | Some v => Some (Text v)
      | None => if Object_inherits constraintKey then Some Inherited else None
      end
  | EnginesArray items =>
      match Array_item 0 items constraintKey with
      | Some item => Some (Text item)
      | None =>
          if String.eqb constraintKey "length" then Some (Length (List.length items))
          else if Array_inherits constraintKey then Some Inherited
          else
            match find (includes constraintKey) items with
            | Some constraint => option_map Text (removeFirst constraintKey constraint)
            | None => None
            end
      end
  end.

(** ** The reducer of [lib/tasks.ts] *)

Section Tasks.

Context {L : SemverLib} {R : Runtime}.

Definition group : Type := list Comparator.

(** The key [a[0].semver] that [sortRangeSet] hands to [semver.compare]:
    undefined for an empty group and for the [ANY] comparator, on which
    [semver.compare] throws. *)
Definition sortKey (g : group) : option SemVer :=
  match g with
  | c :: _ => semver c
  | [] => None
  end.

Definition compareGroups (a b : group) : comparison :=
  match sortKey a, sortKey b with
  | Some x, Some y => compare x y
  | _, _ => Eq
  end.

(** Stable insertion: [g] goes before the first group that is not below it. *)
Fixpoint insertGroup (g : group) (l : list group) : list group :=
  match l with
  | [] => [g]
  | h :: t =>
      match compareGroups g h with
      | Gt => h :: insertGroup g t
      | _ => g :: l
      end
  end.

Fixpoint sortGroups (l : list group) : list group :=
  match l with
  | [] => []
  | g :: t => insertGroup g (sortGroups t)
  end.

(** [sortRangeSet]: a copy of the groups in ascending order of their first
    comparator's version.  [Array.prototype.sort] is stable and does not
    call the comparison on fewer than two elements; on two or more every
    element is compared, so a group without a key makes it throw. *)
Definition sortRangeSet (s : list group) : Outcome (list group) :=
  match s with
  | [] | [_] => Ok s
  | _ => if forallb (fun g => match sortKey g with Some _ => true | None => false end) s
         then Ok (sortGroups s)
         else Throw TypeError
  end.

Definition groupText (tuple : group) : string := join " " (map value tuple).

Definition setText (s : list group) : string := join "||" (map groupText s).

(** [setToRange]. *)
Definition setToRange (s : list group) : Outcome Range :=
  orThrow (Range_new (setText s)).

Fixpoint filterM {A : Type} (f : A -> Outcome bool) (l : list A) : Outcome (list A) :=
  match l with
  | [] => Ok []
  | a :: l' =>
      b <- f a ;;
      rest <- filterM f l' ;;
      Ok (if b then a :: rest else rest)
  end.

(** [c[0].semver.major >= minVersion.major]: reading [c[0].semver] of an
    empty group throws; the [major] of the [ANY] symbol is [undefined] and
    the comparison is false. *)
Definition keepsGroup (minVersion : SemVer) (c : group) : Outcome bool :=
  match c with
  | [] => Throw TypeError
  | c0 :: _ =>
      match semver c0 with
      | Some v => Ok (major minVersion <=? major v)%N
      | None => Ok false
      end
  end.

Definition alignGroup (minVersion : SemVer) (c : group) : Outcome group :=
  match c with
  | [] => Throw TypeError
  | c0 :: rest =>
      match semver c0 with
      | Some v =>
          if (major v =? major minVersion)%N && gte minVersion v then
            c0' <- orThrow (Comparator_new
                              (operator_text (operator c0) ++ SemVer_raw minVersion)) ;;
            Ok (c0' :: rest)
          else Ok c
      | None => Ok c
      end
  end.

(** [applyMinVersionToRangeSet]. *)
Definition applyMinVersionToRangeSet (s : list group) (minVersion : SemVer)
  : Outcome (list group) :=
  kept <- filterM (keepsGroup minVersion) s ;;
  mapM (alignGroup minVersion) kept.

(** [semver.minVersion(r, rangeOptions) || new semver.SemVer('*')]. *)
Definition minVersionOrStar (r : Range) : Outcome SemVer :=
  match semver_minVersion r with
  | Some v => Ok v
  | None => orThrow (SemVer_new "*")
  end.

(** [minComp1 || minComp2]: an array, even an empty one, is truthy. *)
Definition firstDefined {A : Type} (a b : option A) : option A :=
  match a with
  | Some _ => a
  | None => b
  end.

(** The body of [restrictiveRange], with [self] for the function itself in
    its two recursive calls.  The [ignoredRanges] array is mutated in place
    by the source; here it is threaded through and returned. *)
Definition restrictiveRangeBody
  (self : Range -> Range -> list string -> Outcome (Range * list string))
  (r1 r2 : Range) (ignoredRanges : list string) : Outcome (Range * list string) :=
  if semver_subset r1 r2 then Ok (r1, (ignoredRanges ++ [raw r2])%list)
  else if semver_subset r2 r1 then Ok (r2, (ignoredRanges ++ [raw r1])%list)
  else
    minVersion1 <- minVersionOrStar r1 ;;
    minVersion2 <- minVersionOrStar r2 ;;
    sortedR1 <- sortRangeSet (set r1) ;;
    sortedR2 <- sortRangeSet (set r2) ;;
    if negb (eq minVersion1 minVersion2) then
      let minSemver :=
        match compare minVersion1 minVersion2 with
        | Lt => minVersion2
        | _ => minVersion1
        end in
      aligned1 <- applyMinVersionToRangeSet sortedR1 minSemver ;;
      newR1 <- setToRange aligned1 ;;
      aligned2 <- applyMinVersionToRangeSet sortedR2 minSemver ;;
      newR2 <- setToRange aligned2 ;;
      if Range_intersects newR1 newR2
      then self newR1 newR2 ignoredRanges
      else Throw NotYetImplemented
    else
      match firstDefined (hd_error sortedR1) (hd_error sortedR2) with
      | None => Throw NotYetImplemented
      | Some minComp =>
          newR1 <- setToRange (tl sortedR1) ;;
          newR2 <- setToRange (tl sortedR2) ;;
          ' (newRange, ignoredRanges') <- self newR1 newR2 ignoredRanges ;;
          rest <- sortRangeSet (set newRange) ;;
          result <- setToRange (minComp :: rest) ;;
          Ok (result, ignoredRanges')
      end.

(** [restrictiveRange]; [fuel] bounds the depth of the recursion, and a
    call that needs more never returns. *)
Fixpoint restrictiveRange (fuel : nat) (r1 r2 : Range) (ignoredRanges : list string)
  : Outcome (Range * list string) :=
  match fuel with
  | O => Diverge
  | S fuel' => restrictiveRangeBody (restrictiveRange fuel') r1 r2 ignoredRanges
  end.

(** The test of the first branch of [humanizeRange]: exactly two
    comparators, [>=] then [<], the upper major one above the lower major.
    It yields the lower version. *)
Definition caretLower (comps : group) : option SemVer :=
  match comps with
  | [Cmp OpGte vfrom; Cmp OpLt vto] =>
      if (major vfrom + 1 =? major vto)%N then Some vfrom else None
  | _ => None
  end.

(** The rendering of one group by [humanizeRange]; reading [from.value] of
    an empty group throws. *)
Definition humanizeGroup (comps : group) : Outcome string :=
  match comps with
  | [] => Throw TypeError
  | from :: rest =>
      match caretLower comps with
      | Some vfrom => Ok ("^" ++ version vfrom)
      | None =>
          if Nat.eqb (List.length comps) 1 && Operator_eqb (operator from) OpGte
          then Ok (value from)
          else Ok (trim (value from ++ " " ++
                         match hd_error rest with
                         | Some to => value to
                         | None => ""
                         end))
      end
  end.

(** [humanizeRange]; [None] is the absent argument. *)
Definition humanizeRange (range : option Range) : Outcome string :=
  match range with
  | None => Ok "*"
  | Some r =>
      if String.eqb "*" (raw r) then Ok "*"
      else
        s <- sortRangeSet (set r) ;;
        res <- mapM humanizeGroup s ;;
        Ok (join " || " res)
  end.

(** *** The aggregation *)

(** The variables of the loop of [computeEnginesConstraint]: [mrr], which
    the loop tests for truthiness, and the [ignoredRanges] array. *)
Definition LoopState : Type := (option Range * list string)%type.

(** One iteration of the loop of [computeEnginesConstraint].  A constraint
    that is not a text is passed over as well: [!constraint] holds for the
    length 0, and on any other value that is not a text [new Range] throws
    a [TypeError], which [semver.validRange] catches to return [null]. *)
Definition constraintStep (fuel : nat) (constraintKey : string)
  (st : LoopState) (entry : string * LockPackage) : Outcome LoopState :=
  let '(mrr, ignoredRanges) := st in
  let '(_, pkg) := entry in
  match getConstraintFromEngines (engines pkg) constraintKey with
  | None | Some (Length _) | Some Inherited => Ok st
  | Some (Text constraint) =>
      if String.eqb constraint "" then Ok st
      else
        match semver_validRange constraint with
        | None => Ok st
        | Some rawValidRange =>
            if existsb (String.eqb rawValidRange) ignoredRanges then Ok st
            else
              range <- orThrow (Range_new rawValidRange) ;;
              match mrr with
              | None => Ok (Some range, ignoredRanges)
              | Some m =>
                  ' (newRestrictiveRange, ignoredRanges') <-
                    restrictiveRange fuel m range ignoredRanges ;;
                  if negb (String.eqb (raw m) (raw newRestrictiveRange))
                  then Ok (Some newRestrictiveRange, ignoredRanges')
                  else Ok (Some m, ignoredRanges')
              end
        end
  end.

Fixpoint foldM {A B : Type} (f : A -> B -> Outcome A) (a : A) (l : list B) : Outcome A :=
  match l with
  | [] => Ok a
  | b :: l' => a' <- f a b ;; foldM f a' l'
  end.

(** The loop of [computeEnginesConstraint] from a given state. *)
Definition constraintLoop (fuel : nat) (constraintKey : string)
  (st : LoopState) (packages : list (string * LockPackage)) : Outcome LoopState :=
  foldM (constraintStep fuel constraintKey) st packages.

(** The state in which [computeEnginesConstraint] enters its loop. *)
Definition initialState : Outcome LoopState :=
  mrr <- orThrow (Range_new "*") ;;
  Ok (Some mrr, []).

(** [computeEnginesConstraint]: the final [mrr]. *)
Definition computeEnginesConstraint (fuel : nat)
  (packages : list (string * LockPackage)) (constraintKey : string)
  : Outcome (option Range) :=
  st0 <- initialState ;;
  st <- constraintLoop fuel constraintKey st0 packages ;;
  Ok (fst st).

End Tasks.

(** ** An executable model of the [semver] package

    The model reads the comparator syntax that the package prints (the
    [range] text of a [Range], which is what [semver.validRange] returns and
    what [setToRange] feeds back): comparators [<op><major>.<minor>.<patch>]
    with an optional prerelease and build, separated by spaces, groups
    separated by [||], and [*].  The sugar that the package rewrites into
    this syntax before it builds comparators (carets, tildes, x-ranges,
    hyphen ranges, partial versions, blanks after an operator) is outside
    the model: its constructors return [None] on such text, and the
    statements below evaluate them only on text of the syntax above.

    The [SemVer] constructor refuses a text of more than [MAX_LENGTH]
    characters and a major, minor or patch number above
    [MAX_SAFE_INTEGER].  A numeric prerelease identifier is a number of
    any size here; the package keeps one of [MAX_SAFE_INTEGER] or more as
    a string and compares it as a floating-point number.  Blanks are the
    ASCII ones. *)

Module NodeSemver.

Definition obind {A B : Type} (o : option A) (k : A -> option B) : option B :=
  match o with
  | Some a => k a
  | None => None
  end.

Fixpoint mapO {A B : Type} (f : A -> option B) (l : list A) : option (list B) :=
  match l with
  | [] => Some []
  | a :: l' => obind (f a) (fun b => obind (mapO f l') (fun bs => Some (b :: bs)))
  end.

(** *** Lexing *)

Definition is_digit (c : ascii) : bool :=
  (48 <=? nat_of_ascii c)%nat && (nat_of_ascii c <=? 57)%nat.

Definition is_letter (c : ascii) : bool :=
  ((65 <=? nat_of_ascii c)%nat && (nat_of_ascii c <=? 90)%nat) ||
  ((97 <=? nat_of_ascii c)%nat && (nat_of_ascii c <=? 122)%nat).

(** The characters of a prerelease or build identifier: [[0-9A-Za-z-]]. *)
Definition is_identchar (c : ascii) : bool :=
  is_digit c || is_letter c || Ascii.eqb c "-".

Fixpoint all (p : ascii -> bool) (s : string) : bool :=
  match s with
  | EmptyString => true
  | String c s' => p c && all p s'
  end.

(** The longest prefix of characters satisfying [p], and the rest. *)
Fixpoint span (p : ascii -> bool) (s : string) : string * string :=
  match s with
  | EmptyString => (EmptyString, EmptyString)
  | String c s' =>
      if p c then let (a, b) := span p s' in (String c a, b)
      else (EmptyString, s)
  end.

(** [s.split(sep)] for a one-character separator. *)
Fixpoint splitOn (sep : ascii) (s : string) : list string :=
  match s with
  | EmptyString => [EmptyString]
  | String c s' =>
      if Ascii.eqb c sep then EmptyString :: splitOn sep s'
      else match splitOn sep s' with
           | h :: t => String c h :: t
           | [] => [String c EmptyString]
           end
  end.

(** [s.split('||')]. *)
Fixpoint splitBars (s : string) : list string :=
  match s with
  | EmptyString => [EmptyString]
  | String c s' =>
      match Ascii.eqb c "|", s' with
      | true, String c' s'' =>
          if Ascii.eqb c' "|" then EmptyString :: splitBars s''
          else match splitBars s' with
               | h :: t => String c h :: t
               | [] => [String c EmptyString]
               end
      | _, _ =>
          match splitBars s' with
          | h :: t => String c h :: t
          | [] => [String c EmptyString]
          end
      end
  end.

(** [s.split(/\s+/)]; [inSep] holds while a run of blanks is being skipped. *)
Fixpoint splitSpacesFrom (inSep : bool) (s : string) : list string :=
  match s with
  | EmptyString => [EmptyString]
  | String c s' =>
      if is_space c then
        if inSep then splitSpacesFrom true s'
        else EmptyString :: splitSpacesFrom true s'
      else match splitSpacesFrom false s' with
           | h :: t => String c h :: t
           | [] => [String c EmptyString]
           end
  end.

Definition splitSpaces (s : string) : list string := splitSpacesFrom false s.

(** *** Versions *)

(** [MAX_LENGTH] and [MAX_SAFE_INTEGER] of [internal/constants.js]. *)
Definition MAX_LENGTH : nat := 256.
Definition MAX_SAFE_INTEGER : N := 9007199254740991.

(** A numeric identifier, [0|[1-9]\d*]. *)
Definition parseNumeric (s : string) : option N :=
  match s with
  | EmptyString => None
  | String c rest =>
      if all is_digit s && (negb (Ascii.eqb c "0") || String.eqb rest "")
      then option_map N.of_uint (DecimalString.NilEmpty.uint_of_string s)
      else None
  end.

(** A prerelease identifier: numeric, or with a letter or hyphen in it. *)
Definition parseIdentifier (s : string) : option Identifier :=
  match s with
  | EmptyString => None
  | _ =>
      if all is_digit s then option_map Numeric (parseNumeric s)
      else if all is_identchar s then Some (Alphanumeric s)
      else None
  end.

Definition parsePrerelease (s : string) : option (list Identifier) :=
  mapO parseIdentifier (splitOn "." s).

Definition validBuildIdentifier (s : string) : bool :=
  match s with
  | EmptyString => false
  | _ => all is_identchar s
  end.

(** The text after the prerelease: nothing, or [+] and build identifiers. *)
Definition validBuildSuffix (s : string) : bool :=
  match s with
  | EmptyString => true
  | String c b => Ascii.eqb c "+" && forallb validBuildIdentifier (splitOn "." b)
  end.

(** [<major>.<minor>.<patch>] at the start of [s], and what follows. *)
Definition parseMain (s : string) : option (N * N * N * string) :=
  let (a, r1) := span is_digit s in
  match r1 with
  | String "." r1' =>
      let (b, r2) := span is_digit r1' in
      match r2 with
      | String "." r2' =>
          let (c, r3) := span is_digit r2' in
          obind (parseNumeric a) (fun x =>
          obind (parseNumeric b) (fun y =>
          obind (parseNumeric c) (fun z => Some (x, y, z, r3))))
      | _ => None
      end
  | _ => None
  end.

(** A full version, [v?<main>(-<prerelease>)?(+<build>)?]. *)
Definition parseFullPlain (s : string) : option SemVer :=
  let s' := match s with String "v" t => t | _ => s end in
  obind (parseMain s') (fun '(x, y, z, rest) =>
    match rest with
    | EmptyString => Some (mkSemVer x y z [])
    | String "-" pre =>
        let (preText, build) := span (fun c => negb (Ascii.eqb c "+")) pre in
        obind (parsePrerelease preText) (fun ids =>
          if validBuildSuffix build then Some (mkSemVer x y z ids) else None)
    | _ => if validBuildSuffix rest then Some (mkSemVer x y z []) else None
    end).

(** The check of the three numbers by the [SemVer] constructor. *)
Definition checkNumbers (v : SemVer) : option SemVer :=
  if (major v <=? MAX_SAFE_INTEGER)%N && (minor v <=? MAX_SAFE_INTEGER)%N
     && (patch v <=? MAX_SAFE_INTEGER)%N
  then Some v else None.

(** [new semver.SemVer(text)]: a text of at most [MAX_LENGTH] characters
    that is, without the blanks around it, a full version with numbers up
    to [MAX_SAFE_INTEGER]. *)
Definition SemVer_new (s : string) : option SemVer :=
  if (MAX_LENGTH <? String.length s)%nat then None
  else obind (parseFullPlain (trim s)) checkNumbers.

(** [new SemVer(m[2])] in the [Comparator] constructor: the version text
    of a comparator has no blanks around it. *)
Definition parseVersion (s : string) : option SemVer :=
  if (MAX_LENGTH <? String.length s)%nat then None
  else obind (parseFullPlain s) checkNumbers.

(** *** Comparators *)

(** The operator prefix [(<|>)?=?] and the text after it. *)
Definition splitOperator (s : string) : Operator * string :=
  match s with
  | String "<" (String "=" t) => (OpLte, t)
  | String "<" t => (OpLt, t)
  | String ">" (String "=" t) => (OpGte, t)
  | String ">" t => (OpGt, t)
  | String "=" t => (OpEq, t)
  | _ => (OpEq, s)
  end.

(** [new semver.Comparator(text)]. *)
Definition Comparator_new (s : string) : option Comparator :=
  match s with
  | EmptyString => Some ANY
  | _ =>
      let (op, t) := splitOperator s in
      option_map (Cmp op) (parseVersion (trimStart t))
  end.

(** *** Ranges *)

Definition isNullSet (c : Comparator) : bool := String.eqb (value c) "<0.0.0-0".
Definition isAny (c : Comparator) : bool := String.eqb (value c) "".

(** The rewriting of one blank-separated token before the comparator is
    built: [*] becomes the empty comparator, and so does [>=0.0.0]. *)
Definition rewriteToken (tok : string) : string :=
  if String.eqb tok "*" then ""
  else if String.eqb tok ">=0.0.0" then ""
  else tok.

(** The comparators in their order, one per distinct [value]. *)
Fixpoint dedupe (seen : list string) (l : list Comparator) : list Comparator :=
  match l with
  | [] => []
  | c :: l' =>
      if existsb (String.eqb (value c)) seen then dedupe seen l'
      else c :: dedupe (value c :: seen) l'
  end.

(** [Range.prototype.parseRange] on one branch of the text. *)
Definition parseRange (text : string) : option (list Comparator) :=
  obind (mapO Comparator_new (map rewriteToken (splitSpaces (trim text))))
    (fun comparators =>
       match find isNullSet comparators with
       | Some c => Some [c]
       | None =>
           let m := dedupe [] comparators in
           if (1 <? List.length m)%nat && existsb isAny m
           then Some (filter (fun c => negb (isAny c)) m)
           else Some m
       end).

Definition headIsNullSet (c : list Comparator) : bool :=
  match c with
  | c0 :: _ => isNullSet c0
  | [] => false
  end.

Definition isAnyGroup (c : list Comparator) : bool :=
  match c with
  | [c0] => isAny c0
  | _ => false
  end.

(** The clean-up of the [Range] constructor: with several groups the null
    sets go (the first group stays when all are null), and a group that is
    just [ANY] replaces all. *)
Definition normalizeSet (s : list (list Comparator)) : list (list Comparator) :=
  match s with
  | [] | [_] => s
  | first :: _ =>
      match filter (fun c => negb (headIsNullSet c)) s with
      | [] => [first]
      | [c] => [c]
      | s' => match find isAnyGroup s' with
              | Some c => [c]
              | None => s'
              end
      end
  end.

(** [new semver.Range(text, rangeOptions)]. *)
Definition Range_new (text : string) : option Range :=
  obind (mapO parseRange (splitBars text)) (fun groups =>
    match filter (fun c => negb (Nat.eqb (List.length c) 0)) groups with
    | [] => None
    | s => Some (mkRange text (normalizeSet s))
    end).

(** The [range] field computed by [Range.prototype.format]. *)
Definition Range_format (r : Range) : string :=
  trim (join "||" (map (fun comps => trim (join " " (map value comps))) (set r))).

(** [semver.validRange(text)]. *)
Definition validRange (text : string) : option string :=
  option_map (fun r => match Range_format r with
                       | EmptyString => "*"
                       | t => t
                       end)
             (Range_new text).

(** *** Membership

    [testSet] of the package: all comparators accept the version, and a
    version with a prerelease is accepted only next to a comparator that
    has a prerelease on the same [major.minor.patch]. *)

Definition hasPrerelease (v : SemVer) : bool :=
  match prerelease v with
  | [] => false
  | _ => true
  end.

Definition sameTuple (a b : SemVer) : bool :=
  (major a =? major b)%N && (minor a =? minor b)%N && (patch a =? patch b)%N.

Definition allowsPrereleaseOf (v : SemVer) (c : Comparator) : bool :=
  match c with
  | ANY => false
  | Cmp _ a => hasPrerelease a && sameTuple a v
  end.

Definition testSet (s : list Comparator) (v : SemVer) : bool :=
  forallb (fun c => Comparator_test c v) s &&
  (negb (hasPrerelease v) || existsb (allowsPrereleaseOf v) s).

(** [Range.prototype.test]. *)
Definition Range_test (r : Range) (v : SemVer) : bool :=
  existsb (fun s => testSet s v) (set r).

(** [semver.satisfies(v, String(c))]: the text of a comparator read back
    as a range of one group. *)
Definition satisfies (v : SemVer) (c : Comparator) : bool := testSet [c] v.

(** *** Structural equality *)

Definition Identifier_eqb (a b : Identifier) : bool :=
  match a, b with
  | Numeric x, Numeric y => (x =? y)%N
  | Alphanumeric x, Alphanumeric y => String.eqb x y
  | _, _ => false
  end.

Fixpoint list_eqb {A : Type} (e : A -> A -> bool) (a b : list A) : bool :=
  match a, b with
  | [], [] => true
  | x :: a', y :: b' => e x y && list_eqb e a' b'
  | _, _ => false
  end.

Definition SemVer_eqb (a b : SemVer) : bool :=
  sameTuple a b && list_eqb Identifier_eqb (prerelease a) (prerelease b).

Definition Comparator_eqb (a b : Comparator) : bool :=
  match a, b with
  | ANY, ANY => true
  | Cmp o v, Cmp o' v' => Operator_eqb o o' && SemVer_eqb v v'
  | _, _ => false
  end.

(** *** Intersection *)

Definition increasing (op : Operator) : bool :=
  match op with OpGt | OpGte => true | _ => false end.
Definition decreasing (op : Operator) : bool :=
  match op with OpLt | OpLte => true | _ => false end.
Definition inclusive (op : Operator) : bool :=
  match op with OpGte | OpLte => true | _ => false end.

(** [Comparator.prototype.intersects]. *)
Definition Comparator_intersects (this comp : Comparator) : bool :=
  match this, comp with
  | ANY, _ => true
  | Cmp OpEq v, _ => testSet [comp] v
  | _, ANY => true
  | Cmp _ _, Cmp OpEq w => testSet [this] w
  | Cmp o v, Cmp o' w =>
      let sameDirectionIncreasing := increasing o && increasing o' in
      let sameDirectionDecreasing := decreasing o && decreasing o' in
      let sameSemVer := SemVer_eqb v w in
      let differentDirectionsInclusive := inclusive o && inclusive o' in
      let oppositeDirectionsLessThan := lt v w && increasing o && decreasing o' in
      let oppositeDirectionsGreaterThan := gt v w && decreasing o && increasing o' in
      sameDirectionIncreasing || sameDirectionDecreasing ||
      (sameSemVer && differentDirectionsInclusive) ||
      oppositeDirectionsLessThan || oppositeDirectionsGreaterThan
  end.

(** [isSatisfiable] on the comparators taken from the last one down: each
    one intersects all those before it. *)
Fixpoint satisfiableFromLast (reversed : list Comparator) : bool :=
  match reversed with
  | [] => true
  | testComparator :: remaining =>
      forallb (Comparator_intersects testComparator) remaining &&
      satisfiableFromLast remaining
  end.

Definition isSatisfiable (comparators : list Comparator) : bool :=
  satisfiableFromLast (rev comparators).

(** [Range.prototype.intersects]. *)
Definition Range_intersects (this range : Range) : bool :=
  existsb (fun thisComparators =>
    isSatisfiable thisComparators &&
    existsb (fun rangeComparators =>
      isSatisfiable rangeComparators &&
      forallb (fun thisComparator =>
        forallb (fun rangeComparator =>
          Comparator_intersects thisComparator rangeComparator)
          rangeComparators)
        thisComparators)
      (set range))
    (set this).

(** *** Subset ([ranges/subset.js])

    The package compares comparator groups as objects first.  Groups are
    shared through the cache of [parseRange], one object per text, and the
    ranges the reducer handles carry the text the package prints, so that
    two groups are the same object exactly when they are equal. *)

Definition sameObject (a b : list Comparator) : bool := list_eqb Comparator_eqb a b.

Definition Bound : Type := (Operator * SemVer)%type.

(** [higherGT(a, b) === b], for a defined [a]. *)
Definition higherIsSecond (a b : Bound) : bool :=
  match compare (snd a) (snd b) with
  | Gt => false
  | Lt => true
  | Eq => Operator_eqb (fst b) OpGt && Operator_eqb (fst a) OpGte
  end.

(** [lowerLT(a, b) === b], for a defined [a]. *)
Definition lowerIsSecond (a b : Bound) : bool :=
  match compare (snd a) (snd b) with
  | Lt => false
  | Gt => true
  | Eq => Operator_eqb (fst b) OpLt && Operator_eqb (fst a) OpLte
  end.

Definition higherGT (a : option Bound) (b : Bound) : option Bound :=
  match a with
  | None => Some b
  | Some a' => if higherIsSecond a' b then Some b else a
  end.

Definition lowerLT (a : option Bound) (b : Bound) : option Bound :=
  match a with
  | None => Some b
  | Some a' => if lowerIsSecond a' b then Some b else a
  end.

(** The highest lower bound, the lowest upper bound and the [=] versions
    of a group, as the first loop of [simpleSubset] collects them. *)
Fixpoint collect (sub : list Comparator) (gt lt : option Bound) (eqSet : list SemVer)
  : option Bound * option Bound * list SemVer :=
  match sub with
  | [] => (gt, lt, eqSet)
  | ANY :: rest => collect rest gt lt eqSet
  | Cmp op v :: rest =>
      if increasing op then collect rest (higherGT gt (op, v)) lt eqSet
      else if decreasing op then collect rest gt (lowerLT lt (op, v)) eqSet
      else collect rest gt lt (eqSet ++ [v])%list
  end.

Definition isDefined {A : Type} (o : option A) : bool :=
  match o with Some _ => true | None => false end.

(** The prerelease version whose tuple the dominating group must mention:
    [needDomGTPre] and [needDomLTPre] before the loop. *)
Definition needDomPre (b : option Bound) : option SemVer :=
  match b with
  | Some (_, v) => if hasPrerelease v then Some v else None
  | None => None
  end.

(** The exception [<1.2.3-0 is the same as <1.2.3]. *)
Definition zeroPrereleaseUpper (lt : option Bound) : bool :=
  match lt with
  | Some (OpLt, v) =>
      match prerelease v with
      | [Numeric 0%N] => true
      | _ => false
      end
  | _ => false
  end.

Definition clearsNeed (need : option SemVer) (c : Comparator) : option SemVer :=
  match need, c with
  | Some n, Cmp _ w => if hasPrerelease w && sameTuple w n then None else need
  | _, _ => need
  end.

Record DomState : Type := mkDomState {
  hasDomGT : bool;
  hasDomLT : bool;
  needDomGTPre : option SemVer;
  needDomLTPre : option SemVer
}.

(** The loop of [simpleSubset] over the dominating group; [None] is its
    [return false]. *)
Fixpoint domLoop (gt lt : option Bound) (gtltNonZero : bool)
  (dom : list Comparator) (st : DomState) : option DomState :=
  match dom with
  | [] => Some st
  | c :: rest =>
      let st1 := mkDomState
                   (hasDomGT st || increasing (operator c))
                   (hasDomLT st || decreasing (operator c))
                   (if isDefined gt then clearsNeed (needDomGTPre st) c else needDomGTPre st)
                   (if isDefined lt then clearsNeed (needDomLTPre st) c else needDomLTPre st) in
      let failsGT :=
        match gt, c with
        | Some g, Cmp op w =>
            if increasing op then higherIsSecond g (op, w)
            else Operator_eqb (fst g) OpGte && negb (satisfies (snd g) c)
        | Some g, ANY => Operator_eqb (fst g) OpGte && negb (satisfies (snd g) c)
        | None, _ => false
        end in
      let failsLT :=
        match lt, c with
        | Some l, Cmp op w =>
            if decreasing op then lowerIsSecond l (op, w)
            else Operator_eqb (fst l) OpLte && negb (satisfies (snd l) c)
        | Some l, ANY => Operator_eqb (fst l) OpLte && negb (satisfies (snd l) c)
        | None, _ => false
        end in
      let failsEq :=
        Operator_eqb (operator c) OpEq && (isDefined lt || isDefined gt) && gtltNonZero in
      if failsGT || failsLT || failsEq then None
      else domLoop gt lt gtltNonZero rest st1
  end.

Definition minimumVersion : list Comparator := [Cmp OpGte (mkSemVer 0 0 0 [])].

(** [simpleSubset(sub, dom)]: [Some b] for the boolean [b], [None] for
    [null] (the group [sub] is empty of versions). *)
Definition simpleSubset (sub dom : list Comparator) : option bool :=
  if sameObject sub dom then Some true
  else if isAnyGroup sub && isAnyGroup dom then Some true
  else
    let sub := if isAnyGroup sub then minimumVersion else sub in
    let dom := if isAnyGroup dom then minimumVersion else dom in
    let '(gt, lt, eqSet) := collect sub None None [] in
    if (1 <? List.length eqSet)%nat then None
    else
      let gtltComp :=
        match gt, lt with
        | Some g, Some l => Some (compare (snd g) (snd l))
        | _, _ => None
        end in
      let emptyInterval :=
        match gtltComp, gt, lt with
        | Some Gt, _, _ => true
        | Some Eq, Some g, Some l =>
            negb (Operator_eqb (fst g) OpGte) || negb (Operator_eqb (fst l) OpLte)
        | _, _, _ => false
        end in
      if emptyInterval then None
      else
        match eqSet with
        | e :: _ =>
            if match gt with Some g => negb (satisfies e (Cmp (fst g) (snd g))) | None => false end
            then None
            else if match lt with Some l => negb (satisfies e (Cmp (fst l) (snd l))) | None => false end
            then None
            else Some (forallb (satisfies e) dom)
        | [] =>
            let gtltNonZero := match gtltComp with Some Eq => false | _ => true end in
            let st0 := mkDomState false false (needDomPre gt)
                         (if zeroPrereleaseUpper lt then None else needDomPre lt) in
            match domLoop gt lt gtltNonZero dom st0 with
            | None => Some false
            | Some st =>
                if isDefined gt && hasDomLT st && negb (isDefined lt) && gtltNonZero
                then Some false
                else if isDefined lt && hasDomGT st && negb (isDefined gt) && gtltNonZero
                then Some false
                else if isDefined (needDomGTPre st) || isDefined (needDomLTPre st)
                then Some false
                else Some true
            end
        end.

(** The inner loop of [subset]: whether some group of [dom] contains
    [simpleSub], and the flag [sawNonNull] afterwards. *)
Fixpoint subsetOfSome (simpleSub : list Comparator) (dom : list (list Comparator))
  (sawNonNull : bool) : bool * bool :=
  match dom with
  | [] => (false, sawNonNull)
  | simpleDom :: rest =>
      match simpleSubset simpleSub simpleDom with
      | Some true => (true, true)
      | Some false => subsetOfSome simpleSub rest true
      | None => subsetOfSome simpleSub rest sawNonNull
      end
  end.

Fixpoint subsetLoop (sub dom : list (list Comparator)) (sawNonNull : bool) : bool :=
  match sub with
  | [] => true
  | simpleSub :: rest =>
      let (found, saw) := subsetOfSome simpleSub dom sawNonNull in
      if found then subsetLoop rest dom saw
      else if saw then false
      else subsetLoop rest dom saw
  end.

(** [semver.subset(sub, dom)]. *)
Definition subset (sub dom : Range) : bool := subsetLoop (set sub) (set dom) false.

(** *** Minimum version ([ranges/min-version.js]) *)

(** The candidate of one comparator: its version for [>=] and [=], the
    next version for [>], none for an upper bound. *)
Definition comparatorMin (c : Comparator) : option SemVer :=
  match c with
  | Cmp OpGt v =>
      match prerelease v with
      | [] => Some (mkSemVer (major v) (minor v) (patch v + 1) [])
      | p => Some (mkSemVer (major v) (minor v) (patch v) (p ++ [Numeric 0])%list)
      end
  | Cmp OpEq v | Cmp OpGte v => Some v
  | _ => None
  end.

Definition raiseTo (setMin : option SemVer) (c : Comparator) : option SemVer :=
  match comparatorMin c with
  | Some compver =>
      match setMin with
      | None => Some compver
      | Some m => if gt compver m then Some compver else setMin
      end
  | None => setMin
  end.

Definition lowerTo (minver : option SemVer) (comparators : list Comparator) : option SemVer :=
  match fold_left raiseTo comparators None with
  | Some setMin =>
      match minver with
      | None => Some setMin
      | Some m => if gt m setMin then Some setMin else minver
      end
  | None => minver
  end.

(** [semver.minVersion(range, rangeOptions)]. *)
Definition minVersion (range : Range) : option SemVer :=
  if Range_test range (mkSemVer 0 0 0 []) then Some (mkSemVer 0 0 0 [])
  else if Range_test range (mkSemVer 0 0 0 [Numeric 0])
  then Some (mkSemVer 0 0 0 [Numeric 0])
  else
    match fold_left lowerTo (set range) None with
    | Some minver => if Range_test range minver then Some minver else None
    | None => None
    end.

End NodeSemver.

#[export] Instance node_semver : SemverLib := {|
  SemVer_new := NodeSemver.SemVer_new;
  Comparator_new := NodeSemver.Comparator_new;
  Range_new := NodeSemver.Range_new;
  semver_validRange := NodeSemver.validRange;
  semver_subset := NodeSemver.subset;
  Range_intersects := NodeSemver.Range_intersects;
  semver_minVersion := NodeSemver.minVersion
|}.

(** ** The tasks of the check command ([lib/tasks.ts])

    [computeEnginesConstraints], [generateUpdateCommandFromContext],
    [outputComputedConstraints] and [updatePackageJson] read and update the
    context of the command.  A task returns the updated context next to
    what it hands to the outside: the title it sets on its parent task, the
    file it writes.  The engine names and the rendered ranges are ASCII
    texts, so that [String.length] counts what [length] counts in
    JavaScript. *)

(** The errors of a task: [new Error(text)] thrown by the task itself, or
    an error of the reducer. *)
Inductive TaskError : Type :=
  | Message (text : string)
  | Raised (e : Error).

Inductive TaskOutcome (A : Type) : Type :=
  | Done (a : A)
  | Failed (e : TaskError)
  | Never.

Arguments Done {A} a.
Arguments Failed {A} e.
Arguments Never {A}.

(** A call of the reducer inside a task. *)
Definition lift {A : Type} (m : Outcome A) : TaskOutcome A :=
  match m with
  | Ok a => Done a
  | Throw e => Failed (Raised e)
  | Diverge => Never
  end.

Definition andThen {A B : Type} (m : TaskOutcome A) (k : A -> TaskOutcome B)
  : TaskOutcome B :=
  match m with
  | Done a => k a
  | Failed e => Failed e
  | Never => Never
  end.

(** A [Map] with string keys: its entries in insertion order, each key
    once. *)
Definition JSMap (V : Type) : Type := list (string * V).

(** [Map.prototype.set], which is also the assignment [object[key] = v] of
    a property: the value of a present key is replaced in place, a new key
    goes last. *)
Fixpoint Map_set {V : Type} (key : string) (v : V) (m : JSMap V) : JSMap V :=
  match m with
  | [] => [(key, v)]
  | (k, w) :: rest =>
      if String.eqb k key then (k, v) :: rest else (k, w) :: Map_set key v rest
  end.

(** [lodash.merge(object, source)] on objects whose values are strings:
    the properties of [source] are assigned to [object] one after the
    other. *)
Definition merge (object source : list (string * string)) : list (string * string) :=
  fold_left (fun o p => Map_set (fst p) (snd p) o) source object.

(** [FileObject<T>]: the [filename], and the [relativePath] and the [data]
    once the file is loaded. *)
Record FileObject (T : Type) : Type := mkFileObject {
  filename : string;
  relativePath : option string;
  data : option T
}.

Arguments mkFileObject {T} filename relativePath data.
Arguments filename {T} f.
Arguments relativePath {T} f.
Arguments data {T} f.

(** The content of [package.json]: its [engines] object, when it has one,
    and its other properties, which the tasks hand on as they are. *)
Module PackageJSON.

Record PackageJSONSchema : Type := mk {
  engines : option (list (string * string));
  others : list (string * string)
}.

(** [data.engines || {}]: the [engines] object, empty when there is
    none. *)
Definition enginesObject (d : PackageJSONSchema) : list (string * string) :=
  match engines d with
  | Some e => e
  | None => []
  end.

End PackageJSON.

(** The content of [package-lock.json]: the entries of its [packages]
    property, when it has one, in the order of [Object.entries]. *)
Record PackageLockJSONSchema : Type := mkPackageLock {
  packages : option (list (string * LockPackage))
}.

(** [EngineConstraintChange]: the range of [package.json] and the range
    computed from the lock file. *)
Record EngineConstraintChange : Type := mkEngineConstraintChange {
  from : option Range;
  to : option Range
}.

Module Ctx.

(** [CheckCommandContext]; an absent flag is [false]. *)
Record CheckCommandContext : Type := mk {
  path : option string;
  workingDir : string;
  engines : option (list string);
  update : bool;
  quiet : bool;
  debug : bool;
  verbose : bool;
  packageObject : FileObject PackageJSON.PackageJSONSchema;
  packageLockObject : FileObject PackageLockJSONSchema;
  ranges : option (JSMap EngineConstraintChange);
  rangesSimplified : option (JSMap string)
}.

(** [ctx.ranges = ranges]. *)
Definition setRanges (ctx : CheckCommandContext) (v : JSMap EngineConstraintChange)
  : CheckCommandContext :=
  mk (path ctx) (workingDir ctx) (engines ctx) (update ctx) (quiet ctx) (debug ctx)
     (verbose ctx) (packageObject ctx) (packageLockObject ctx) (Some v)
     (rangesSimplified ctx).

(** [ctx.rangesSimplified = rangesSimplified]. *)
Definition setRangesSimplified (ctx : CheckCommandContext) (v : JSMap string)
  : CheckCommandContext :=
  mk (path ctx) (workingDir ctx) (engines ctx) (update ctx) (quiet ctx) (debug ctx)
     (verbose ctx) (packageObject ctx) (packageLockObject ctx) (ranges ctx) (Some v).

(** [ctx.packageObject.data.engines = engines]. *)
Definition setPackageEngines (ctx : CheckCommandContext) (v : list (string * string))
  : CheckCommandContext :=
  let file := packageObject ctx in
  let data' :=
    option_map (fun d => PackageJSON.mk (Some v) (PackageJSON.others d)) (data file) in
  mk (path ctx) (workingDir ctx) (engines ctx) (update ctx) (quiet ctx) (debug ctx)
     (verbose ctx) (mkFileObject (filename file) (relativePath file) data')
     (packageLockObject ctx) (ranges ctx) (rangesSimplified ctx).

End Ctx.

Definition newline : string := String (ascii_of_nat 10) EmptyString.

(** The arrow of the table, U+2192 (here its three bytes in UTF-8), and its
    [length] in JavaScript, one code unit. *)
Definition arrowSeparator : string :=
  String (ascii_of_nat 226) (String (ascii_of_nat 134) (String (ascii_of_nat 146) EmptyString)).

Definition arrowSeparator_length : nat := 1.

(** The column widths and the rows of the table of changes. *)
Definition Widths : Type := (nat * nat * nat * nat)%type.
Definition Row : Type := (string * string * string * string)%type.

Section CheckCommand.

Context {L : SemverLib} {R : Runtime}.

(** The list of engine names of [lib/types.ts]. *)
Variable EngineConstraintKeys : list string.

(** [getRelativePath({ path, workingDir })] of [lib/utils.ts]. *)
Variable getRelativePath : string -> string -> string.

(** [chalk.green] and [chalk.cyan]. *)
Variable chalk_green chalk_cyan : string -> string.

(** The text of the table built by [createEnginesTable] from the column
    widths, with the rows pushed into it. *)
Variable tableText : Widths -> list Row -> string.

(** [sortPackageJson] of the package [sort-package-json]. *)
Variable sortPackageJson : PackageJSON.PackageJSONSchema -> PackageJSON.PackageJSONSchema.

Definition filterEngineConstraintKey (key : string) : bool :=
  existsb (String.eqb key) EngineConstraintKeys.

(** The engines for which [computeEnginesConstraints] computes ranges. *)
Definition constraintKeys (ctx : Ctx.CheckCommandContext) : list string :=
  match Ctx.engines ctx with
  | Some ((_ :: _) as engines) => filter filterEngineConstraintKey engines
  | _ => EngineConstraintKeys
  end.

(** The package list [[['', { engines: packageObject.data.engines || {} }]]]
    from which the range of [package.json] is computed. *)
Definition ownPackages (packageData : PackageJSON.PackageJSONSchema)
  : list (string * LockPackage) :=
  [("", mkLockPackage (EnginesObject (PackageJSON.enginesObject packageData)))].

(** One iteration of the loop of [computeEnginesConstraints]. *)
Definition rangesStep (fuel : nat) (packageData : PackageJSON.PackageJSONSchema)
  (lockPackages : list (string * LockPackage))
  (ranges : JSMap EngineConstraintChange) (constraintKey : string)
  : Outcome (JSMap EngineConstraintChange) :=
  rangeFrom <- computeEnginesConstraint fuel (ownPackages packageData) constraintKey ;;
  rangeTo <- computeEnginesConstraint fuel lockPackages constraintKey ;;
  Ok (Map_set constraintKey (mkEngineConstraintChange rangeFrom rangeTo) ranges).

(** [computeEnginesConstraints]. *)
Definition computeEnginesConstraints (fuel : nat) (ctx : Ctx.CheckCommandContext)
  : TaskOutcome Ctx.CheckCommandContext :=
  match data (Ctx.packageObject ctx) with
  | None =>
      Failed (Message (filename (Ctx.packageObject ctx) ++ " data is not defined."))
  | Some packageData =>
      match data (Ctx.packageLockObject ctx) with
      | None =>
          Failed (Message (filename (Ctx.packageLockObject ctx)
                           ++ " data is not defined."))
      | Some lockData =>
          match packages lockData with
          | None =>
              Failed (Message (filename (Ctx.packageLockObject ctx)
                               ++ " does not contain packages property."))
          | Some lockPackages =>
              match constraintKeys ctx with
              | [] => Failed (Message "No valid constraint key(s).")
              | keys =>
                  andThen
                    (lift (foldM (rangesStep fuel packageData lockPackages) [] keys))
                    (fun ranges => Done (Ctx.setRanges ctx ranges))
              end
          end
      end
  end.

(** [generateUpdateCommandFromContext]. *)
Definition generateUpdateCommandFromContext (ctx : Ctx.CheckCommandContext) : string :=
  let path :=
    match Ctx.path ctx with
    | Some p =>
        if (0 <? String.length p)%nat
        then Some (getRelativePath p (Ctx.workingDir ctx))
        else None
    | None => None
    end in
  let argv :=
    (["nce"]
     ++ match path with
        | Some p => if (0 <? String.length p)%nat then ["-p"; p] else []
        | None => []
        end
     ++ match Ctx.engines ctx with
        | Some engines => flat_map (fun e => ["-e"; e]) engines
        | None => []
        end
     ++ (if Ctx.quiet ctx then ["-q"] else [])
     ++ (if Ctx.debug ctx then ["-d"] else [])
     ++ (if Ctx.verbose ctx then ["-v"] else [])
     ++ ["-u"])%list in
  join " " argv.

(** The variables of the loop of [outputComputedConstraints]:
    [rangesSimplified], [colWidths] and [colValues]. *)
Definition OutputState : Type := (JSMap string * Widths * list Row)%type.

(** One iteration of the loop of [outputComputedConstraints]. *)
Definition outputStep (st : OutputState) (entry : string * EngineConstraintChange)
  : Outcome OutputState :=
  let '(rangesSimplified, (w0, w1, w2, w3), colValues) := st in
  let '(engine, range) := entry in
  rangeToHumanized <- humanizeRange (to range) ;;
  rangeFromHumanized <- humanizeRange (from range) ;;
  if String.eqb rangeToHumanized rangeFromHumanized then Ok st
  else
    Ok (Map_set engine rangeToHumanized rangesSimplified,
        (Nat.max w0 (String.length engine + 2),
         Nat.max w1 (String.length rangeFromHumanized + 2),
         arrowSeparator_length + 2,
         Nat.max w3 (String.length rangeToHumanized + 2)),
        (colValues
         ++ [(engine, rangeFromHumanized, arrowSeparator, rangeToHumanized)])%list).

Definition outputLoop (ranges : JSMap EngineConstraintChange) : Outcome OutputState :=
  foldM outputStep ([], (2, 2, 2, 2), []) ranges.

(** [outputComputedConstraints]: the updated context and the title set on
    the parent task. *)
Definition outputComputedConstraints (ctx : Ctx.CheckCommandContext)
  : TaskOutcome (Ctx.CheckCommandContext * string) :=
  match Ctx.ranges ctx with
  | None => Failed (Message "Computed engines range constraints are not defined.")
  | Some ranges =>
      andThen (lift (outputLoop ranges))
        (fun '(rangesSimplified, colWidths, colValues) =>
           let title :=
             match rangesSimplified with
             | [] =>
                 "All computed engines range constraints are up-to-date "
                 ++ chalk_green ":)"
             | _ =>
                 let title :=
                   "Computed engines range constraints:" ++ newline ++ newline
                   ++ tableText colWidths colValues in
                 if negb (Ctx.update ctx)
                 then title ++ newline ++ newline ++ "Run "
                      ++ chalk_cyan (generateUpdateCommandFromContext ctx)
                      ++ " to upgrade " ++ filename (Ctx.packageObject ctx) ++ "."
                 else title
             end in
           Done (Ctx.setRangesSimplified ctx rangesSimplified, title))
  end.

(** [updatePackageJson]: the updated context and the call of [writeJson],
    a path and the content written to it. *)
Definition updatePackageJson (ctx : Ctx.CheckCommandContext)
  : TaskOutcome (Ctx.CheckCommandContext * (string * PackageJSON.PackageJSONSchema)) :=
  match Ctx.rangesSimplified ctx with
  | None =>
      Failed (Message "Simplified computed engines range constraints are not defined.")
  | Some rangesSimplified =>
      match data (Ctx.packageObject ctx) with
      | None =>
          Failed (Message (filename (Ctx.packageObject ctx) ++ " data is not defined."))
      | Some packageData =>
          match relativePath (Ctx.packageObject ctx) with
          | None | Some EmptyString =>
              Failed (Message (filename (Ctx.packageObject ctx)
                               ++ " path is not defined."))
          | Some file =>
              let engines :=
                merge (merge [] (PackageJSON.enginesObject packageData))
                      rangesSimplified in
              let packageData' := PackageJSON.mk (Some engines) (PackageJSON.others packageData) in
              Done (Ctx.setPackageEngines ctx engines, (file, sortPackageJson packageData'))
          end
      end
  end.

End CheckCommand.

(** * Vocabulary of the statements *)

Section Vocabulary.

Context {L : SemverLib} {R : Runtime}.

(** An entry whose constraint is absent, not a text, empty, invalid or
    already ignored leaves the state of the loop as it is. *)
Definition skipped (key : string) (ignoredRanges : list string)
  (entry : string * LockPackage) : bool :=
  match getConstraintFromEngines (engines (snd entry)) key with
  | None | Some (Length _) | Some Inherited => true
  | Some (Text c) =>
      String.eqb c "" ||
      match semver_validRange c with
      | None => true
      | Some rv => existsb (String.eqb rv) ignoredRanges
      end
  end.

(** The larger of the two minimum versions, to which [restrictiveRange]
    aligns both ranges. *)
Definition floor (minVersion1 minVersion2 : SemVer) : SemVer :=
  match compare minVersion1 minVersion2 with
  | Lt => minVersion2
  | _ => minVersion1
  end.

End Vocabulary.

(** The runtime of the examples: the names of the properties of
    [Object.prototype] and of [Array.prototype] in Node.js 18. *)
Definition Object_prototype : list string :=
  ["constructor"; "__defineGetter__"; "__defineSetter__"; "hasOwnProperty";
   "__lookupGetter__"; "__lookupSetter__"; "isPrototypeOf"; "propertyIsEnumerable";
   "toString"; "valueOf"; "__proto__"; "toLocaleString"].

Definition Array_prototype : list string :=
  ["length"; "constructor"; "at"; "concat"; "copyWithin"; "fill"; "find";
   "findIndex"; "findLast"; "findLastIndex"; "lastIndexOf"; "pop"; "push";
   "reverse"; "shift"; "unshift"; "slice"; "sort"; "splice"; "includes";
   "indexOf"; "join"; "keys"; "entries"; "values"; "forEach"; "filter"; "flat";
   "flatMap"; "map"; "every"; "some"; "reduce"; "reduceRight"; "toLocaleString";
   "toString"].

#[export] Instance node_runtime : Runtime := {|
  Object_inherits := fun key => existsb (String.eqb key) Object_prototype;
  Array_inherits := fun key => existsb (String.eqb key) (Array_prototype ++ Object_prototype)
|}.

(** A computation that does not throw the unimplemented error. *)
Definition noUnimplemented {A : Type} (m : Outcome A) : Prop :=
  m <> Throw NotYetImplemented.

Arguments restrictiveRange : simpl never.
Arguments restrictiveRangeBody : simpl never.

(** [parsed text] is the [Range] that the model of the package builds from
    [text]; [dependency name constraint] is a lock-file entry that declares
    [constraint] for the engine [node]. *)
Definition parsed (text : string) : Range :=
  match NodeSemver.Range_new text with
  | Some r => r
  | None => mkRange text []
  end.

Definition dependency (name constraint : string) : string * LockPackage :=
  (name, mkLockPackage (EnginesObject [("node", constraint)])).

(** Whether [s] starts with a character satisfying [p]. *)
Definition startsWith (p : ascii -> bool) (s : string) : bool :=
  match s with
  | EmptyString => false
  | String c _ => p c
  end.

(** The identifiers that the [SemVer] constructor can produce: those that
    are read back from their text.  A version is well formed when its
    prerelease identifiers are, its three numbers are at most
    [MAX_SAFE_INTEGER] and its text has at most [MAX_LENGTH] characters. *)
Definition Identifier_wf (i : Identifier) : bool :=
  match NodeSemver.parseIdentifier (identifier_text i) with
  | Some j => NodeSemver.Identifier_eqb i j
  | None => false
  end.

Definition SemVer_wf (v : SemVer) : bool :=
  (major v <=? NodeSemver.MAX_SAFE_INTEGER)%N
  && (minor v <=? NodeSemver.MAX_SAFE_INTEGER)%N
  && (patch v <=? NodeSemver.MAX_SAFE_INTEGER)%N
  && (String.length (version v) <=? NodeSemver.MAX_LENGTH)%nat
  && forallb Identifier_wf (prerelease v).

(** The characters of the text of a comparator. *)
Definition is_valuechar (c : ascii) : bool :=
  NodeSemver.is_identchar c || Ascii.eqb c "." || Ascii.eqb c "<" ||
  Ascii.eqb c ">" || Ascii.eqb c "=".

(** [comparePre] on the prerelease lists. *)
Definition comparePreOf (pa pb : list Identifier) : comparison :=
  match pa, pb with
  | _ :: _, [] => Lt
  | [], _ :: _ => Gt
  | [], [] => Eq
  | _, _ => comparePreList pa pb
  end.

(** The text [>=m.0.0 <(m+1).0.0-0] and the group it stands for. *)
Definition caretRangeText (m : N) : string :=
  ">=" ++ show m ++ ".0.0 <" ++ show (m + 1) ++ ".0.0-0".

Definition caretGroup (m : N) : group :=
  [Cmp OpGte (mkSemVer m 0 0 []); Cmp OpLt (mkSemVer (m + 1) 0 0 [Numeric 0])].

(** The versions of a group, the interval where all its comparators hold,
    and of a group list, the union of these intervals. *)
Definition inGroup (g : group) (v : SemVer) : bool :=
  forallb (fun c => Comparator_test c v) g.

Definition inUnion (s : list group) (v : SemVer) : bool :=
  existsb (fun g => inGroup g v) s.

(** A group that starts with the lower bound [>=lo] and has an upper bound
    [<hi] no higher than [(lo.major+1).0.0-0], the start of the next major:
    the shape of a caret range. *)
Definition endsWithinMajor (g : group) : bool :=
  match g with
  | Cmp OpGte lo :: rest =>
      existsb (fun c => match c with
                        | Cmp OpLt hi => lte hi (mkSemVer (major lo + 1) 0 0 [Numeric 0])
                        | _ => false
                        end) rest
  | _ => false
  end.

(** The groups that the alignment to [minVersion] is meant for: they start
    with a lower bound [>=lo], and those whose [lo] has a major below that
    of [minVersion] end within their major. *)
Definition alignable (minVersion : SemVer) (g : group) : bool :=
  match g with
  | Cmp OpGte lo :: _ => (major minVersion <=? major lo)%N || endsWithinMajor g
  | _ => false
  end.

(** [notAbove a b]: the comparison function of [sortRangeSet] does not put
    [a] after [b]. *)
Definition notAbove (a b : group) : Prop := compareGroups a b <> Gt.

(** The groups whose first comparator carries a version equal to [v]. *)
Definition startsAt (v : SemVer) (g : group) : bool :=
  match sortKey g with
  | Some w => eq w v
  | None => false
  end.

(** A group with a version in its first comparator. *)
Definition keyed (g : group) : bool :=
  match sortKey g with Some _ => true | None => false end.

(** A comparator that the package reads back from its text as it is: one
    with a well-formed version, other than [>=0.0.0], which the package
    reads as [*], and other than the null set [<0.0.0-0]. *)
Definition printable (c : Comparator) : bool :=
  match c with
  | ANY => false
  | Cmp op v =>
      SemVer_wf v && negb (String.eqb (value c) ">=0.0.0")
      && negb (String.eqb (value c) "<0.0.0-0")
  end.

(** A group that the package reads back from its text as it is: not
    empty, of printable comparators with distinct texts. *)
Definition printableGroup (g : group) : Prop :=
  g <> [] /\ forallb printable g = true /\ NoDup (map value g).

(** The characters of the text of a group, other than the bar and other
    than a blank. *)
Definition nobar (c : ascii) : bool := negb (Ascii.eqb c "|").
Definition nonspace (c : ascii) : bool := negb (is_space c).

(** A group of one comparator, or of two comparators with versions that
    is not of the shape of a caret range: [>=] then [<], the second major
    one above the first. *)
Definition plainGroup (g : group) : bool :=
  match g with
  | [ANY] => true
  | [Cmp _ v] => SemVer_wf v
  | [Cmp op v; Cmp op' w] =>
      SemVer_wf v && SemVer_wf w &&
      negb (Operator_eqb op OpGte && Operator_eqb op' OpLt && (major w =? major v + 1)%N)
  | _ => false
  end.

(** A group as [parseRange] of the package leaves it: a single
    comparator, or no [ANY] among several. *)
Definition tidy (g : group) : Prop :=
  (List.length g <= 1)%nat \/
  forallb (fun c => negb (NodeSemver.isAny c)) g = true.

(** The group lists that [sortRangeSet] and [humanizeRange] accept: no
    empty group and, among two or more, a version at the head of each. *)
Definition sortable (s : list group) : Prop :=
  Forall (fun g => g <> []) s /\
  ((List.length s <= 1)%nat \/ forallb keyed s = true).

(** [contains pat s]: the text [pat] occurs in [s]. *)
Definition contains (pat s : string) : Prop := exists a b, s = a ++ pat ++ b.

(** [key] names a property of an array of [n] items: the index of an item
    in decimal, [length], or a name that arrays inherit. *)
Definition Array_has {R : Runtime} (n : nat) (key : string) : Prop :=
  (exists i, (i < n)%nat /\ key = show (N.of_nat i)) \/
  key = "length" \/
  Array_inherits key = true.

(** [Map.prototype.get]. *)
Fixpoint Map_get {V : Type} (key : string) (m : JSMap V) : option V :=
  match m with
  | [] => None
  | (k, v) :: rest => if String.eqb k key then Some v else Map_get key rest
  end.

(** The keys of a map, in the order of its entries. *)
Definition Map_keys {V : Type} (m : JSMap V) : list string := map fst m.

(** The options of a command line: each argument after a blank. *)
Definition options (args : list string) : string :=
  fold_right (fun a s => " " ++ a ++ s) "" args.

(** A row of the table fits the column widths: each text with one blank
    on either side. *)
Definition fits (w : Widths) (row : Row) : Prop :=
  let '(w0, w1, w2, w3) := w in
  let '(engine, rangeFrom, arrow, rangeTo) := row in
  (String.length engine + 2 <= w0)%nat /\
  (String.length rangeFrom + 2 <= w1)%nat /\
  (arrowSeparator_length + 2 <= w2)%nat /\
  (String.length rangeTo + 2 <= w3)%nat.

(** A context for the examples: the engine names [node], [npm] and [yarn],
    a [package.json] that constrains [npm], and a lock file with two
    packages that constrain [node]. *)
Definition exampleKeys : list string := ["node"; "npm"; "yarn"].

Definition examplePackage : PackageJSON.PackageJSONSchema :=
  PackageJSON.mk (Some [("npm", ">=8.0.0")]) [("name", "demo")].

Definition exampleLock : PackageLockJSONSchema :=
  mkPackageLock (Some [dependency "foo" ">=12.22.0"; dependency "bar" ">=14.17.0"]).

Definition exampleContext (engines : option (list string)) : Ctx.CheckCommandContext :=
  Ctx.mk None "" engines true false false false
    (mkFileObject "package.json" (Some "package.json") (Some examplePackage))
    (mkFileObject "package-lock.json" (Some "package-lock.json") (Some exampleLock))
    None None.

Definition exampleRanges : JSMap EngineConstraintChange :=
  [("node", mkEngineConstraintChange (Some (parsed "*")) (Some (parsed ">=14.17.0")))].

(** A context for the engine [node], with a [package.json] without
    [engines] and a lock file whose only package declares the upper bound
    [<2.0.0]. *)
Definition upperBoundContext : Ctx.CheckCommandContext :=
  Ctx.mk None "" (Some ["node"]) true false false false
    (mkFileObject "package.json" (Some "package.json")
       (Some (PackageJSON.mk None [("name", "demo")])))
    (mkFileObject "package-lock.json" (Some "package-lock.json")
       (Some (mkPackageLock (Some [dependency "dep" "<2.0.0"]))))
    None None.

(** Stand-ins of the examples for the colouring, the table, the sorting of
    [package.json] and the relative path. *)
Definition plainText (s : string) : string := s.
Definition noTable (w : Widths) (rows : list Row) : string := "".
Definition unsorted (d : PackageJSON.PackageJSONSchema) : PackageJSON.PackageJSONSchema := d.
Definition samePath (path workingDir : string) : string := path.

(** A group whose first comparator carries a version of a major below that
    of [minVersion]. *)
Definition startsBelowMajor (minVersion : SemVer) (g : group) : bool :=
  match g with
  | Cmp _ v :: _ => (major v <? major minVersion)%N
  | _ => false
  end.

(** * Properties *)

(** ** The exception monad *)

Lemma bind_Ok_inv {A B : Type} (m : Outcome A) (k : A -> Outcome B) (b : B) :
  bind m k = Ok b -> exists a, m = Ok a /\ k a = Ok b.
Proof.
  destruct m as [a | e | ]; simpl; intros H; try discriminate.
  exists a; split; [reflexivity | exact H].
Qed.

Lemma bind_Throw_inv {A B : Type} (m : Outcome A) (k : A -> Outcome B) (e : Error) :
  bind m k = Throw e -> m = Throw e \/ exists a, m = Ok a /\ k a = Throw e.
Proof.
  destruct m as [a | e' | ]; simpl; intros H; try discriminate.
  - right; exists a; split; [reflexivity | exact H].
  - left; injection H as ->; reflexivity.
Qed.

Lemma foldM_app {A B : Type} (f : A -> B -> Outcome A) (l1 l2 : list B) (a : A) :
  foldM f a (l1 ++ l2)%list = bind (foldM f a l1) (fun a' => foldM f a' l2).
Proof.
  revert a; induction l1 as [| b l1 IH]; intros a; simpl.
  - reflexivity.
  - destruct (f a b) as [a' | e | ]; simpl; [apply IH | reflexivity | reflexivity].
Qed.

Ltac inv_bind H :=
  let a := fresh "a" in
  let Ha := fresh "Ha" in
  apply bind_Ok_inv in H; destruct H as [a [Ha H]].

(** ** The reducer, for every implementation of the [semver] operations *)

Section Reducer.

Context {L : SemverLib} {R : Runtime}.

Lemma restrictiveRange_O r1 r2 ignoredRanges :
  restrictiveRange 0 r1 r2 ignoredRanges = Diverge.
Proof. reflexivity. Qed.

Lemma restrictiveRange_S (fuel : nat) :
  restrictiveRange (S fuel) = restrictiveRangeBody (restrictiveRange fuel).
Proof. reflexivity. Qed.

Lemma restrictiveRange_subset_left fuel r1 r2 ignoredRanges :
  semver_subset r1 r2 = true ->
  restrictiveRange (S fuel) r1 r2 ignoredRanges
  = Ok (r1, (ignoredRanges ++ [raw r2])%list).
Proof.
  intros H; rewrite restrictiveRange_S; unfold restrictiveRangeBody.
  rewrite H; reflexivity.
Qed.

Lemma restrictiveRange_subset_right fuel r1 r2 ignoredRanges :
  semver_subset r1 r2 = false ->
  semver_subset r2 r1 = true ->
  restrictiveRange (S fuel) r1 r2 ignoredRanges
  = Ok (r2, (ignoredRanges ++ [raw r1])%list).
Proof.
  intros H1 H2; rewrite restrictiveRange_S; unfold restrictiveRangeBody.
  rewrite H1, H2; reflexivity.
Qed.

(** The reducer only appends to [ignoredRanges]. *)
Lemma restrictiveRange_appends fuel :
  forall r1 r2 ignoredRanges r ignoredRanges',
    restrictiveRange fuel r1 r2 ignoredRanges = Ok (r, ignoredRanges') ->
    exists extra, ignoredRanges' = (ignoredRanges ++ extra)%list.
Proof.
  induction fuel as [| fuel IH]; intros r1 r2 ign r ign' H.
  - rewrite restrictiveRange_O in H; discriminate.
  - rewrite restrictiveRange_S in H. unfold restrictiveRangeBody in H.
    destruct (semver_subset r1 r2).
    { injection H as <- <-; eexists; reflexivity. }
    destruct (semver_subset r2 r1).
    { injection H as <- <-; eexists; reflexivity. }
    inv_bind H. inv_bind H. inv_bind H. inv_bind H.
    destruct (negb (eq a a0)).
    + inv_bind H. inv_bind H. inv_bind H. inv_bind H.
      destruct (Range_intersects a4 a6); [| discriminate].
      eapply IH; eassumption.
    + destruct (firstDefined (hd_error a1) (hd_error a2)) as [minComp |];
        [| discriminate].
      inv_bind H. inv_bind H. inv_bind H.
      destruct a5 as [newRange ign1].
      inv_bind H. inv_bind H.
      injection H as <- <-.
      eapply IH; eassumption.
Qed.

Lemma constraintStep_appends fuel key st entry st' :
  constraintStep fuel key st entry = Ok st' ->
  exists extra, snd st' = (snd st ++ extra)%list.
Proof.
  destruct st as [mrr ign], entry as [name pkg]; unfold constraintStep.
  intros H.
  assert (Hsame : exists extra, ign = (ign ++ extra)%list)
    by (exists []; symmetry; apply app_nil_r).
  destruct (getConstraintFromEngines (engines pkg) key) as [[c | n |] |];
    [| injection H as <-; simpl; exact Hsame | injection H as <-; simpl; exact Hsame | injection H as <-; simpl; exact Hsame].
  destruct (String.eqb c ""); [injection H as <-; simpl; exact Hsame |].
  destruct (semver_validRange c) as [rv |]; [| injection H as <-; simpl; exact Hsame].
  destruct (existsb (String.eqb rv) ign); [injection H as <-; simpl; exact Hsame |].
  inv_bind H.
  destruct mrr as [m |]; [| injection H as <-; simpl; exact Hsame].
  inv_bind H. destruct a0 as [new ign1].
  apply restrictiveRange_appends in Ha0.
  destruct (negb (String.eqb (raw m) (raw new))); injection H as <-; simpl; exact Ha0.
Qed.

Lemma constraintLoop_appends fuel key packages :
  forall st st',
    constraintLoop fuel key st packages = Ok st' ->
    exists extra, snd st' = (snd st ++ extra)%list.
Proof.
  unfold constraintLoop.
  induction packages as [| entry packages IH]; intros st st' H; simpl in H.
  - injection H as <-; exists []; symmetry; apply app_nil_r.
  - inv_bind H.
    apply constraintStep_appends in Ha. destruct Ha as [e1 He1].
    apply IH in H. destruct H as [e2 He2].
    exists (e1 ++ e2)%list. rewrite He2, He1, app_assoc. reflexivity.
Qed.

(** [mrr] stays defined. *)
Lemma constraintStep_defined fuel key st entry st' :
  constraintStep fuel key st entry = Ok st' ->
  fst st <> None -> fst st' <> None.
Proof.
  destruct st as [mrr ign], entry as [name pkg]; unfold constraintStep.
  intros H Hdef.
  destruct (getConstraintFromEngines (engines pkg) key) as [[c | n |] |];
    [| injection H as <-; simpl; exact Hdef | injection H as <-; simpl; exact Hdef | injection H as <-; simpl; exact Hdef].
  destruct (String.eqb c ""); [injection H as <-; simpl; exact Hdef |].
  destruct (semver_validRange c) as [rv |]; [| injection H as <-; simpl; exact Hdef].
  destruct (existsb (String.eqb rv) ign); [injection H as <-; simpl; exact Hdef |].
  inv_bind H.
  destruct mrr as [m |]; [| injection H as <-; simpl; discriminate].
  inv_bind H. destruct a0 as [new ign1].
  destruct (negb (String.eqb (raw m) (raw new))); injection H as <-; simpl; discriminate.
Qed.

Lemma constraintLoop_defined fuel key packages :
  forall st st',
    constraintLoop fuel key st packages = Ok st' ->
    fst st <> None -> fst st' <> None.
Proof.
  unfold constraintLoop.
  induction packages as [| entry packages IH]; intros st st' H Hdef; simpl in H.
  - injection H as <-; simpl; exact Hdef.
  - inv_bind H. eapply IH; [exact H |].
    eapply constraintStep_defined; eassumption.
Qed.

Lemma constraintStep_skipped fuel key st entry :
  skipped key (snd st) entry = true ->
  constraintStep fuel key st entry = Ok st.
Proof.
  destruct st as [mrr ign], entry as [name pkg]; unfold skipped, constraintStep; simpl.
  destruct (getConstraintFromEngines (engines pkg) key) as [[c | n |] |]; [| reflexivity | reflexivity | reflexivity].
  destruct (String.eqb c ""); [reflexivity |]; simpl.
  destruct (semver_validRange c) as [rv |]; [| reflexivity].
  intros ->; reflexivity.
Qed.

End Reducer.

Arguments restrictiveRange : simpl never.
Arguments restrictiveRangeBody : simpl never.


(** ** Facts of the model of the [semver] package *)

Module NodeSemverFacts.
Import NodeSemver.

Lemma Identifier_eqb_refl i : Identifier_eqb i i = true.
Proof. destruct i; simpl; [apply N.eqb_refl | apply String.eqb_refl]. Qed.

Lemma list_eqb_refl {A : Type} (e : A -> A -> bool) :
  (forall a, e a a = true) -> forall l, list_eqb e l l = true.
Proof.
  intros He; induction l as [| a l IH]; simpl; [reflexivity |].
  rewrite He, IH; reflexivity.
Qed.

Lemma SemVer_eqb_refl v : SemVer_eqb v v = true.
Proof.
  unfold SemVer_eqb, sameTuple. rewrite !N.eqb_refl; simpl.
  apply list_eqb_refl, Identifier_eqb_refl.
Qed.

Lemma Comparator_eqb_refl c : Comparator_eqb c c = true.
Proof.
  destruct c as [| op v]; simpl; [reflexivity |].
  rewrite SemVer_eqb_refl; destruct op; reflexivity.
Qed.

Lemma simpleSubset_refl g : simpleSubset g g = Some true.
Proof.
  unfold simpleSubset, sameObject.
  rewrite (list_eqb_refl _ Comparator_eqb_refl); reflexivity.
Qed.

Lemma subsetOfSome_In g dom :
  forall saw, In g dom -> subsetOfSome g dom saw = (true, true).
Proof.
  induction dom as [| d dom IH]; intros saw Hin; [destruct Hin |].
  simpl. destruct (simpleSubset g d) as [[|] |] eqn:E.
  - reflexivity.
  - destruct Hin as [-> | Hin]; [rewrite simpleSubset_refl in E; discriminate |].
    apply IH, Hin.
  - destruct Hin as [-> | Hin]; [rewrite simpleSubset_refl in E; discriminate |].
    apply IH, Hin.
Qed.

Lemma subsetLoop_incl sub dom :
  forall saw, incl sub dom -> subsetLoop sub dom saw = true.
Proof.
  induction sub as [| g sub IH]; intros saw Hincl; simpl; [reflexivity |].
  rewrite subsetOfSome_In by (apply Hincl; left; reflexivity).
  apply IH. intros x Hx; apply Hincl; right; exact Hx.
Qed.

(** A range is a subset of itself. *)
Lemma subset_refl r : subset r r = true.
Proof. unfold subset; apply subsetLoop_incl, incl_refl. Qed.

(** The [raw] field of a range is the text it was built from. *)
Lemma Range_new_raw text r : Range_new text = Some r -> raw r = text.
Proof.
  unfold Range_new, obind.
  destruct (mapO parseRange (splitBars text)) as [groups |]; [| discriminate].
  destruct (filter _ groups); [discriminate |].
  intros [= <-]; reflexivity.
Qed.

End NodeSemverFacts.

(** ** Checks of the model against the package and the repository

    The subset test of the model on cases of the package's own test suite
    ([test/ranges/subset.js]), with the sugar written out. *)

Example subset_fixtures :
  NodeSemver.subset (parsed "1.2.3") (parsed "*") = true /\
  NodeSemver.subset (parsed ">=1.2.3-pre.0 <2.0.0-0") (parsed "*") = false /\
  NodeSemver.subset (parsed ">=1.2.3-pre.0 <2.0.0-0") (parsed ">=1.0.0") = false /\
  NodeSemver.subset (parsed ">=1.2.3-pre.0 <2.0.0-0") (parsed ">=1.2.3-pre.0") = true /\
  NodeSemver.subset (parsed ">1.2.3-pre.0") (parsed ">=1.2.3-pre.0") = true /\
  NodeSemver.subset (parsed "<1.2.3-pre.0") (parsed "<=1.2.3-pre.0") = true /\
  NodeSemver.subset (parsed "1.2.3 1.2.4") (parsed "1.2.9") = true /\
  NodeSemver.subset (parsed ">=1.0.0 <2.0.0") (parsed "<2.0.0") = true /\
  NodeSemver.subset (parsed ">=1.0.0 <2.0.0") (parsed ">0.0.0") = true /\
  NodeSemver.subset (parsed ">=1.0.0 <=1.0.0") (parsed "1.0.0") = true /\
  NodeSemver.subset (parsed ">=1.0.0 <=1.0.0") (parsed "2.0.0") = false /\
  NodeSemver.subset (parsed "<2.0.0") (parsed ">=1.0.0 <2.0.0") = false /\
  NodeSemver.subset (parsed ">=1.0.0") (parsed ">=1.0.0 <2.0.0") = false /\
  NodeSemver.subset (parsed ">=1.0.0 <2.0.0") (parsed ">1.0.0") = false /\
  NodeSemver.subset (parsed ">=1.0.0 <=2.0.0") (parsed "<2.0.0") = false /\
  NodeSemver.subset (parsed "<=1.0.0 >1.0.0") (parsed ">1.0.0") = true /\
  NodeSemver.subset (parsed "1.0.0 <1.0.0") (parsed ">1.0.0") = true.
Proof. repeat split; vm_compute; reflexivity. Qed.

(** The tests of [restrictiveRange], [humanizeRange] and
    [computeEnginesConstraints] in the test suite of the repository, with
    the carets of their inputs written out. *)

Example test_sort_range :
  sortRangeSet (set (parsed ">=16.10.0 <17.0.0-0||>=14.17.0 <15.0.0-0"))
  = Ok (set (parsed ">=14.17.0 <15.0.0-0||>=16.10.0 <17.0.0-0")).
Proof. vm_compute; reflexivity. Qed.

Example test_r1_subset_of_r2 :
  restrictiveRange (L := node_semver) 1
    (parsed ">=14.17.0 <15.0.0-0||>=16.10.0 <17.0.0-0")
    (parsed ">=14.0.0 <15.0.0-0||>=16.0.0 <17.0.0-0") []
  = Ok (parsed ">=14.17.0 <15.0.0-0||>=16.10.0 <17.0.0-0",
        [">=14.0.0 <15.0.0-0||>=16.0.0 <17.0.0-0"]).
Proof. vm_compute; reflexivity. Qed.

Example test_using_min_version :
  option_map fst (match restrictiveRange (L := node_semver) 4
                          (parsed ">=14.13.0 <15.0.0-0||>=16.10.0 <17.0.0-0")
                          (parsed ">=12.22.0 <13.0.0-0||>=14.17.0 <15.0.0-0||>=16.0.0 <17.0.0-0")
                          [] with
                  | Ok x => Some x
                  | _ => None
                  end)
  = Some (parsed ">=14.17.0 <15.0.0-0||>=16.10.0 <17.0.0-0") /\
  option_map fst (match restrictiveRange (L := node_semver) 4
                          (parsed ">=12.22.0 <13.0.0-0||>=14.17.0 <15.0.0-0")
                          (parsed ">=14.13.0 <15.0.0-0||>=16.10.0 <17.0.0-0")
                          [] with
                  | Ok x => Some x
                  | _ => None
                  end)
  = Some (parsed ">=14.17.0 <15.0.0-0") /\
  option_map fst (match restrictiveRange (L := node_semver) 4
                          (parsed ">=12.22.0")
                          (parsed ">=12.13.0 <13.0.0-0||>=14.15.0 <15.0.0-0||>=16.10.0 <17.0.0-0||>=17.0.0")
                          [] with
                  | Ok x => Some x
                  | _ => None
                  end)
  = Some (parsed ">=12.22.0 <13.0.0-0||>=14.15.0 <15.0.0-0||>=16.10.0 <17.0.0-0||>=17.0.0").
Proof. repeat split; vm_compute; reflexivity. Qed.

Example test_mixed_and_middle :
  option_map fst (match restrictiveRange (L := node_semver) 4
                          (parsed ">=14.13.0 <15.0.0-0||>=16.10.0 <17.0.0-0")
                          (parsed ">=12.22.0 <13.0.0-0||>=14.17.0")
                          [] with
                  | Ok x => Some x
                  | _ => None
                  end)
  = Some (parsed ">=14.17.0 <15.0.0-0||>=16.10.0 <17.0.0-0") /\
  option_map fst (match restrictiveRange (L := node_semver) 4
                          (parsed ">=14.15.0 <15.0.0-0||>=16.10.0")
                          (parsed ">=14.15.0 <15.0.0-0||>=16.0.0 <17.0.0-0||>=17.0.0 <18.0.0-0||>=18.0.0 <19.0.0-0")
                          [] with
                  | Ok x => Some x
                  | _ => None
                  end)
  = Some (parsed ">=14.15.0 <15.0.0-0||>=16.10.0 <17.0.0-0||>=17.0.0 <18.0.0-0||>=18.0.0 <19.0.0-0").
Proof. repeat split; vm_compute; reflexivity. Qed.

Example test_humanize :
  humanizeRange None = Ok "*" /\
  humanizeRange (Some (parsed "*")) = Ok "*" /\
  humanizeRange (Some (parsed ">=14.17.0 <15.0.0-0||>=16.10.0 <17.0.0-0"))
  = Ok "^14.17.0 || ^16.10.0" /\
  humanizeRange (Some (parsed ">=14.17.0 <15.0.0-0||>=16.10.0"))
  = Ok "^14.17.0 || >=16.10.0" /\
  humanizeRange (Some (parsed ">14.17.0")) = Ok ">14.17.0" /\
  humanizeRange (Some (parsed "14.17.0")) = Ok "14.17.0".
Proof. repeat split; vm_compute; reflexivity. Qed.

Example test_compute_engines_constraint :
  computeEnginesConstraint (L := node_semver) 1
    [("foo", mkLockPackage (EnginesObject [("node", ">=12.22.0")]))] "node"
  = Ok (Some (parsed ">=12.22.0")) /\
  computeEnginesConstraint (L := node_semver) 1
    [("foo", mkLockPackage (EnginesArray ["node >=12.22.0"]))] "node"
  = Ok (Some (parsed ">=12.22.0")) /\
  computeEnginesConstraint (L := node_semver) 1
    [dependency "foo" ">=12.22.0"; dependency "bar" ">=14.17.0";
     dependency "lorem" ">=12.22.0"; dependency "ipsum" ">=14.17.0"] "node"
  = Ok (Some (parsed ">=14.17.0")) /\
  computeEnginesConstraint (L := node_semver) 1
    [("", mkLockPackage (EnginesObject []))] "node"
  = Ok (Some (parsed "*")).
Proof. repeat split; vm_compute; reflexivity. Qed.

(** ** C8: the universal range is rendered as a star *)

(** C8 fails.  [humanizeRange] returns [*] for the absent argument and for
    a range whose raw text is [*].  A universal range of another raw text
    is rendered through its one comparator [ANY], as the empty text.  The
    package builds such ranges from the texts [""] and ["||"], and
    [computeEnginesConstraint] returns one: for a single dependency that
    declares [<2.0.0] its result is the range of raw text [||], which
    contains the versions that [*] contains.  The check command then takes
    the empty text for a change of the range [*] and writes it to
    [package.json] as the constraint of the engine. *)
Theorem humanizeRange_universal_empty :
  humanizeRange None = Ok "*" /\
  (forall r : Range, raw r = "*" -> humanizeRange (Some r) = Ok "*") /\
  (forall r : Range,
      set r = [[ANY]] -> raw r <> "*" ->
      (forall v, NodeSemver.Range_test r v = NodeSemver.Range_test (parsed "*") v) /\
      humanizeRange (Some r) = Ok "") /\
  NodeSemver.Range_new "" = Some (mkRange "" [[ANY]]) /\
  humanizeRange (Some (mkRange "" [[ANY]])) = Ok "" /\
  computeEnginesConstraint (L := node_semver) 2 [dependency "dep" "<2.0.0"] "node"
  = Ok (Some (mkRange "||" [[ANY]])) /\
  humanizeRange (Some (mkRange "||" [[ANY]])) = Ok "" /\
  andThen (computeEnginesConstraints (L := node_semver) exampleKeys 2 upperBoundContext)
    (fun ctx1 =>
       andThen (outputComputedConstraints samePath plainText plainText noTable ctx1)
         (fun '(ctx2, _) =>
            andThen (updatePackageJson unsorted ctx2)
              (fun '(_, written) => Done (Ctx.rangesSimplified ctx2, written))))
  = Done (Some [("node", "")],
          ("package.json", PackageJSON.mk (Some [("node", "")]) [("name", "demo")])).
Proof.
  split; [reflexivity |]. split.
  { intros r Hraw. unfold humanizeRange. rewrite Hraw. reflexivity. }
  split.
  { intros r Hset Hraw. split.
    - intros v. unfold NodeSemver.Range_test. rewrite Hset. reflexivity.
    - unfold humanizeRange.
      assert (E : String.eqb "*" (raw r) = false).
      { apply String.eqb_neq. congruence. }
      rewrite E, Hset. reflexivity. }
  repeat split; vm_compute; reflexivity.
Qed.

(** ** C9: invalid constraints are skipped *)

(** C9.  An entry whose constraint text is not a valid range leaves the
    state of the aggregation unchanged and raises nothing: the aggregation
    of a sequence with the entry equals that of the sequence without it.
    In particular the sequence [>=12.22.0], [>=a.b.c], [>=14.17.0] yields
    the range [>=14.17.0]. *)
Theorem invalid_constraint_skipped :
  (forall (L : SemverLib) (R : Runtime) (fuel : nat) (key : string)
          (pre post : list (string * LockPackage))
          (name : string) (pkg : LockPackage) (constraint : string),
      getConstraintFromEngines (engines pkg) key = Some (Text constraint) ->
      semver_validRange constraint = None ->
      (forall st, constraintStep fuel key st (name, pkg) = Ok st) /\
      computeEnginesConstraint fuel (pre ++ (name, pkg) :: post)%list key
      = computeEnginesConstraint fuel (pre ++ post)%list key) /\
  (NodeSemver.validRange ">=a.b.c" = None /\
   computeEnginesConstraint (L := node_semver) 1
     [dependency "foo" ">=12.22.0"; dependency "bar" ">=a.b.c";
      dependency "lorem" ">=14.17.0"] "node"
   = Ok (Some (parsed ">=14.17.0")) /\
   raw (parsed ">=14.17.0") = ">=14.17.0").
Proof.
  split.
  - intros L R fuel key pre post name pkg c Hc Hv.
    assert (Hstep : forall st, constraintStep fuel key st (name, pkg) = Ok st).
    { intros st; apply constraintStep_skipped.
      unfold skipped; simpl. rewrite Hc, Hv. apply orb_true_r. }
    split; [exact Hstep |].
    unfold computeEnginesConstraint, constraintLoop.
    destruct initialState as [st0 | e | ]; simpl; try reflexivity.
    rewrite !foldM_app.
    destruct (foldM (constraintStep fuel key) st0 pre) as [st | e | ]; simpl;
      try reflexivity.
    rewrite Hstep; reflexivity.
  - repeat split; vm_compute; reflexivity.
Qed.

Lemma invalid_constraint_skipped_witness :
  computeEnginesConstraint (L := node_semver) 1
    ([dependency "foo" ">=12.22.0"] ++
     dependency "bar" ">=a.b.c" :: [dependency "lorem" ">=14.17.0"])%list "node"
  = computeEnginesConstraint (L := node_semver) 1
      ([dependency "foo" ">=12.22.0"] ++ [dependency "lorem" ">=14.17.0"])%list "node".
Proof.
  apply (proj1 invalid_constraint_skipped node_semver node_runtime 1 "node"
           [dependency "foo" ">=12.22.0"] [dependency "lorem" ">=14.17.0"]
           "bar" (mkLockPackage (EnginesObject [("node", ">=a.b.c")])) ">=a.b.c").
  - reflexivity.
  - vm_compute; reflexivity.
Defined.

(** ** C3: monotonicity of the aggregation *)

(** C3 (defect of the code).  After [^1.0.0 || ^3.0.0], adding the
    dependency [^1.0.0 || ^4.0.0] turns the result into
    [^1.0.0 || ^4.0.0], which is not a subset of the former result:
    version 4.5.0 is in the new result and not in the old one.  On the
    remainders [^3.0.0] and [^4.0.0] the alignment to 4.0.0 empties the
    first group list, [setToRange] rebuilds the empty list as the
    universal range, and [^4.0.0] is returned as its subset. *)
Theorem adding_dependency_widens :
  computeEnginesConstraint (L := node_semver) 4
    [dependency "a" ">=1.0.0 <2.0.0-0||>=3.0.0 <4.0.0-0"] "node"
  = Ok (Some (parsed ">=1.0.0 <2.0.0-0||>=3.0.0 <4.0.0-0")) /\
  computeEnginesConstraint (L := node_semver) 4
    [dependency "a" ">=1.0.0 <2.0.0-0||>=3.0.0 <4.0.0-0";
     dependency "b" ">=1.0.0 <2.0.0-0||>=4.0.0 <5.0.0-0"] "node"
  = Ok (Some (parsed ">=1.0.0 <2.0.0-0||>=4.0.0 <5.0.0-0")) /\
  NodeSemver.subset (parsed ">=1.0.0 <2.0.0-0||>=4.0.0 <5.0.0-0")
                    (parsed ">=1.0.0 <2.0.0-0||>=3.0.0 <4.0.0-0") = false /\
  NodeSemver.Range_test (parsed ">=1.0.0 <2.0.0-0||>=4.0.0 <5.0.0-0")
                        (mkSemVer 4 5 0 []) = true /\
  NodeSemver.Range_test (parsed ">=1.0.0 <2.0.0-0||>=3.0.0 <4.0.0-0")
                        (mkSemVer 4 5 0 []) = false.
Proof. repeat split; vm_compute; reflexivity. Qed.

(** Where the reducer settles an added range by its subset short-circuit,
    that is when the accumulated range and the added one are comparable by
    [semver.subset], adding the dependency does not widen the result: the
    new result is the accumulated range itself or a subset of it. *)
Theorem aggregation_monotone_on_short_circuit :
  forall (L : SemverLib) (R : Runtime) (fuel : nat) (key : string)
         (packages : list (string * LockPackage)) (entry : string * LockPackage)
         (acc acc' : Range),
    computeEnginesConstraint (S fuel) packages key = Ok (Some acc) ->
    computeEnginesConstraint (S fuel) (packages ++ [entry])%list key = Ok (Some acc') ->
    (forall c rv range,
        getConstraintFromEngines (engines (snd entry)) key = Some (Text c) ->
        semver_validRange c = Some rv ->
        Range_new rv = Some range ->
        semver_subset acc range = true \/ semver_subset range acc = true) ->
    acc' = acc \/ semver_subset acc' acc = true.
Proof.
  intros L R fuel key packages entry acc acc' H1 H2 Hcmp.
  unfold computeEnginesConstraint, constraintLoop in H1, H2.
  destruct initialState as [st0 | e | ]; simpl in H1, H2; try discriminate.
  rewrite foldM_app in H2.
  destruct (foldM (constraintStep (S fuel) key) st0 packages) as [[mrr ign] | e | ];
    simpl in H1, H2; try discriminate.
  injection H1 as ->.
  inv_bind H2. injection H2 as H2.
  inv_bind Ha. injection Ha as <-.
  destruct entry as [name pkg]; simpl in Hcmp.
  unfold constraintStep in Ha0.
  destruct (getConstraintFromEngines (engines pkg) key) as [[c | n |] |];
    [| injection Ha0 as <-; simpl in H2; injection H2 as <-; left; reflexivity | injection Ha0 as <-; simpl in H2; injection H2 as <-; left; reflexivity | injection Ha0 as <-; simpl in H2; injection H2 as <-; left; reflexivity].
  destruct (String.eqb c "");
    [injection Ha0 as <-; simpl in H2; injection H2 as <-; left; reflexivity |].
  destruct (semver_validRange c) as [rv |] eqn:Hv;
    [| injection Ha0 as <-; simpl in H2; injection H2 as <-; left; reflexivity].
  destruct (existsb (String.eqb rv) ign);
    [injection Ha0 as <-; simpl in H2; injection H2 as <-; left; reflexivity |].
  destruct (Range_new rv) as [range |] eqn:Hr; simpl in Ha0; [| discriminate].
  specialize (Hcmp c rv range eq_refl Hv Hr).
  destruct (semver_subset acc range) eqn:S1.
  - rewrite restrictiveRange_subset_left in Ha0 by exact S1. simpl in Ha0.
    rewrite String.eqb_refl in Ha0. simpl in Ha0.
    injection Ha0 as <-; simpl in H2; injection H2 as <-; left; reflexivity.
  - destruct Hcmp as [Hcmp | Hcmp]; [discriminate |].
    rewrite restrictiveRange_subset_right in Ha0 by assumption. simpl in Ha0.
    destruct (negb (String.eqb (raw acc) (raw range)));
      injection Ha0 as <-; simpl in H2; injection H2 as <-.
    + right; exact Hcmp.
    + left; reflexivity.
Qed.

Lemma aggregation_monotone_on_short_circuit_witness :
  parsed ">=14.17.0" = parsed ">=12.22.0" \/
  NodeSemver.subset (parsed ">=14.17.0") (parsed ">=12.22.0") = true.
Proof.
  apply (aggregation_monotone_on_short_circuit node_semver node_runtime 0 "node"
           [dependency "foo" ">=12.22.0"] (dependency "bar" ">=14.17.0")).
  - vm_compute; reflexivity.
  - vm_compute; reflexivity.
  - intros c rv range H1 H2 H3.
    vm_compute in H1; injection H1 as <-.
    vm_compute in H2; injection H2 as <-.
    vm_compute in H3; injection H3 as <-.
    right; vm_compute; reflexivity.
Defined.

(** ** C10: the start of the aggregation *)

(** On the universal range and [^1.2.3-pre.0], written
    [>=1.2.3-pre.0 <2.0.0-0], neither range passes [semver.subset] against
    the other (a range with a prerelease bound is not a subset of [*]), and
    the minimum versions 0.0.0 and 1.2.3-pre.0 differ.  The alignment drops
    the group [ANY], [setToRange] rebuilds the empty list as the universal
    range of raw text [""], and the call recurses on that range and the
    unchanged second one, where the same happens again. *)
Lemma restrictiveRangeBody_prerelease_first
  (self : Range -> Range -> list string -> Outcome (Range * list string))
  (ignoredRanges : list string) :
  restrictiveRangeBody (L := node_semver) self
    (parsed "*") (parsed ">=1.2.3-pre.0 <2.0.0-0") ignoredRanges
  = self (parsed "") (parsed ">=1.2.3-pre.0 <2.0.0-0") ignoredRanges.
Proof. vm_compute; reflexivity. Qed.

Lemma restrictiveRangeBody_prerelease_again
  (self : Range -> Range -> list string -> Outcome (Range * list string))
  (ignoredRanges : list string) :
  restrictiveRangeBody (L := node_semver) self
    (parsed "") (parsed ">=1.2.3-pre.0 <2.0.0-0") ignoredRanges
  = self (parsed "") (parsed ">=1.2.3-pre.0 <2.0.0-0") ignoredRanges.
Proof. vm_compute; reflexivity. Qed.

Lemma restrictiveRange_prerelease_never_returns (fuel : nat) :
  restrictiveRange (L := node_semver) fuel
    (parsed "*") (parsed ">=1.2.3-pre.0 <2.0.0-0") []
  = Diverge.
Proof.
  assert (H : forall n, restrictiveRange (L := node_semver) n
                          (parsed "") (parsed ">=1.2.3-pre.0 <2.0.0-0") []
                        = Diverge).
  { induction n as [| n IH]; [reflexivity |].
    rewrite restrictiveRange_S, restrictiveRangeBody_prerelease_again. exact IH. }
  destruct fuel as [| fuel]; [reflexivity |].
  rewrite restrictiveRange_S, restrictiveRangeBody_prerelease_first. apply H.
Qed.

(** C10 fails as stated: the first usable constraint [^1.2.3-pre.0],
    validated as [>=1.2.3-pre.0 <2.0.0-0], is not adopted by the subset
    short-circuit.  Neither it nor the initial [*] passes [semver.subset]
    against the other, nothing is appended to [ignoredRanges], and the
    aggregation does not return. *)
Lemma first_constraint_not_adopted :
  initialState (L := node_semver) = Ok (Some (parsed "*"), []) /\
  NodeSemver.validRange ">=1.2.3-pre.0 <2.0.0-0" = Some ">=1.2.3-pre.0 <2.0.0-0" /\
  NodeSemver.subset (parsed "*") (parsed ">=1.2.3-pre.0 <2.0.0-0") = false /\
  NodeSemver.subset (parsed ">=1.2.3-pre.0 <2.0.0-0") (parsed "*") = false /\
  forall fuel : nat,
    computeEnginesConstraint (L := node_semver) fuel
      [dependency "dep" ">=1.2.3-pre.0 <2.0.0-0"] "node"
    = Diverge.
Proof.
  do 4 (split; [vm_compute; reflexivity |]).
  intros fuel.
  change (computeEnginesConstraint (L := node_semver) fuel
            [dependency "dep" ">=1.2.3-pre.0 <2.0.0-0"] "node")
    with (st <- (st1 <- (x <- restrictiveRange (L := node_semver) fuel
                               (parsed "*") (parsed ">=1.2.3-pre.0 <2.0.0-0") [] ;;
                         (let (newRestrictiveRange, ignoredRanges') := x in
                          if negb (String.eqb (raw (parsed "*")) (raw newRestrictiveRange))
                          then Ok (Some newRestrictiveRange, ignoredRanges')
                          else Ok (Some (parsed "*"), ignoredRanges')) : Outcome LoopState) ;;
                 Ok st1) ;;
          Ok (fst st)).
  rewrite restrictiveRange_prerelease_never_returns. reflexivity.
Qed.

(** An upper bound alone fares no better: [<2.0.0] is not a subset of [*]
    for [semver.subset] either; the reducer returns the universal range
    under the raw text [||] and records the empty text. *)
Lemma upper_bound_first_constraint :
  NodeSemver.subset (parsed "*") (parsed "<2.0.0") = false /\
  NodeSemver.subset (parsed "<2.0.0") (parsed "*") = false /\
  constraintLoop (L := node_semver) 2 "node" (Some (parsed "*"), [])
    [dependency "dep" "<2.0.0"]
  = Ok (Some (mkRange "||" [[ANY]]), [""]) /\
  skipped (L := node_semver) "node" [""] (dependency "other" "*") = false.
Proof. repeat split; vm_compute; reflexivity. Qed.

(** C10, amended.  The accumulator starts as the range of raw text [*]
    with an empty [ignoredRanges], and is defined after every iteration, so
    the branch that adopts a constraint into an undefined accumulator is
    never taken.  A usable constraint that [semver.subset] places inside an
    accumulator of raw text [*], and not conversely, is adopted by the
    short-circuit, which appends [*] to [ignoredRanges].  Once [*] is in
    [ignoredRanges] it stays there, and every later entry whose validated
    text is [*] is skipped. *)
Theorem aggregation_start_invariant :
  (initialState (L := node_semver) = Ok (Some (parsed "*"), []) /\
   raw (parsed "*") = "*") /\
  forall (L : SemverLib) (R : Runtime) (fuel : nat) (key : string),
    (forall st0 packages st,
        initialState = Ok st0 ->
        constraintLoop fuel key st0 packages = Ok st ->
        fst st0 <> None /\ snd st0 = [] /\ fst st <> None) /\
    (forall mrr ignoredRanges name pkg c rv range,
        getConstraintFromEngines (engines pkg) key = Some (Text c) ->
        String.eqb c "" = false ->
        semver_validRange c = Some rv ->
        existsb (String.eqb rv) ignoredRanges = false ->
        Range_new rv = Some range ->
        raw mrr = "*" ->
        semver_subset mrr range = false ->
        semver_subset range mrr = true ->
        constraintStep (S fuel) key (Some mrr, ignoredRanges) (name, pkg)
        = Ok (Some (if String.eqb "*" (raw range) then mrr else range),
              (ignoredRanges ++ ["*"])%list)) /\
    (forall packages st st',
        In "*" (snd st) ->
        constraintLoop fuel key st packages = Ok st' ->
        In "*" (snd st')) /\
    (forall st name pkg c,
        In "*" (snd st) ->
        getConstraintFromEngines (engines pkg) key = Some (Text c) ->
        semver_validRange c = Some "*" ->
        constraintStep fuel key st (name, pkg) = Ok st).
Proof.
  split; [split; vm_compute; reflexivity |].
  intros L R fuel key. repeat split.
  - unfold initialState in H. inv_bind H. injection H as <-. simpl; discriminate.
  - unfold initialState in H. inv_bind H. injection H as <-. reflexivity.
  - eapply constraintLoop_defined; [eassumption |].
    unfold initialState in H. inv_bind H. injection H as <-. simpl; discriminate.
  - intros mrr ign name pkg c rv range Hc Hne Hv Hign Hr Hraw S1 S2.
    unfold constraintStep. rewrite Hc, Hne, Hv, Hign, Hr. cbn [orThrow bind].
    rewrite restrictiveRange_subset_right by assumption. cbn [bind].
    rewrite Hraw. destruct (String.eqb "*" (raw range)); reflexivity.
  - intros packages st st' Hin Hloop.
    apply constraintLoop_appends in Hloop. destruct Hloop as [extra ->].
    apply in_or_app; left; exact Hin.
  - intros st name pkg c Hin Hc Hv.
    apply constraintStep_skipped. unfold skipped; simpl. rewrite Hc, Hv.
    apply orb_true_iff; right.
    apply existsb_exists. exists "*"; split; [exact Hin | apply String.eqb_refl].
Qed.

Lemma aggregation_start_invariant_witness :
  constraintStep (L := node_semver) 1 "node" (Some (parsed "*"), [])
    (dependency "foo" ">=12.22.0")
  = Ok (Some (parsed ">=12.22.0"), ["*"]).
Proof.
  apply (proj1 (proj2 (proj2 aggregation_start_invariant node_semver node_runtime 0 "node"))
           (parsed "*") [] "foo"
           (mkLockPackage (EnginesObject [("node", ">=12.22.0")]))
           ">=12.22.0" ">=12.22.0" (parsed ">=12.22.0"));
    vm_compute; reflexivity.
Defined.

(** ** C2: when the reducer raises its error *)

Section Raises.

Context {L : SemverLib} {R : Runtime}.

Lemma orThrow_noUnimplemented {A : Type} (o : option A) : noUnimplemented (orThrow o).
Proof. destruct o; simpl; intros H; discriminate. Qed.

Lemma bind_noUnimplemented {A B : Type} (m : Outcome A) (k : A -> Outcome B) :
  noUnimplemented m -> (forall a, noUnimplemented (k a)) -> noUnimplemented (bind m k).
Proof.
  unfold noUnimplemented; intros Hm Hk H.
  apply bind_Throw_inv in H. destruct H as [H | [a [_ H]]]; [exact (Hm H) |].
  exact (Hk a H).
Qed.

Lemma mapM_noUnimplemented {A B : Type} (f : A -> Outcome B) (l : list A) :
  (forall a, noUnimplemented (f a)) -> noUnimplemented (mapM f l).
Proof.
  intros Hf; induction l as [| a l IH]; simpl; [intros H; discriminate |].
  apply bind_noUnimplemented; [apply Hf | intros b].
  apply bind_noUnimplemented; [exact IH | intros bs H; discriminate].
Qed.

Lemma filterM_noUnimplemented {A : Type} (f : A -> Outcome bool) (l : list A) :
  (forall a, noUnimplemented (f a)) -> noUnimplemented (filterM f l).
Proof.
  intros Hf; induction l as [| a l IH]; simpl; [intros H; discriminate |].
  apply bind_noUnimplemented; [apply Hf | intros b].
  apply bind_noUnimplemented; [exact IH | intros bs H; discriminate].
Qed.

Lemma minVersionOrStar_noUnimplemented r : noUnimplemented (minVersionOrStar r).
Proof.
  unfold minVersionOrStar. destruct (semver_minVersion r).
  - intros H; discriminate.
  - apply orThrow_noUnimplemented.
Qed.

Lemma sortRangeSet_noUnimplemented s : noUnimplemented (sortRangeSet s).
Proof.
  unfold sortRangeSet. destruct s as [| g [| g' s]]; try (intros H; discriminate).
  destruct (forallb _ _); intros H; discriminate.
Qed.

Lemma setToRange_noUnimplemented s : noUnimplemented (setToRange s).
Proof. apply orThrow_noUnimplemented. Qed.

Lemma applyMinVersionToRangeSet_noUnimplemented s m :
  noUnimplemented (applyMinVersionToRangeSet s m).
Proof.
  unfold applyMinVersionToRangeSet.
  apply bind_noUnimplemented.
  - apply filterM_noUnimplemented. intros c; unfold keepsGroup.
    destruct c as [| c0 c]; [intros H; discriminate |].
    destruct (semver c0); intros H; discriminate.
  - intros kept. apply mapM_noUnimplemented. intros c; unfold alignGroup.
    destruct c as [| c0 c]; [intros H; discriminate |].
    destruct (semver c0); [| intros H; discriminate].
    destruct (_ && _); [| intros H; discriminate].
    apply bind_noUnimplemented; [apply orThrow_noUnimplemented |].
    intros a H; discriminate.
Qed.

(** What one call of the reducer does when neither range is a subset of
    the other and the four preparations succeed. *)
Lemma restrictiveRangeBody_prepared self r1 r2 ign m1 m2 s1 s2 :
  semver_subset r1 r2 = false ->
  semver_subset r2 r1 = false ->
  minVersionOrStar r1 = Ok m1 ->
  minVersionOrStar r2 = Ok m2 ->
  sortRangeSet (set r1) = Ok s1 ->
  sortRangeSet (set r2) = Ok s2 ->
  restrictiveRangeBody self r1 r2 ign =
  if negb (eq m1 m2) then
    aligned1 <- applyMinVersionToRangeSet s1 (floor m1 m2) ;;
    newR1 <- setToRange aligned1 ;;
    aligned2 <- applyMinVersionToRangeSet s2 (floor m1 m2) ;;
    newR2 <- setToRange aligned2 ;;
    if Range_intersects newR1 newR2 then self newR1 newR2 ign
    else Throw NotYetImplemented
  else
    match firstDefined (hd_error s1) (hd_error s2) with
    | None => Throw NotYetImplemented
    | Some minComp =>
        newR1 <- setToRange (tl s1) ;;
        newR2 <- setToRange (tl s2) ;;
        ' (newRange, ign') <- self newR1 newR2 ign ;;
        rest <- sortRangeSet (set newRange) ;;
        result <- setToRange (minComp :: rest) ;;
        Ok (result, ign')
    end.
Proof.
  intros H1 H2 H3 H4 H5 H6. unfold restrictiveRangeBody.
  rewrite H1, H2, H3, H4, H5, H6. reflexivity.
Qed.

Lemma restrictiveRangeBody_raises_inv self r1 r2 ign :
  restrictiveRangeBody self r1 r2 ign = Throw NotYetImplemented ->
  semver_subset r1 r2 = false /\ semver_subset r2 r1 = false /\
  exists m1 m2 s1 s2,
    minVersionOrStar r1 = Ok m1 /\ minVersionOrStar r2 = Ok m2 /\
    sortRangeSet (set r1) = Ok s1 /\ sortRangeSet (set r2) = Ok s2.
Proof.
  unfold restrictiveRangeBody. intros H.
  destruct (semver_subset r1 r2); [discriminate |].
  destruct (semver_subset r2 r1); [discriminate |].
  do 2 (split; [reflexivity |]).
  destruct (minVersionOrStar r1) as [m1 | e | ] eqn:E1; simpl in H;
    [| exfalso; apply (minVersionOrStar_noUnimplemented r1); congruence | discriminate].
  destruct (minVersionOrStar r2) as [m2 | e | ] eqn:E2; simpl in H;
    [| exfalso; apply (minVersionOrStar_noUnimplemented r2); congruence | discriminate].
  destruct (sortRangeSet (set r1)) as [s1 | e | ] eqn:E3; simpl in H;
    [| exfalso; apply (sortRangeSet_noUnimplemented (set r1)); congruence | discriminate].
  destruct (sortRangeSet (set r2)) as [s2 | e | ] eqn:E4; simpl in H;
    [| exfalso; apply (sortRangeSet_noUnimplemented (set r2)); congruence | discriminate].
  exists m1, m2, s1, s2. repeat split; reflexivity.
Qed.

End Raises.

(** C2 fails as stated: the error also comes up from a recursive call.
    [^1.0.0 || >=3.0.0 <3.1.0] and [^1.0.0 || >=3.2.0 <4.0.0] have the
    same minimum version and non-empty group lists, and the call raises,
    because the call on the two remainders does. *)
Lemma error_from_recursive_call :
  NodeSemver.minVersion (parsed ">=1.0.0 <2.0.0-0||>=3.0.0 <3.1.0")
  = Some (mkSemVer 1 0 0 []) /\
  NodeSemver.minVersion (parsed ">=1.0.0 <2.0.0-0||>=3.2.0 <4.0.0")
  = Some (mkSemVer 1 0 0 []) /\
  sortRangeSet (set (parsed ">=1.0.0 <2.0.0-0||>=3.0.0 <3.1.0"))
  = Ok (set (parsed ">=1.0.0 <2.0.0-0||>=3.0.0 <3.1.0")) /\
  sortRangeSet (set (parsed ">=1.0.0 <2.0.0-0||>=3.2.0 <4.0.0"))
  = Ok (set (parsed ">=1.0.0 <2.0.0-0||>=3.2.0 <4.0.0")) /\
  List.length (set (parsed ">=1.0.0 <2.0.0-0||>=3.0.0 <3.1.0")) = 2 /\
  List.length (set (parsed ">=1.0.0 <2.0.0-0||>=3.2.0 <4.0.0")) = 2 /\
  restrictiveRange (L := node_semver) 2
    (parsed ">=1.0.0 <2.0.0-0||>=3.0.0 <3.1.0")
    (parsed ">=1.0.0 <2.0.0-0||>=3.2.0 <4.0.0") []
  = Throw NotYetImplemented.
Proof. repeat split; vm_compute; reflexivity. Qed.

(** C2, amended.  A call of the reducer raises the unimplemented error
    exactly when neither range is a subset of the other, the minimum
    versions and the sorted group lists are obtained, and either (a) the
    minimum versions differ and the realigned ranges do not intersect, or
    (b) they are equal and both sorted lists are empty, or (c) the
    recursive call, on the realigned ranges that intersect or on the two
    remainders, raises it. *)
Theorem restrictiveRange_raises_iff :
  forall (L : SemverLib) (fuel : nat) (r1 r2 : Range) (ignoredRanges : list string),
    restrictiveRange (S fuel) r1 r2 ignoredRanges = Throw NotYetImplemented <->
    semver_subset r1 r2 = false /\ semver_subset r2 r1 = false /\
    exists m1 m2 s1 s2,
      minVersionOrStar r1 = Ok m1 /\ minVersionOrStar r2 = Ok m2 /\
      sortRangeSet (set r1) = Ok s1 /\ sortRangeSet (set r2) = Ok s2 /\
      ((eq m1 m2 = false /\
        exists aligned1 aligned2 newR1 newR2,
          applyMinVersionToRangeSet s1 (floor m1 m2) = Ok aligned1 /\
          setToRange aligned1 = Ok newR1 /\
          applyMinVersionToRangeSet s2 (floor m1 m2) = Ok aligned2 /\
          setToRange aligned2 = Ok newR2 /\
          (Range_intersects newR1 newR2 = false \/
           restrictiveRange fuel newR1 newR2 ignoredRanges = Throw NotYetImplemented))
       \/
       (eq m1 m2 = true /\
        ((s1 = [] /\ s2 = []) \/
         exists newR1 newR2,
           setToRange (tl s1) = Ok newR1 /\
           setToRange (tl s2) = Ok newR2 /\
           restrictiveRange fuel newR1 newR2 ignoredRanges
           = Throw NotYetImplemented))).
Proof.
  intros L fuel r1 r2 ign. rewrite restrictiveRange_S. split.
  - intros H.
    destruct (restrictiveRangeBody_raises_inv _ _ _ _ H)
      as [S1 [S2 [m1 [m2 [s1 [s2 [E1 [E2 [E3 E4]]]]]]]]].
    do 2 (split; [assumption |]). exists m1, m2, s1, s2.
    do 4 (split; [assumption |]).
    rewrite (restrictiveRangeBody_prepared _ _ _ _ _ _ _ _ S1 S2 E1 E2 E3 E4) in H.
    destruct (eq m1 m2); simpl in H.
    + right; split; [reflexivity |].
      destruct s1 as [| h1 t1]; [destruct s2 as [| h2 t2] |]; simpl in H; cbn [tl].
      * left; split; reflexivity.
      * right.
        destruct (setToRange []) as [n1 | e | ] eqn:N1; simpl in H;
          [| exfalso; apply (setToRange_noUnimplemented []); congruence | discriminate].
        destruct (setToRange t2) as [n2 | e | ] eqn:N2; simpl in H;
          [| exfalso; apply (setToRange_noUnimplemented t2); congruence | discriminate].
        exists n1, n2. do 2 (split; [reflexivity |]).
        destruct (restrictiveRange fuel n1 n2 ign) as [[nr ign'] | e | ];
          simpl in H; [| congruence | discriminate].
        exfalso.
        destruct (sortRangeSet (set nr)) as [rest | e | ] eqn:R; simpl in H;
          [| apply (sortRangeSet_noUnimplemented (set nr)); congruence | discriminate].
        destruct (setToRange (h2 :: rest)) as [res | e | ] eqn:T; simpl in H;
          [discriminate | | discriminate].
        apply (setToRange_noUnimplemented (h2 :: rest)); congruence.
      * right.
        destruct (setToRange t1) as [n1 | e | ] eqn:N1; simpl in H;
          [| exfalso; apply (setToRange_noUnimplemented t1); congruence | discriminate].
        destruct (setToRange (tl s2)) as [n2 | e | ] eqn:N2; simpl in H;
          [| exfalso; apply (setToRange_noUnimplemented (tl s2)); congruence
           | discriminate].
        exists n1, n2. do 2 (split; [reflexivity |]).
        destruct (restrictiveRange fuel n1 n2 ign) as [[nr ign'] | e | ];
          simpl in H; [| congruence | discriminate].
        exfalso.
        destruct (sortRangeSet (set nr)) as [rest | e | ] eqn:R; simpl in H;
          [| apply (sortRangeSet_noUnimplemented (set nr)); congruence | discriminate].
        destruct (setToRange (h1 :: rest)) as [res | e | ] eqn:T; simpl in H;
          [discriminate | | discriminate].
        apply (setToRange_noUnimplemented (h1 :: rest)); congruence.
    + left; split; [reflexivity |].
      destruct (applyMinVersionToRangeSet s1 (floor m1 m2)) as [a1 | e | ] eqn:A1;
        simpl in H;
        [| exfalso; apply (applyMinVersionToRangeSet_noUnimplemented s1 (floor m1 m2));
           congruence | discriminate].
      destruct (setToRange a1) as [n1 | e | ] eqn:N1; simpl in H;
        [| exfalso; apply (setToRange_noUnimplemented a1); congruence | discriminate].
      destruct (applyMinVersionToRangeSet s2 (floor m1 m2)) as [a2 | e | ] eqn:A2;
        simpl in H;
        [| exfalso; apply (applyMinVersionToRangeSet_noUnimplemented s2 (floor m1 m2));
           congruence | discriminate].
      destruct (setToRange a2) as [n2 | e | ] eqn:N2; simpl in H;
        [| exfalso; apply (setToRange_noUnimplemented a2); congruence | discriminate].
      exists a1, a2, n1, n2. do 4 (split; [first [reflexivity | assumption] |]).
      destruct (Range_intersects n1 n2); [right; exact H | left; reflexivity].
  - intros [S1 [S2 [m1 [m2 [s1 [s2 [E1 [E2 [E3 [E4 H]]]]]]]]]].
    rewrite (restrictiveRangeBody_prepared _ _ _ _ _ _ _ _ S1 S2 E1 E2 E3 E4).
    destruct H as [[Heq [a1 [a2 [n1 [n2 [A1 [N1 [A2 [N2 H]]]]]]]]] | [Heq H]];
      rewrite Heq; simpl.
    + rewrite A1; simpl. rewrite N1; simpl. rewrite A2; simpl. rewrite N2; simpl.
      destruct H as [H | H]; [rewrite H; reflexivity |].
      destruct (Range_intersects n1 n2); [exact H | reflexivity].
    + destruct H as [[-> ->] | [n1 [n2 [N1 [N2 H]]]]]; [reflexivity |].
      destruct (firstDefined (hd_error s1) (hd_error s2)); [| reflexivity].
      rewrite N1; simpl. rewrite N2; simpl. rewrite H; reflexivity.
Qed.

Lemma restrictiveRange_raises_iff_witness :
  restrictiveRange (L := node_semver) 1
    (parsed ">=3.0.0 <3.1.0") (parsed ">=3.2.0 <4.0.0") []
  = Throw NotYetImplemented.
Proof.
  apply (proj2 (restrictiveRange_raises_iff node_semver 0
                  (parsed ">=3.0.0 <3.1.0") (parsed ">=3.2.0 <4.0.0") [])).
  split; [vm_compute; reflexivity |].
  split; [vm_compute; reflexivity |].
  exists (mkSemVer 3 0 0 []), (mkSemVer 3 2 0 []),
         (set (parsed ">=3.0.0 <3.1.0")), (set (parsed ">=3.2.0 <4.0.0")).
  do 4 (split; [vm_compute; reflexivity |]).
  left. split; [vm_compute; reflexivity |].
  exists (set (parsed ">=3.2.0 <3.1.0")), (set (parsed ">=3.2.0 <4.0.0")),
         (parsed ">=3.2.0 <3.1.0"), (parsed ">=3.2.0 <4.0.0").
  do 4 (split; [vm_compute; reflexivity |]).
  left; vm_compute; reflexivity.
Defined.

(** ** C6: termination of the reducer *)

(** On [<3.0.0 >=1.0.0] and [>=2.0.0] one call of the reducer is the
    recursive call on the same two ranges: neither is a subset of the
    other, the minimum versions 1.0.0 and 2.0.0 differ, and the alignment
    to 2.0.0 leaves both group lists as they were. *)
Lemma restrictiveRangeBody_same_call
  (self : Range -> Range -> list string -> Outcome (Range * list string))
  (ignoredRanges : list string) :
  restrictiveRangeBody (L := node_semver) self
    (parsed "<3.0.0 >=1.0.0") (parsed ">=2.0.0") ignoredRanges
  = self (parsed "<3.0.0 >=1.0.0") (parsed ">=2.0.0") ignoredRanges.
Proof. vm_compute; reflexivity. Qed.

Lemma restrictiveRange_same_call_diverges (ignoredRanges : list string) (fuel : nat) :
  restrictiveRange (L := node_semver) fuel
    (parsed "<3.0.0 >=1.0.0") (parsed ">=2.0.0") ignoredRanges
  = Diverge.
Proof.
  induction fuel as [| fuel IH]; [reflexivity |].
  rewrite restrictiveRange_S, restrictiveRangeBody_same_call. exact IH.
Qed.

(** C6 (defect of the code).  The reducer does not return on the ranges
    [<3.0.0 >=1.0.0] and [>=2.0.0]: whatever the depth allowed, the
    recursion is still going on when it is reached.  The two ranges have
    one comparator group each. *)
Theorem restrictiveRange_never_returns :
  List.length (set (parsed "<3.0.0 >=1.0.0")) = 1 /\
  List.length (set (parsed ">=2.0.0")) = 1 /\
  forall fuel : nat,
    restrictiveRange (L := node_semver) fuel
      (parsed "<3.0.0 >=1.0.0") (parsed ">=2.0.0") []
    = Diverge.
Proof.
  split; [reflexivity | split; [reflexivity |]].
  apply restrictiveRange_same_call_diverges.
Qed.

(** The same two ranges as successive dependency constraints: the
    aggregation does not return. *)
Lemma aggregation_never_returns (fuel : nat) :
  computeEnginesConstraint (L := node_semver) fuel
    [dependency "a" "<3.0.0 >=1.0.0"; dependency "b" ">=2.0.0"] "node"
  = Diverge.
Proof.
  destruct fuel as [| fuel]; [reflexivity |].
  change (computeEnginesConstraint (L := node_semver) (S fuel)
            [dependency "a" "<3.0.0 >=1.0.0"; dependency "b" ">=2.0.0"] "node")
    with (st <- (st1 <- (x <- restrictiveRange (L := node_semver) (S fuel)
                               (parsed "<3.0.0 >=1.0.0") (parsed ">=2.0.0") ["*"] ;;
                         (let (newRestrictiveRange, ignoredRanges') := x in
                          if negb (String.eqb (raw (parsed "<3.0.0 >=1.0.0"))
                                              (raw newRestrictiveRange))
                          then Ok (Some newRestrictiveRange, ignoredRanges')
                          else Ok (Some (parsed "<3.0.0 >=1.0.0"), ignoredRanges'))
                        : Outcome LoopState) ;;
                 Ok st1) ;;
          Ok (fst st)).
  rewrite restrictiveRange_same_call_diverges. reflexivity.
Qed.

(** ** The precedence of versions is a total order *)

Module Precedence.

Lemma Ascii_compare_refl c : Ascii.compare c c = Eq.
Proof. unfold Ascii.compare. apply N.compare_refl. Qed.

Lemma Ascii_compare_trans a b c :
  Ascii.compare a b = Lt -> Ascii.compare b c = Lt -> Ascii.compare a c = Lt.
Proof.
  unfold Ascii.compare. rewrite !N.compare_lt_iff. apply N.lt_trans.
Qed.

Lemma String_compare_refl s : String.compare s s = Eq.
Proof.
  induction s as [| c s IH]; simpl; [reflexivity |].
  rewrite Ascii_compare_refl; exact IH.
Qed.

Lemma String_compare_trans a :
  forall b c, String.compare a b = Lt -> String.compare b c = Lt ->
              String.compare a c = Lt.
Proof.
  induction a as [| x a IH]; intros [| y b] [| z c]; simpl; try discriminate;
    try reflexivity.
  destruct (Ascii.compare x y) eqn:Exy; try discriminate;
    destruct (Ascii.compare y z) eqn:Eyz; try discriminate; intros H1 H2.
  - apply Ascii.compare_eq_iff in Exy, Eyz; subst.
    rewrite Ascii_compare_refl. eapply IH; eassumption.
  - apply Ascii.compare_eq_iff in Exy; subst. rewrite Eyz; reflexivity.
  - apply Ascii.compare_eq_iff in Eyz; subst. rewrite Exy; reflexivity.
  - rewrite (Ascii_compare_trans _ _ _ Exy Eyz); reflexivity.
Qed.

Lemma compareIdentifiers_eq a b : compareIdentifiers a b = Eq -> a = b.
Proof.
  destruct a, b; simpl; intros H; try discriminate.
  - apply N.compare_eq in H; congruence.
  - apply String.compare_eq_iff in H; congruence.
Qed.

Lemma compareIdentifiers_refl a : compareIdentifiers a a = Eq.
Proof. destruct a; simpl; [apply N.compare_refl | apply String_compare_refl]. Qed.

Lemma compareIdentifiers_antisym a b :
  compareIdentifiers b a = CompOpp (compareIdentifiers a b).
Proof.
  destruct a, b; simpl; try reflexivity.
  - apply N.compare_antisym.
  - apply String.compare_antisym.
Qed.

Lemma compareIdentifiers_trans a b c :
  compareIdentifiers a b = Lt -> compareIdentifiers b c = Lt ->
  compareIdentifiers a c = Lt.
Proof.
  destruct a, b, c; simpl; try discriminate; try reflexivity.
  - rewrite !N.compare_lt_iff. apply N.lt_trans.
  - apply String_compare_trans.
Qed.

Lemma comparePreList_eq a : forall b, comparePreList a b = Eq -> a = b.
Proof.
  induction a as [| x a IH]; intros [| y b]; simpl; try discriminate;
    [reflexivity |].
  destruct (compareIdentifiers x y) eqn:E; try discriminate.
  intros H. apply compareIdentifiers_eq in E. apply IH in H. congruence.
Qed.

Lemma comparePreList_refl a : comparePreList a a = Eq.
Proof.
  induction a as [| x a IH]; simpl; [reflexivity |].
  rewrite compareIdentifiers_refl; exact IH.
Qed.

Lemma comparePreList_antisym a :
  forall b, comparePreList b a = CompOpp (comparePreList a b).
Proof.
  induction a as [| x a IH]; intros [| y b]; simpl; try reflexivity.
  rewrite (compareIdentifiers_antisym x y).
  destruct (compareIdentifiers x y); simpl; [apply IH | reflexivity | reflexivity].
Qed.

Lemma comparePreList_trans a :
  forall b c, comparePreList a b = Lt -> comparePreList b c = Lt ->
              comparePreList a c = Lt.
Proof.
  induction a as [| x a IH]; intros [| y b] [| z c]; simpl; try discriminate;
    try reflexivity.
  destruct (compareIdentifiers x y) eqn:Exy; try discriminate;
    destruct (compareIdentifiers y z) eqn:Eyz; try discriminate; intros H1 H2.
  - apply compareIdentifiers_eq in Exy, Eyz; subst.
    rewrite compareIdentifiers_refl. eapply IH; eassumption.
  - apply compareIdentifiers_eq in Exy; subst. rewrite Eyz; reflexivity.
  - apply compareIdentifiers_eq in Eyz; subst. rewrite Exy; reflexivity.
  - rewrite (compareIdentifiers_trans _ _ _ Exy Eyz); reflexivity.
Qed.

Lemma comparePre_unfold a b : comparePre a b = comparePreOf (prerelease a) (prerelease b).
Proof.
  unfold comparePre, comparePreOf.
  destruct (prerelease a), (prerelease b); reflexivity.
Qed.

Lemma comparePreOf_eq pa pb : comparePreOf pa pb = Eq -> pa = pb.
Proof.
  destruct pa, pb; simpl; try discriminate; [reflexivity |].
  apply (comparePreList_eq (i :: pa) (i0 :: pb)).
Qed.

Lemma comparePreOf_refl pa : comparePreOf pa pa = Eq.
Proof. destruct pa; [reflexivity |]. apply (comparePreList_refl (i :: pa)). Qed.

Lemma comparePreOf_antisym pa pb : comparePreOf pb pa = CompOpp (comparePreOf pa pb).
Proof.
  destruct pa, pb; try reflexivity.
  apply (comparePreList_antisym (i :: pa) (i0 :: pb)).
Qed.

Lemma comparePreOf_trans pa pb pc :
  comparePreOf pa pb = Lt -> comparePreOf pb pc = Lt -> comparePreOf pa pc = Lt.
Proof.
  destruct pa as [| x pa], pb as [| y pb], pc as [| z pc];
    try discriminate; try reflexivity.
  apply (comparePreList_trans (x :: pa) (y :: pb) (z :: pc)).
Qed.

(** [compare] on the four fields. *)
Lemma compare_Lt_iff a b :
  compare a b = Lt <->
  (major a < major b)%N \/
  (major a = major b /\ (minor a < minor b)%N) \/
  (major a = major b /\ minor a = minor b /\ (patch a < patch b)%N) \/
  (major a = major b /\ minor a = minor b /\ patch a = patch b /\
   comparePreOf (prerelease a) (prerelease b) = Lt).
Proof.
  unfold compare, compareMain. rewrite comparePre_unfold.
  destruct (N.compare_spec (major a) (major b));
    destruct (N.compare_spec (minor a) (minor b));
    destruct (N.compare_spec (patch a) (patch b));
    split; intros Hyp;
    try discriminate; try reflexivity;
    try (right; right; right; tauto);
    try (right; right; left; tauto);
    try (right; left; tauto);
    try (left; assumption);
    try (destruct Hyp as [Hyp | [Hyp | [Hyp | Hyp]]]; try tauto; lia).
Qed.

Lemma compare_eq a b : compare a b = Eq -> a = b.
Proof.
  unfold compare, compareMain. rewrite comparePre_unfold.
  destruct (N.compare_spec (major a) (major b)); try discriminate.
  destruct (N.compare_spec (minor a) (minor b)); try discriminate.
  destruct (N.compare_spec (patch a) (patch b)); try discriminate.
  intros Hp. apply comparePreOf_eq in Hp.
  destruct a, b; simpl in *; congruence.
Qed.

Lemma compare_refl a : compare a a = Eq.
Proof.
  unfold compare, compareMain. rewrite comparePre_unfold, !N.compare_refl.
  apply comparePreOf_refl.
Qed.

Lemma compare_antisym a b : compare b a = CompOpp (compare a b).
Proof.
  unfold compare, compareMain. rewrite !comparePre_unfold.
  rewrite (N.compare_antisym (major a) (major b)).
  rewrite (N.compare_antisym (minor a) (minor b)).
  rewrite (N.compare_antisym (patch a) (patch b)).
  rewrite (comparePreOf_antisym (prerelease a) (prerelease b)).
  destruct (N.compare (major a) (major b)); simpl; try reflexivity.
  destruct (N.compare (minor a) (minor b)); simpl; try reflexivity.
  destruct (N.compare (patch a) (patch b)); simpl; reflexivity.
Qed.

Lemma compare_trans a b c :
  compare a b = Lt -> compare b c = Lt -> compare a c = Lt.
Proof.
  rewrite !compare_Lt_iff. intros H1 H2.
  destruct H1 as [H1 | [[E1 H1] | [[E1 [E1' H1]] | [E1 [E1' [E1'' H1]]]]]];
    destruct H2 as [H2 | [[E2 H2] | [[E2 [E2' H2]] | [E2 [E2' [E2'' H2]]]]]];
    try (left; lia);
    try (right; left; split; lia);
    try (right; right; left; repeat split; lia).
  right; right; right. repeat split; try lia.
  eapply comparePreOf_trans; eassumption.
Qed.

(** The derived order: [gte v m] reads "[v] is at or above [m]". *)
Lemma gte_trans a b c : gte a b = true -> gte b c = true -> gte a c = true.
Proof.
  unfold gte. intros H1 H2.
  destruct (compare a c) eqn:Eac; try reflexivity. exfalso.
  destruct (compare a b) eqn:Eab; try discriminate;
    destruct (compare b c) eqn:Ebc; try discriminate.
  - apply compare_eq in Eab, Ebc; subst. rewrite compare_refl in Eac; discriminate.
  - apply compare_eq in Eab; subst. congruence.
  - apply compare_eq in Ebc; subst. congruence.
  - assert (Hca : compare c a = Gt) by (rewrite compare_antisym, Eac; reflexivity).
    assert (Hcb : compare c b = Lt) by (rewrite compare_antisym, Ebc; reflexivity).
    assert (Hba : compare b a = Lt) by (rewrite compare_antisym, Eab; reflexivity).
    rewrite (compare_trans _ _ _ Hcb Hba) in Hca; discriminate.
Qed.

Lemma gte_false_lt a b : gte a b = false <-> compare a b = Lt.
Proof. unfold gte; destruct (compare a b); split; congruence. Qed.

Lemma gte_of_gt a b : compare b a = Lt -> gte a b = true.
Proof.
  intros H. unfold gte. rewrite compare_antisym, H. reflexivity.
Qed.

Lemma major_lt_compare a b : (major a < major b)%N -> compare a b = Lt.
Proof. intros H; apply compare_Lt_iff; left; exact H. Qed.

(** [x.0.0-0] is the lowest version of major [x] and above. *)
Lemma lowest_of_major x v :
  (x <= major v)%N -> gte v (mkSemVer x 0 0 [Numeric 0]) = true.
Proof.
  intros H. unfold gte.
  destruct (compare v (mkSemVer x 0 0 [Numeric 0])) eqn:E; try reflexivity.
  exfalso. apply compare_Lt_iff in E. cbn [major minor patch prerelease] in E.
  destruct E as [E | [[_ E] | [[_ [_ E]] | [_ [_ [_ E]]]]]]; try lia.
  destruct (prerelease v) as [| i p]; simpl in E; [discriminate |].
  destruct i as [n | s]; simpl in E; [| discriminate].
  destruct (N.compare_spec n 0); try discriminate; try lia.
  destruct p; discriminate.
Qed.

End Precedence.

(** ** C1: subset absorption *)

Module Floors.
Import NodeSemver.

(** A range of the single comparator [>=x], for a version [x] without
    prerelease: it contains the versions without prerelease from [x] on. *)
Lemma Range_test_floor t x v :
  prerelease x = [] ->
  Range_test (mkRange t [[Cmp OpGte x]]) v = gte v x && negb (hasPrerelease v).
Proof.
  intros Hx. unfold Range_test, testSet, allowsPrereleaseOf, hasPrerelease.
  cbn [set existsb forallb Comparator_test cmp]. rewrite Hx.
  cbn [andb orb]. rewrite !orb_false_r, andb_true_r. reflexivity.
Qed.

(** On two such ranges [semver.subset] compares the two versions. *)
Lemma subset_floor ta tb x y :
  prerelease x = [] -> prerelease y = [] ->
  subset (mkRange ta [[Cmp OpGte x]]) (mkRange tb [[Cmp OpGte y]]) = gte x y.
Proof.
  intros Hx Hy. unfold subset. cbn [set subsetLoop subsetOfSome].
  assert (S : simpleSubset [Cmp OpGte x] [Cmp OpGte y] = Some (gte x y)).
  { unfold simpleSubset.
    destruct (sameObject [Cmp OpGte x] [Cmp OpGte y]) eqn:E.
    - unfold sameObject in E. cbn [list_eqb Comparator_eqb Operator_eqb andb] in E.
      rewrite andb_true_r in E. unfold SemVer_eqb in E.
      apply andb_true_iff in E. destruct E as [E _].
      unfold sameTuple in E. rewrite !andb_true_iff, !N.eqb_eq in E.
      destruct E as [[E1 E2] E3].
      destruct x as [a b c px], y as [a' b' c' py]. cbn in *. subst.
      unfold gte. rewrite Precedence.compare_refl. reflexivity.
    - assert (Ax : isAny (Cmp OpGte x) = false) by reflexivity.
      assert (Ay : isAny (Cmp OpGte y) = false) by reflexivity.
      cbn [isAnyGroup]. rewrite Ax, Ay.
      cbn [andb collect increasing higherGT List.length Nat.ltb Nat.leb].
      unfold needDomPre, hasPrerelease, zeroPrereleaseUpper. rewrite Hx.
      cbn [domLoop operator increasing decreasing isDefined orb clearsNeed
           hasDomGT hasDomLT needDomGTPre needDomLTPre Operator_eqb andb negb fst snd].
      unfold higherIsSecond, gte. cbn [fst snd Operator_eqb andb].
      destruct (compare x y); reflexivity. }
  rewrite S. destruct (gte x y); reflexivity.
Qed.

(** One such range is within another exactly when its version is not
    below the other's. *)
Lemma floor_within ta tb x y :
  prerelease x = [] -> prerelease y = [] ->
  (forall v, Range_test (mkRange ta [[Cmp OpGte x]]) v = true ->
             Range_test (mkRange tb [[Cmp OpGte y]]) v = true)
  <-> gte x y = true.
Proof.
  intros Hx Hy. split.
  - intros H. specialize (H x). rewrite !Range_test_floor in H by assumption.
    unfold hasPrerelease in H. rewrite Hx in H.
    assert (G : gte x x = true) by (unfold gte; rewrite Precedence.compare_refl; reflexivity).
    rewrite G in H. specialize (H eq_refl). apply andb_true_iff in H. tauto.
  - intros G v. rewrite !Range_test_floor by assumption.
    rewrite !andb_true_iff. intros [Hv Hp]. split; [| exact Hp].
    exact (Precedence.gte_trans v x y Hv G).
Qed.

End Floors.

(** C1 fails as stated: every version that [<2.0.0] contains is in [*],
    but [semver.subset] does not find [<2.0.0] within [*], nor [*] within
    [<2.0.0].  [restrictiveRange] goes on to rebuild a range: it returns
    the universal range of raw text [<2.0.0||], not the range [<2.0.0],
    and appends the empty text to [ignoredRanges], not [*]. *)
Lemma semantic_subset_not_absorbed :
  (forall v, NodeSemver.Range_test (parsed "<2.0.0") v = true ->
             NodeSemver.Range_test (parsed "*") v = true) /\
  NodeSemver.subset (parsed "<2.0.0") (parsed "*") = false /\
  NodeSemver.subset (parsed "*") (parsed "<2.0.0") = false /\
  (forall fuel : nat,
      restrictiveRange (L := node_semver) (S (S fuel)) (parsed "<2.0.0") (parsed "*") []
      = Ok (mkRange "<2.0.0||" [[ANY]], [""])) /\
  parsed "<2.0.0" = mkRange "<2.0.0" [[Cmp OpLt (mkSemVer 2 0 0 [])]] /\
  raw (parsed "*") = "*".
Proof.
  split.
  { intros v. unfold NodeSemver.Range_test, NodeSemver.testSet.
    change (set (parsed "<2.0.0")) with [[Cmp OpLt (mkSemVer 2 0 0 [])]].
    change (set (parsed "*")) with [[ANY]].
    cbn [existsb forallb Comparator_test NodeSemver.allowsPrereleaseOf
         NodeSemver.hasPrerelease prerelease andb orb].
    rewrite !orb_false_r, !andb_true_r. cbn [andb].
    intros H. apply andb_true_iff in H. tauto. }
  split; [vm_compute; reflexivity |].
  split; [vm_compute; reflexivity |].
  split; [intros fuel; vm_compute; reflexivity |].
  split; vm_compute; reflexivity.
Qed.

(** C1, amended.  When [semver.subset] finds [a] within [b],
    [restrictiveRange a b] returns [a] and appends the raw text of [b] to
    [ignoredRanges]; when it finds instead [b] within [a], it returns [b]
    and appends the raw text of [a].  This holds for every implementation
    of [semver.subset].  With the subset test of the package,
    [restrictiveRange r r] returns [r], and on ranges of a single lower
    bound [>=x] without prerelease the test finds every range that is
    within another: on these the range whose versions are all in the
    other is the one returned. *)
Theorem restrictiveRange_subset_absorption :
  (forall (L : SemverLib) (fuel : nat) (a b : Range) (ignoredRanges : list string),
      (semver_subset a b = true ->
       restrictiveRange (S fuel) a b ignoredRanges
       = Ok (a, (ignoredRanges ++ [raw b])%list)) /\
      (semver_subset a b = false -> semver_subset b a = true ->
       restrictiveRange (S fuel) a b ignoredRanges
       = Ok (b, (ignoredRanges ++ [raw a])%list))) /\
  (forall (fuel : nat) (r : Range) (ignoredRanges : list string),
      restrictiveRange (L := node_semver) (S fuel) r r ignoredRanges
      = Ok (r, (ignoredRanges ++ [raw r])%list)) /\
  (forall (fuel : nat) (ta tb : string) (x y : SemVer) (ignoredRanges : list string),
      prerelease x = [] -> prerelease y = [] ->
      ((forall v, NodeSemver.Range_test (mkRange ta [[Cmp OpGte x]]) v = true ->
                  NodeSemver.Range_test (mkRange tb [[Cmp OpGte y]]) v = true) ->
       restrictiveRange (L := node_semver) (S fuel)
         (mkRange ta [[Cmp OpGte x]]) (mkRange tb [[Cmp OpGte y]]) ignoredRanges
       = Ok (mkRange ta [[Cmp OpGte x]], (ignoredRanges ++ [tb])%list)) /\
      (~ (forall v, NodeSemver.Range_test (mkRange ta [[Cmp OpGte x]]) v = true ->
                    NodeSemver.Range_test (mkRange tb [[Cmp OpGte y]]) v = true) ->
       (forall v, NodeSemver.Range_test (mkRange tb [[Cmp OpGte y]]) v = true ->
                  NodeSemver.Range_test (mkRange ta [[Cmp OpGte x]]) v = true) ->
       restrictiveRange (L := node_semver) (S fuel)
         (mkRange ta [[Cmp OpGte x]]) (mkRange tb [[Cmp OpGte y]]) ignoredRanges
       = Ok (mkRange tb [[Cmp OpGte y]], (ignoredRanges ++ [ta])%list))).
Proof.
  split; [| split].
  - intros L fuel a b ign; split.
    + apply restrictiveRange_subset_left.
    + apply restrictiveRange_subset_right.
  - intros fuel r ign.
    apply (restrictiveRange_subset_left (L := node_semver)).
    apply NodeSemverFacts.subset_refl.
  - intros fuel ta tb x y ign Hx Hy. split.
    + intros H. apply (Floors.floor_within ta tb x y Hx Hy) in H.
      apply (restrictiveRange_subset_left (L := node_semver)).
      change (NodeSemver.subset (mkRange ta [[Cmp OpGte x]]) (mkRange tb [[Cmp OpGte y]]) = true).
      rewrite Floors.subset_floor by assumption. exact H.
    + intros Hn H. apply (Floors.floor_within tb ta y x Hy Hx) in H.
      apply (restrictiveRange_subset_right (L := node_semver)).
      * change (NodeSemver.subset (mkRange ta [[Cmp OpGte x]]) (mkRange tb [[Cmp OpGte y]])
                = false).
        rewrite Floors.subset_floor by assumption.
        destruct (gte x y) eqn:G; [| reflexivity].
        exfalso. apply Hn. apply (Floors.floor_within ta tb x y Hx Hy). exact G.
      * change (NodeSemver.subset (mkRange tb [[Cmp OpGte y]]) (mkRange ta [[Cmp OpGte x]])
                = true).
        rewrite Floors.subset_floor by assumption. exact H.
Qed.

Lemma restrictiveRange_subset_absorption_witness :
  restrictiveRange (L := node_semver) 1
    (parsed ">=14.17.0 <15.0.0-0||>=16.10.0 <17.0.0-0")
    (parsed ">=14.0.0 <15.0.0-0||>=16.0.0 <17.0.0-0") []
  = Ok (parsed ">=14.17.0 <15.0.0-0||>=16.10.0 <17.0.0-0",
        [">=14.0.0 <15.0.0-0||>=16.0.0 <17.0.0-0"]).
Proof.
  apply (proj1 (proj1 restrictiveRange_subset_absorption node_semver 0
                  (parsed ">=14.17.0 <15.0.0-0||>=16.10.0 <17.0.0-0")
                  (parsed ">=14.0.0 <15.0.0-0||>=16.0.0 <17.0.0-0") [])).
  vm_compute; reflexivity.
Defined.

(** ** Reading back the text of versions and comparators *)

Module Roundtrip.
Import NodeSemver.

Lemma all_append p a b : all p (a ++ b) = all p a && all p b.
Proof.
  induction a as [| c a IH]; simpl; [reflexivity |].
  rewrite IH, andb_assoc; reflexivity.
Qed.

Lemma all_impl (p q : ascii -> bool) s :
  (forall c, p c = true -> q c = true) -> all p s = true -> all q s = true.
Proof.
  intros Hpq; induction s as [| c s IH]; simpl; [reflexivity |].
  intros H; apply andb_true_iff in H; destruct H as [Hc Hs].
  rewrite (Hpq c Hc), (IH Hs); reflexivity.
Qed.

Lemma span_append p s rest :
  all p s = true -> startsWith p rest = false -> span p (s ++ rest) = (s, rest).
Proof.
  intros Hs Hrest; induction s as [| c s IH]; simpl.
  - destruct rest as [| c r]; simpl in *; [reflexivity | rewrite Hrest; reflexivity].
  - simpl in Hs; apply andb_true_iff in Hs; destruct Hs as [Hc Hs].
    rewrite Hc, (IH Hs); reflexivity.
Qed.

Lemma span_all p s : all p s = true -> span p s = (s, "").
Proof.
  intros Hs. rewrite <- (span_append p s "" Hs eq_refl).
  f_equal. induction s as [| c s IH]; simpl; [reflexivity |].
  simpl in Hs; apply andb_true_iff in Hs. f_equal; apply IH; tauto.
Qed.

(** *** Decimal numerals *)

Lemma digits_of_uint d : all is_digit (DecimalString.NilEmpty.string_of_uint d) = true.
Proof. induction d; simpl; try rewrite IHd; reflexivity. Qed.

Lemma show_digits n : all is_digit (show n) = true.
Proof. apply digits_of_uint. Qed.

Lemma nzhead_no_leading_zero d :
  match Decimal.nzhead d with
  | Decimal.D0 _ => False
  | _ => True
  end.
Proof. induction d; simpl; auto. Qed.

Lemma to_uint_normal n : N.to_uint n = Decimal.unorm (N.to_uint n).
Proof.
  rewrite <- (DecimalN.Unsigned.to_of (N.to_uint n)).
  rewrite DecimalN.Unsigned.of_to. reflexivity.
Qed.

Lemma show_shape n :
  exists c rest, show n = String c rest /\
                 (negb (Ascii.eqb c "0") || String.eqb rest "") = true.
Proof.
  unfold show. rewrite to_uint_normal. unfold Decimal.unorm.
  pose proof (nzhead_no_leading_zero (N.to_uint n)) as H.
  destruct (Decimal.nzhead (N.to_uint n)); simpl;
    try (eexists; eexists; split; [reflexivity | reflexivity]).
  destruct H.
Qed.

Lemma parseNumeric_show n : parseNumeric (show n) = Some n.
Proof.
  destruct (show_shape n) as [c [rest [E H]]].
  unfold parseNumeric. rewrite E, <- E, show_digits, H. simpl.
  unfold show. rewrite DecimalString.NilEmpty.usu. simpl.
  rewrite DecimalN.Unsigned.of_to. reflexivity.
Qed.

Lemma string_of_uint_length d :
  String.length (DecimalString.NilEmpty.string_of_uint d) = Decimal.nb_digits d.
Proof. induction d; simpl; congruence. Qed.

Lemma of_uint_acc_ge d : forall acc,
  (N.pos acc * 10 ^ N.of_nat (Decimal.nb_digits d) <= N.pos (Pos.of_uint_acc d acc))%N.
Proof.
  induction d; intros acc; cbn [Pos.of_uint_acc Decimal.nb_digits];
    try (rewrite N.mul_1_r; apply N.le_refl);
    rewrite Nat2N.inj_succ, N.pow_succ_r';
    (eapply N.le_trans; [| apply IHd]);
    rewrite N.mul_assoc; apply N.mul_le_mono_r; lia.
Qed.

(** A number up to [MAX_SAFE_INTEGER] has at most 16 digits. *)
Lemma show_length n :
  (n <= MAX_SAFE_INTEGER)%N -> (String.length (show n) <= 16)%nat.
Proof.
  intros Hn. unfold show. rewrite string_of_uint_length.
  pose proof (DecimalN.Unsigned.of_to n) as Hof.
  pose proof (to_uint_normal n) as Hnorm.
  destruct (N.to_uint n) as [| d | d | d | d | d | d | d | d | d | d] eqn:E;
    cbn [Decimal.nb_digits]; try lia.
  1:{ unfold Decimal.unorm in Hnorm.
      pose proof (nzhead_no_leading_zero (Decimal.D0 d)) as Hz.
      destruct (Decimal.nzhead (Decimal.D0 d)) eqn:Ez; try discriminate Hnorm.
      - injection Hnorm as ->. simpl. lia.
      - destruct Hz. }
  all: assert (Hb : (10 ^ N.of_nat (Decimal.nb_digits d) <= n)%N)
      by (rewrite <- Hof; unfold N.of_uint; cbn [Pos.of_uint];
          match goal with |- (_ <= N.pos (Pos.of_uint_acc ?l ?k))%N =>
            eapply N.le_trans; [| apply (of_uint_acc_ge l k)] end;
          rewrite <- (N.mul_1_l (10 ^ _)) at 1; apply N.mul_le_mono_r; lia).
  all: assert (Hlt : (N.of_nat (Decimal.nb_digits d) < 16)%N)
      by (apply (N.pow_lt_mono_r_iff 10); [lia |];
          eapply N.le_lt_trans; [exact Hb |];
          eapply N.le_lt_trans; [exact Hn |]; reflexivity).
  all: lia.
Qed.

Lemma length_append (a b : string) :
  String.length (a ++ b) = (String.length a + String.length b)%nat.
Proof. induction a as [| c a IH]; simpl; [reflexivity | rewrite IH; reflexivity]. Qed.

Lemma show_starts_with_digit n : startsWith is_digit (show n) = true.
Proof.
  destruct (show_shape n) as [c [rest [E _]]].
  pose proof (show_digits n) as H. rewrite E in *. simpl in *.
  apply andb_true_iff in H; tauto.
Qed.


(** *** Versions *)

Lemma parseMain_text a b c rest :
  startsWith is_digit rest = false ->
  parseMain (show a ++ "." ++ show b ++ "." ++ show c ++ rest) = Some (a, b, c, rest).
Proof.
  intros Hrest. unfold parseMain.
  rewrite (span_append is_digit (show a)) by (apply show_digits || reflexivity).
  change ("." ++ show b ++ "." ++ show c ++ rest)
    with (String "." (show b ++ "." ++ show c ++ rest)).
  cbv beta iota.
  rewrite (span_append is_digit (show b)) by (apply show_digits || reflexivity).
  change ("." ++ show c ++ rest) with (String "." (show c ++ rest)).
  cbv beta iota.
  rewrite (span_append is_digit (show c)) by (apply show_digits || assumption).
  rewrite !parseNumeric_show. reflexivity.
Qed.

Lemma Identifier_eqb_eq i j : Identifier_eqb i j = true -> i = j.
Proof.
  destruct i, j; simpl; intros H; try discriminate.
  - apply N.eqb_eq in H; congruence.
  - apply String.eqb_eq in H; congruence.
Qed.

Lemma Identifier_wf_parse i :
  Identifier_wf i = true -> parseIdentifier (identifier_text i) = Some i.
Proof.
  unfold Identifier_wf. destruct (parseIdentifier (identifier_text i)) as [j |];
    [| discriminate].
  intros H; apply Identifier_eqb_eq in H; congruence.
Qed.

Lemma digit_is_identchar c : is_digit c = true -> is_identchar c = true.
Proof. unfold is_identchar; intros ->; reflexivity. Qed.

Lemma parseIdentifier_identchars s i :
  parseIdentifier s = Some i -> all is_identchar s = true.
Proof.
  unfold parseIdentifier. destruct s as [| c s]; [discriminate |].
  destruct (all is_digit (String c s)) eqn:D.
  - intros _. apply (all_impl is_digit); [apply digit_is_identchar | exact D].
  - destruct (all is_identchar (String c s)); [reflexivity | discriminate].
Qed.

Lemma identchar_not (x : ascii) c :
  is_identchar x = false -> is_identchar c = true -> negb (Ascii.eqb c x) = true.
Proof.
  intros Hx Hc. destruct (Ascii.eqb c x) eqn:E; [| reflexivity].
  apply Ascii.eqb_eq in E; subst; congruence.
Qed.

Lemma splitOn_none sep s :
  all (fun c => negb (Ascii.eqb c sep)) s = true -> splitOn sep s = [s].
Proof.
  induction s as [| c s IH]; simpl; [reflexivity |].
  intros H; apply andb_true_iff in H; destruct H as [Hc Hs].
  apply negb_true_iff in Hc. rewrite Hc, (IH Hs); reflexivity.
Qed.

Lemma splitOn_append sep s rest :
  all (fun c => negb (Ascii.eqb c sep)) s = true ->
  splitOn sep (s ++ String sep rest) = s :: splitOn sep rest.
Proof.
  induction s as [| c s IH]; simpl.
  - rewrite Ascii.eqb_refl; reflexivity.
  - intros H; apply andb_true_iff in H; destruct H as [Hc Hs].
    apply negb_true_iff in Hc. rewrite Hc, (IH Hs); reflexivity.
Qed.

Lemma splitOn_join sep (texts : list string) :
  texts <> [] ->
  Forall (fun t => all (fun c => negb (Ascii.eqb c sep)) t = true) texts ->
  splitOn sep (join (String sep "") texts) = texts.
Proof.
  induction texts as [| t texts IH]; [congruence |].
  intros _ H. inversion H as [| ? ? Ht Hts]; subst.
  destruct texts as [| t' texts].
  - simpl. apply splitOn_none, Ht.
  - change (join (String sep "") (t :: t' :: texts))
      with (t ++ String sep (join (String sep "") (t' :: texts))).
    rewrite splitOn_append by exact Ht.
    rewrite IH by (congruence || assumption). reflexivity.
Qed.

Lemma mapO_parseIdentifier p :
  forallb Identifier_wf p = true ->
  mapO parseIdentifier (map identifier_text p) = Some p.
Proof.
  induction p as [| i p IH]; simpl; [reflexivity |].
  intros H; apply andb_true_iff in H; destruct H as [Hi Hp].
  rewrite (Identifier_wf_parse i Hi); simpl. rewrite (IH Hp); reflexivity.
Qed.

Lemma identifier_text_identchars i :
  Identifier_wf i = true -> all is_identchar (identifier_text i) = true.
Proof.
  intros H. apply (parseIdentifier_identchars _ i), Identifier_wf_parse, H.
Qed.

Lemma join_all (p : ascii -> bool) sep texts :
  all p sep = true -> Forall (fun t => all p t = true) texts ->
  all p (join sep texts) = true.
Proof.
  intros Hsep; induction texts as [| t texts IH]; intros H; [reflexivity |].
  inversion H as [| ? ? Ht Hts]; subst.
  destruct texts as [| t' texts]; [exact Ht |].
  change (join sep (t :: t' :: texts)) with (t ++ sep ++ join sep (t' :: texts)).
  rewrite !all_append, Ht, Hsep, (IH Hts); reflexivity.
Qed.

Lemma SemVer_wf_inv v :
  SemVer_wf v = true ->
  (major v <= MAX_SAFE_INTEGER)%N /\ (minor v <= MAX_SAFE_INTEGER)%N /\
  (patch v <= MAX_SAFE_INTEGER)%N /\
  (String.length (version v) <= MAX_LENGTH)%nat /\
  forallb Identifier_wf (prerelease v) = true.
Proof.
  unfold SemVer_wf. rewrite !andb_true_iff, !N.leb_le, Nat.leb_le. tauto.
Qed.

Lemma version_starts_with_digit v : startsWith is_digit (version v) = true.
Proof.
  unfold version. pose proof (show_starts_with_digit (major v)) as H.
  destruct (show (major v)); [discriminate | exact H].
Qed.

(** The text of a version is read back as the version. *)
Lemma parseFullPlain_version v :
  SemVer_wf v = true -> parseFullPlain (version v) = Some v.
Proof.
  intros Hwf. apply SemVer_wf_inv in Hwf. destruct Hwf as (_ & _ & _ & _ & Hwf).
  unfold parseFullPlain.
  pose proof (version_starts_with_digit v) as Hd.
  assert (Hv : match version v with String "v" t => t | _ => version v end = version v).
  { destruct (version v) as [| c t]; [reflexivity |].
    simpl in Hd. destruct (Ascii.eqb c "v") eqn:E.
    - apply Ascii.eqb_eq in E; subst; discriminate.
    - destruct c as [[|] [|] [|] [|] [|] [|] [|] [|]]; try reflexivity; discriminate. }
  rewrite Hv. clear Hv Hd. unfold version.
  destruct v as [a b c p]; cbn [major minor patch prerelease] in *.
  destruct p as [| i p].
  - rewrite parseMain_text by reflexivity. reflexivity.
  - rewrite parseMain_text by reflexivity.
    change ("-" ++ join "." (map identifier_text (i :: p)))
      with (String "-" (join "." (map identifier_text (i :: p)))).
    cbv beta iota delta [obind].
    assert (Hchars : Forall (fun t => all is_identchar t = true)
                       (map identifier_text (i :: p))).
    { apply Forall_map, Forall_forall. intros j Hj.
      apply identifier_text_identchars.
      rewrite forallb_forall in Hwf; apply Hwf, Hj. }
    rewrite span_all.
    2:{ apply join_all; [reflexivity |].
        eapply Forall_impl; [| exact Hchars]. intros t Ht.
        eapply all_impl; [| exact Ht].
        intros c0 Hc0; apply identchar_not; [reflexivity | exact Hc0]. }
    unfold parsePrerelease.
    rewrite splitOn_join.
    2:{ simpl; congruence. }
    2:{ eapply Forall_impl; [| exact Hchars]. intros t Ht.
        eapply all_impl; [| exact Ht].
        intros c0 Hc0; apply identchar_not; [reflexivity | exact Hc0]. }
    rewrite mapO_parseIdentifier by exact Hwf. reflexivity.
Qed.

(** A version of three numbers up to [MAX_SAFE_INTEGER], without a
    prerelease or with the prerelease [0], is well formed. *)
Lemma SemVer_wf_numbers a b c p :
  (a <= MAX_SAFE_INTEGER)%N -> (b <= MAX_SAFE_INTEGER)%N -> (c <= MAX_SAFE_INTEGER)%N ->
  p = [] \/ p = [Numeric 0] ->
  SemVer_wf (mkSemVer a b c p) = true.
Proof.
  intros Ha Hb Hc Hp. unfold SemVer_wf. cbn [major minor patch prerelease].
  pose proof (show_length a Ha) as La. pose proof (show_length b Hb) as Lb.
  pose proof (show_length c Hc) as Lc.
  apply N.leb_le in Ha, Hb, Hc. rewrite Ha, Hb, Hc. cbn [andb].
  apply andb_true_iff; split.
  - apply Nat.leb_le. unfold version, MAX_LENGTH. cbn [major minor patch prerelease].
    rewrite !length_append.
    clear Ha Hb Hc.
    destruct Hp as [-> | ->]; cbn [String.length map join identifier_text];
      [| replace (String.length ("-" ++ show 0)) with 2%nat by reflexivity]; lia.
  - destruct Hp as [-> | ->]; reflexivity.
Qed.

(** The [SemVer] constructor reads the text of a version back. *)
Lemma parseVersion_version v :
  SemVer_wf v = true -> parseVersion (version v) = Some v.
Proof.
  intros Hwf. pose proof (parseFullPlain_version v Hwf) as Hp.
  apply SemVer_wf_inv in Hwf. destruct Hwf as (Ha & Hb & Hc & Hl & _).
  unfold parseVersion, checkNumbers.
  apply Nat.leb_le in Hl. apply N.leb_le in Ha, Hb, Hc.
  rewrite Nat.ltb_antisym, Hl. cbn [negb]. rewrite Hp. cbn [obind].
  rewrite Ha, Hb, Hc. reflexivity.
Qed.

(** *** Comparators *)

Lemma digit_cases c :
  is_digit c = true ->
  In c ["0"; "1"; "2"; "3"; "4"; "5"; "6"; "7"; "8"; "9"]%char.
Proof.
  destruct c as [[|] [|] [|] [|] [|] [|] [|] [|]]; intros H;
    try discriminate H; simpl; tauto.
Qed.

Lemma digit_not_space c : is_digit c = true -> is_space c = false.
Proof.
  intros H; apply digit_cases in H; simpl in H.
  repeat (destruct H as [<- | H]; [reflexivity |]). destruct H.
Qed.

(** The text of a comparator is read back as the comparator. *)
Lemma Comparator_new_value op v :
  SemVer_wf v = true ->
  Comparator_new (operator_text op ++ version v) = Some (Cmp op v).
Proof.
  intros Hwf.
  pose proof (version_starts_with_digit v) as Hd.
  pose proof (parseVersion_version v Hwf) as Hp.
  destruct (version v) as [| c t] eqn:E; [discriminate |].
  simpl in Hd. pose proof (digit_not_space c Hd) as Hs.
  apply digit_cases in Hd; simpl in Hd.
  unfold Comparator_new.
  destruct op; simpl;
    repeat (destruct Hd as [<- | Hd];
            [simpl in *; rewrite ?Hs, Hp; reflexivity |]);
    destruct Hd.
Qed.


Lemma version_inj a b :
  SemVer_wf a = true -> SemVer_wf b = true -> version a = version b -> a = b.
Proof.
  intros Ha Hb E. pose proof (parseFullPlain_version a Ha) as Pa.
  rewrite E, (parseFullPlain_version b Hb) in Pa. congruence.
Qed.

(** *** Ranges of one group *)

Lemma valuechar_not (x : ascii) c :
  is_valuechar x = false -> is_valuechar c = true -> negb (Ascii.eqb c x) = true.
Proof.
  intros Hx Hc. destruct (Ascii.eqb c x) eqn:E; [| reflexivity].
  apply Ascii.eqb_eq in E; subst; congruence.
Qed.

Lemma valuechar_not_space c : is_valuechar c = true -> negb (is_space c) = true.
Proof.
  intros Hc. destruct (is_space c) eqn:E; [| reflexivity].
  unfold is_space in E.
  destruct c as [[|] [|] [|] [|] [|] [|] [|] [|]]; try discriminate E;
    discriminate Hc.
Qed.

Lemma identchar_is_valuechar c : is_identchar c = true -> is_valuechar c = true.
Proof. unfold is_valuechar; intros ->; reflexivity. Qed.

Lemma show_valuechars n : all is_valuechar (show n) = true.
Proof.
  apply (all_impl is_digit); [| apply show_digits].
  intros c Hc; apply identchar_is_valuechar, digit_is_identchar, Hc.
Qed.

Lemma version_valuechars v : SemVer_wf v = true -> all is_valuechar (version v) = true.
Proof.
  intros Hwf. unfold version.
  rewrite !all_append, !show_valuechars.
  change (all is_valuechar ".") with true. cbn [andb].
  destruct (prerelease v) as [| i p] eqn:E; [reflexivity |].
  change ("-" ++ join "." (map identifier_text (i :: p)))
    with (String "-" (join "." (map identifier_text (i :: p)))).
  cbn [all]. apply andb_true_iff; split; [reflexivity |].
  apply join_all; [reflexivity |].
  apply Forall_map, Forall_forall. intros j Hj.
  apply (all_impl is_identchar); [apply identchar_is_valuechar |].
  apply identifier_text_identchars.
  apply SemVer_wf_inv in Hwf. destruct Hwf as (_ & _ & _ & _ & Hwf).
  rewrite E, forallb_forall in Hwf. apply Hwf, Hj.
Qed.

Lemma value_valuechars op v :
  SemVer_wf v = true -> all is_valuechar (value (Cmp op v)) = true.
Proof.
  intros Hwf. simpl. rewrite all_append, (version_valuechars v Hwf).
  destruct op; reflexivity.
Qed.

Lemma splitBars_none s :
  all (fun c => negb (Ascii.eqb c "|")) s = true -> splitBars s = [s].
Proof.
  induction s as [| c s IH]; [reflexivity |].
  intros H. cbn [all] in H. apply andb_true_iff in H; destruct H as [Hc Hs].
  apply negb_true_iff in Hc. cbn [splitBars]. rewrite Hc, (IH Hs).
  destruct s; reflexivity.
Qed.

Lemma splitSpacesFrom_none s :
  all (fun c => negb (is_space c)) s = true ->
  forall inSep, splitSpacesFrom inSep s = [s].
Proof.
  induction s as [| c s IH]; intros H inSep; [reflexivity |].
  cbn [all] in H. apply andb_true_iff in H; destruct H as [Hc Hs].
  apply negb_true_iff in Hc. cbn [splitSpacesFrom]. rewrite Hc, (IH Hs).
  reflexivity.
Qed.

Lemma splitSpaces_pair a b :
  all (fun c => negb (is_space c)) a = true ->
  all (fun c => negb (is_space c)) b = true ->
  splitSpaces (a ++ " " ++ b) = [a; b].
Proof.
  unfold splitSpaces. intros Ha Hb. induction a as [| c a IH].
  - simpl. rewrite (splitSpacesFrom_none b Hb). reflexivity.
  - cbn [all] in Ha. apply andb_true_iff in Ha; destruct Ha as [Hc Ha].
    apply negb_true_iff in Hc.
    change (String c a ++ " " ++ b) with (String c (a ++ " " ++ b)).
    cbn [splitSpacesFrom]. rewrite Hc, (IH Ha). reflexivity.
Qed.

Lemma trimEnd_nonspace s :
  all (fun c => negb (is_space c)) s = true -> trimEnd s = s.
Proof.
  induction s as [| c s IH]; [reflexivity |].
  intros H. cbn [all] in H. apply andb_true_iff in H; destruct H as [Hc Hs].
  apply negb_true_iff in Hc. cbn [trimEnd]. rewrite (IH Hs), Hc.
  destruct s; reflexivity.
Qed.

Lemma trimEnd_keep a b :
  trimEnd b = b -> b <> "" -> trimEnd (a ++ b) = a ++ b.
Proof.
  intros Hb Hne. induction a as [| c a IH]; [exact Hb |].
  change (String c a ++ b) with (String c (a ++ b)).
  cbn [trimEnd]. rewrite IH.
  destruct (a ++ b) eqn:E; [| reflexivity].
  destruct a; simpl in E; [contradiction | discriminate].
Qed.

Lemma append_assoc (a b c : string) : (a ++ b) ++ c = a ++ b ++ c.
Proof. induction a as [| x a IH]; simpl; [reflexivity | rewrite IH; reflexivity]. Qed.

(** A lower bound [>=lo] other than [>=0.0.0] followed by an upper bound
    [<hi] other than [<0.0.0-0]: the text is read back as this one group. *)
Lemma Range_new_interval lo hi :
  SemVer_wf lo = true -> SemVer_wf hi = true ->
  lo <> mkSemVer 0 0 0 [] -> hi <> mkSemVer 0 0 0 [Numeric 0] ->
  Range_new (groupText [Cmp OpGte lo; Cmp OpLt hi])
  = Some (mkRange (groupText [Cmp OpGte lo; Cmp OpLt hi])
                  [[Cmp OpGte lo; Cmp OpLt hi]]).
Proof.
  intros Wlo Whi Hlo Hhi.
  pose proof (value_valuechars OpGte lo Wlo) as Clo.
  pose proof (value_valuechars OpLt hi Whi) as Chi.
  pose proof (Comparator_new_value OpGte lo Wlo) as Plo.
  pose proof (Comparator_new_value OpLt hi Whi) as Phi.
  assert (Elo : String.eqb (version lo) "0.0.0" = false).
  { destruct (String.eqb (version lo) "0.0.0") eqn:E; [| reflexivity].
    apply String.eqb_eq in E. exfalso; apply Hlo.
    apply version_inj; [exact Wlo | reflexivity | exact E]. }
  assert (Ehi : String.eqb (version hi) "0.0.0-0" = false).
  { destruct (String.eqb (version hi) "0.0.0-0") eqn:E; [| reflexivity].
    apply String.eqb_eq in E. exfalso; apply Hhi.
    apply version_inj; [exact Whi | reflexivity | exact E]. }
  unfold groupText. cbn [map join].
  set (tlo := value (Cmp OpGte lo)) in *.
  set (thi := value (Cmp OpLt hi)) in *.
  assert (Slo : all (fun c => negb (is_space c)) tlo = true)
    by (apply (all_impl is_valuechar); [apply valuechar_not_space | exact Clo]).
  assert (Shi : all (fun c => negb (is_space c)) thi = true)
    by (apply (all_impl is_valuechar); [apply valuechar_not_space | exact Chi]).
  assert (Hparse : parseRange (tlo ++ " " ++ thi) = Some [Cmp OpGte lo; Cmp OpLt hi]).
  { unfold parseRange, trim.
    assert (T1 : trimStart (tlo ++ " " ++ thi) = tlo ++ " " ++ thi) by reflexivity.
    rewrite T1.
    rewrite trimEnd_keep.
    2:{ change (" " ++ thi) with (String " " thi).
        cbn [trimEnd]. rewrite (trimEnd_nonspace thi Shi). reflexivity. }
    2:{ discriminate. }
    rewrite splitSpaces_pair by assumption.
    assert (R1 : rewriteToken tlo = tlo).
    { unfold rewriteToken, tlo. simpl. rewrite Elo. reflexivity. }
    assert (R2 : rewriteToken thi = thi) by reflexivity.
    cbn [map]. rewrite R1, R2. cbn [mapO]. unfold tlo at 1, thi at 1.
    cbn [value]. rewrite Plo, Phi. cbn [obind find].
    assert (N1 : isNullSet (Cmp OpGte lo) = false) by reflexivity.
    assert (N2 : isNullSet (Cmp OpLt hi) = false).
    { unfold isNullSet. simpl. exact Ehi. }
    rewrite N1, N2. reflexivity. }
  unfold Range_new.
  rewrite splitBars_none.
  2:{ rewrite !all_append.
      rewrite (all_impl is_valuechar (fun c => negb (Ascii.eqb c "|")) tlo);
        [| intros c Hc; apply valuechar_not; [reflexivity | exact Hc] | exact Clo].
      rewrite (all_impl is_valuechar (fun c => negb (Ascii.eqb c "|")) thi);
        [| intros c Hc; apply valuechar_not; [reflexivity | exact Hc] | exact Chi].
      reflexivity. }
  cbn [mapO]. rewrite Hparse. reflexivity.
Qed.

End Roundtrip.

Lemma caretRangeText_groupText m : caretRangeText m = groupText (caretGroup m).
Proof.
  unfold caretRangeText, caretGroup, groupText, value, version.
  cbn [map join major minor patch prerelease operator_text identifier_text].
  change (show 0) with "0".
  cbn [append].
  rewrite Roundtrip.append_assoc. reflexivity.
Qed.

Lemma humanizeGroup_caret lo hi :
  (major lo + 1 = major hi)%N ->
  humanizeGroup [Cmp OpGte lo; Cmp OpLt hi] = Ok ("^" ++ version lo).
Proof.
  intros H. unfold humanizeGroup, caretLower.
  apply N.eqb_eq in H. rewrite H. reflexivity.
Qed.

(** ** C7: caret rendering *)

(** C7 fails as stated for the major version 0: the [Range] constructor
    drops the comparator [>=0.0.0] from [>=0.0.0 <1.0.0-0], the range holds
    the single comparator [<1.0.0-0], and it is rendered literally. *)
Lemma caret_of_major_zero :
  caretRangeText 0 = ">=0.0.0 <1.0.0-0" /\
  NodeSemver.Range_new ">=0.0.0 <1.0.0-0"
  = Some (mkRange ">=0.0.0 <1.0.0-0" [[Cmp OpLt (mkSemVer 1 0 0 [Numeric 0])]]) /\
  humanizeRange (Some (parsed ">=0.0.0 <1.0.0-0")) = Ok "<1.0.0-0".
Proof. repeat split; vm_compute; reflexivity. Qed.

(** The largest major version has no such text either: the number after
    it is above [MAX_SAFE_INTEGER], and the [Range] constructor throws. *)
Lemma caret_of_largest_major :
  caretRangeText NodeSemver.MAX_SAFE_INTEGER
  = ">=9007199254740991.0.0 <9007199254740992.0.0-0" /\
  NodeSemver.Comparator_new ">=9007199254740991.0.0"
  = Some (Cmp OpGte (mkSemVer 9007199254740991 0 0 [])) /\
  NodeSemver.Range_new ">=9007199254740991.0.0 <9007199254740992.0.0-0" = None.
Proof. repeat split; vm_compute; reflexivity. Qed.

(** C7, amended.  A group of exactly two comparators, [>=lo] then [<hi],
    with the major of [hi] one above that of [lo], is rendered as [^]
    followed by the version [lo]; the rendering of a range other than [*]
    is the renderings of its sorted groups joined by [ || ].  For every
    major version [m] other than 0 and below [MAX_SAFE_INTEGER], the range
    built from the text [>=m.0.0 <(m+1).0.0-0] is rendered as [^m.0.0]. *)
Theorem humanizeRange_caret :
  (forall lo hi : SemVer,
      (major lo + 1 = major hi)%N ->
      humanizeGroup [Cmp OpGte lo; Cmp OpLt hi] = Ok ("^" ++ version lo)) /\
  (forall (r : Range) (s : list group),
      String.eqb "*" (raw r) = false ->
      sortRangeSet (set r) = Ok s ->
      humanizeRange (Some r) = (res <- mapM humanizeGroup s ;; Ok (join " || " res))) /\
  (forall m : N,
      m <> 0%N ->
      (m < NodeSemver.MAX_SAFE_INTEGER)%N ->
      exists r, NodeSemver.Range_new (caretRangeText m) = Some r /\
                humanizeRange (Some r) = Ok ("^" ++ show m ++ ".0.0")).
Proof.
  split; [exact humanizeGroup_caret | split].
  - intros r s Hraw Hs. unfold humanizeRange. rewrite Hraw, Hs. reflexivity.
  - intros m Hm Hmax. rewrite caretRangeText_groupText. unfold caretGroup.
    assert (Z : (0 <= NodeSemver.MAX_SAFE_INTEGER)%N) by (apply N.le_0_l).
    rewrite Roundtrip.Range_new_interval.
    + eexists; split; [reflexivity |].
      unfold humanizeRange. cbn [raw set].
      assert (E : String.eqb "*" (groupText (caretGroup m)) = false) by reflexivity.
      unfold caretGroup in E. rewrite E.
      cbn [sortRangeSet bind mapM].
      rewrite humanizeGroup_caret by reflexivity. reflexivity.
    + apply Roundtrip.SemVer_wf_numbers; [lia | exact Z | exact Z | left; reflexivity].
    + apply Roundtrip.SemVer_wf_numbers; [lia | exact Z | exact Z | right; reflexivity].
    + intros [= H]; contradiction.
    + intros [= H]. lia.
Qed.

Lemma humanizeRange_caret_witness :
  exists r, NodeSemver.Range_new (caretRangeText 14) = Some r /\
            humanizeRange (Some r) = Ok ("^" ++ show 14 ++ ".0.0").
Proof.
  apply (proj2 (proj2 humanizeRange_caret) 14%N); [discriminate | reflexivity].
Defined.

(** ** C4: alignment to a minimum version *)

(** C4 fails as stated: the group [>=1.0.0 <3.0.0-0] has a lower bound of
    major 1, below the major of the minimum version 2.5.0, and is dropped,
    although version 2.7.0 is in it and is at or above 2.5.0. *)
Lemma group_below_floor_is_dropped :
  applyMinVersionToRangeSet (L := node_semver)
    [[Cmp OpGte (mkSemVer 1 0 0 []); Cmp OpLt (mkSemVer 3 0 0 [Numeric 0])]]
    (mkSemVer 2 5 0 [])
  = Ok [] /\
  inUnion [[Cmp OpGte (mkSemVer 1 0 0 []); Cmp OpLt (mkSemVer 3 0 0 [Numeric 0])]]
          (mkSemVer 2 7 0 []) = true /\
  gte (mkSemVer 2 7 0 []) (mkSemVer 2 5 0 []) = true /\
  inUnion [] (mkSemVer 2 7 0 []) = false.
Proof. repeat split; vm_compute; reflexivity. Qed.

Module Alignment.
Import Precedence Roundtrip.

Lemma inGroup_lower lo rest v :
  inGroup (Cmp OpGte lo :: rest) v = gte v lo && inGroup rest v.
Proof. reflexivity. Qed.

(** A group kept by the filter is clipped at the minimum version. *)
Lemma alignGroup_clips m lo rest :
  SemVer_wf m = true ->
  (major m <= major lo)%N ->
  exists g',
    alignGroup (L := node_semver) m (Cmp OpGte lo :: rest) = Ok g' /\
    forall v, inGroup g' v = inGroup (Cmp OpGte lo :: rest) v && gte v m.
Proof.
  intros Hwf Hmajor. unfold alignGroup. cbn [semver operator].
  destruct ((major lo =? major m)%N && gte m lo) eqn:C.
  - unfold SemVer_raw.
    change (@Comparator_new node_semver) with NodeSemver.Comparator_new.
    rewrite (Comparator_new_value OpGte m Hwf). cbn [orThrow bind].
    eexists; split; [reflexivity |]. intros v.
    rewrite !inGroup_lower.
    apply andb_true_iff in C; destruct C as [_ C].
    destruct (gte v m) eqn:G.
    + rewrite (gte_trans v m lo G C). rewrite andb_true_r. reflexivity.
    + rewrite andb_false_r. reflexivity.
  - eexists; split; [reflexivity |]. intros v.
    assert (Hlt : compare m lo = Lt).
    { apply andb_false_iff in C; destruct C as [C | C].
      - apply major_lt_compare. apply N.eqb_neq in C. lia.
      - apply gte_false_lt, C. }
    rewrite inGroup_lower.
    destruct (gte v lo) eqn:G; [| reflexivity].
    rewrite (gte_trans v lo m G (gte_of_gt _ _ Hlt)).
    rewrite andb_true_r. reflexivity.
Qed.

(** A dropped group that ends within its major has nothing at or above
    the minimum version. *)
Lemma dropped_group_is_below m lo rest v :
  (major lo < major m)%N ->
  endsWithinMajor (Cmp OpGte lo :: rest) = true ->
  inGroup (Cmp OpGte lo :: rest) v && gte v m = false.
Proof.
  intros Hmajor Hends. cbn [endsWithinMajor] in Hends.
  apply existsb_exists in Hends. destruct Hends as [c [Hin Hc]].
  destruct c as [| [] hi]; try discriminate.
  destruct (inGroup (Cmp OpGte lo :: rest) v) eqn:G; [| reflexivity].
  destruct (gte v m) eqn:Gm; [| reflexivity]. exfalso.
  rewrite inGroup_lower in G. apply andb_true_iff in G; destruct G as [_ G].
  unfold inGroup in G. rewrite forallb_forall in G. specialize (G _ Hin).
  cbn [Comparator_test cmp] in G. unfold lt in G.
  destruct (compare v hi) eqn:Evh; try discriminate.
  assert (Hx : gte m (mkSemVer (major lo + 1) 0 0 [Numeric 0]) = true)
    by (apply lowest_of_major; lia).
  assert (Hh : gte (mkSemVer (major lo + 1) 0 0 [Numeric 0]) hi = true).
  { unfold lte in Hc. unfold gte. rewrite compare_antisym.
    destruct (compare hi (mkSemVer (major lo + 1) 0 0 [Numeric 0]));
      [reflexivity | reflexivity | discriminate]. }
  pose proof (gte_trans _ _ _ (gte_trans _ _ _ Gm Hx) Hh) as Hv.
  unfold gte in Hv. rewrite Evh in Hv. discriminate.
Qed.

Lemma aligned_union s m :
  SemVer_wf m = true ->
  forallb (alignable m) s = true ->
  exists kept s',
    filterM (keepsGroup m) s = Ok kept /\
    mapM (alignGroup (L := node_semver) m) kept = Ok s' /\
    forall v, inUnion s' v = inUnion s v && gte v m.
Proof.
  intros Hwf. induction s as [| g s IH]; intros Hs.
  - exists [], []. repeat split; reflexivity.
  - cbn [forallb] in Hs. apply andb_true_iff in Hs; destruct Hs as [Hg Hs].
    destruct (IH Hs) as [kept [s' [Hk [Hm Hu]]]].
    destruct g as [| [| [] lo] rest]; try discriminate Hg.
    cbn [alignable] in Hg. cbn [filterM keepsGroup semver]. rewrite Hk.
    cbn [bind].
    destruct (major m <=? major lo)%N eqn:Hle.
    + apply N.leb_le in Hle.
      destruct (alignGroup_clips m lo rest Hwf Hle) as [g' [Hg' Hin]].
      exists ((Cmp OpGte lo :: rest) :: kept), (g' :: s').
      split; [reflexivity |]. split.
      * cbn [mapM]. rewrite Hg', Hm. reflexivity.
      * intros v. cbn [inUnion existsb]. fold (inUnion s' v) (inUnion s v).
        rewrite Hin, Hu, andb_orb_distrib_l. reflexivity.
    + apply N.leb_gt in Hle. cbn [orb] in Hg.
      exists kept, s'. split; [reflexivity |]. split; [exact Hm |].
      intros v. cbn [inUnion existsb]. fold (inUnion s v).
      rewrite andb_orb_distrib_l, (dropped_group_is_below m lo rest v Hle Hg), Hu.
      reflexivity.
Qed.

End Alignment.

(** C4, amended.  For a group list in which every group starts with a
    lower bound [>=lo] and, when the major of [lo] is below that of the
    minimum version, has an upper bound [<hi] no higher than the start of
    the next major, the union of intervals of
    [applyMinVersionToRangeSet set minVersion] is the union of [set]
    clipped at [minVersion]. *)
Theorem applyMinVersionToRangeSet_clips :
  forall (s : list group) (minVersion : SemVer),
    SemVer_wf minVersion = true ->
    forallb (alignable minVersion) s = true ->
    exists s',
      applyMinVersionToRangeSet (L := node_semver) s minVersion = Ok s' /\
      forall v, inUnion s' v = inUnion s v && gte v minVersion.
Proof.
  intros s m Hwf Hs.
  destruct (Alignment.aligned_union s m Hwf Hs) as [kept [s' [Hk [Hm Hu]]]].
  exists s'. split; [| exact Hu].
  unfold applyMinVersionToRangeSet. rewrite Hk. exact Hm.
Qed.

Lemma applyMinVersionToRangeSet_clips_witness :
  exists s',
    applyMinVersionToRangeSet (L := node_semver)
      (set (parsed ">=12.22.0 <13.0.0-0||>=14.13.0 <15.0.0-0||>=16.10.0"))
      (mkSemVer 14 17 0 []) = Ok s' /\
    forall v,
      inUnion s' v
      = inUnion (set (parsed ">=12.22.0 <13.0.0-0||>=14.13.0 <15.0.0-0||>=16.10.0")) v
        && gte v (mkSemVer 14 17 0 []).
Proof.
  apply (applyMinVersionToRangeSet_clips
           (set (parsed ">=12.22.0 <13.0.0-0||>=14.13.0 <15.0.0-0||>=16.10.0"))
           (mkSemVer 14 17 0 [])); vm_compute; reflexivity.
Defined.

(** * Further properties of the code *)

(** ** The sort of [sortRangeSet] *)

Module SortFacts.
Import Precedence.

Lemma compareGroups_trans a b c :
  keyed a = true -> keyed b = true -> keyed c = true ->
  notAbove a b -> notAbove b c -> notAbove a c.
Proof.
  unfold notAbove, keyed, compareGroups.
  destruct (sortKey a) as [x |]; [| discriminate].
  destruct (sortKey b) as [y |]; [| discriminate].
  destruct (sortKey c) as [z |]; [| discriminate].
  intros _ _ _ Hxy Hyz Hxz.
  assert (G1 : gte y x = true).
  { unfold gte. rewrite compare_antisym. destruct (compare x y); try reflexivity.
    contradiction. }
  assert (G2 : gte z y = true).
  { unfold gte. rewrite compare_antisym. destruct (compare y z); try reflexivity.
    contradiction. }
  pose proof (gte_trans _ _ _ G2 G1) as G.
  unfold gte in G. rewrite compare_antisym, Hxz in G. discriminate.
Qed.

Lemma compareGroups_flip a b :
  compareGroups a b = Gt -> notAbove b a.
Proof.
  unfold notAbove, compareGroups.
  destruct (sortKey a) as [x |]; [| discriminate].
  destruct (sortKey b) as [y |]; [| discriminate].
  intros H. rewrite compare_antisym, H. discriminate.
Qed.

Lemma insertGroup_perm g l : Permutation.Permutation (g :: l) (insertGroup g l).
Proof.
  induction l as [| h t IH]; simpl.
  - apply Permutation.Permutation_refl.
  - destruct (compareGroups g h).
    + apply Permutation.Permutation_refl.
    + apply Permutation.Permutation_refl.
    + eapply Permutation.perm_trans; [apply Permutation.perm_swap |].
      apply Permutation.perm_skip, IH.
Qed.

Lemma sortGroups_perm l : Permutation.Permutation l (sortGroups l).
Proof.
  induction l as [| g t IH]; simpl.
  - apply Permutation.perm_nil.
  - eapply Permutation.perm_trans; [| apply insertGroup_perm].
    apply Permutation.perm_skip, IH.
Qed.

Lemma insertGroup_sorted g l :
  keyed g = true -> forallb keyed l = true ->
  Sorted.StronglySorted notAbove l ->
  Sorted.StronglySorted notAbove (insertGroup g l).
Proof.
  intros Hg Hl Hs. induction Hs as [| h t Ht IH Hh]; simpl.
  - constructor; [constructor | constructor].
  - cbn [forallb] in Hl. apply andb_true_iff in Hl; destruct Hl as [Kh Kt].
    destruct (compareGroups g h) eqn:E.
    + constructor; [constructor; assumption |].
      assert (Hgh : notAbove g h) by (unfold notAbove; rewrite E; discriminate).
      constructor; [exact Hgh |].
      rewrite Forall_forall in *. intros x Hx.
      apply (compareGroups_trans g h x); try assumption.
      * rewrite forallb_forall in Kt. apply Kt, Hx.
      * apply Hh, Hx.
    + constructor; [constructor; assumption |].
      assert (Hgh : notAbove g h) by (unfold notAbove; rewrite E; discriminate).
      constructor; [exact Hgh |].
      rewrite Forall_forall in *. intros x Hx.
      apply (compareGroups_trans g h x); try assumption.
      * rewrite forallb_forall in Kt. apply Kt, Hx.
      * apply Hh, Hx.
    + constructor; [apply IH, Kt |].
      rewrite Forall_forall in *. intros x Hx.
      apply (Permutation.Permutation_in x (Permutation.Permutation_sym (insertGroup_perm g t))) in Hx.
      destruct Hx as [<- | Hx]; [apply compareGroups_flip, E | apply Hh, Hx].
Qed.

Lemma forallb_perm {A : Type} (p : A -> bool) l l' :
  Permutation.Permutation l l' -> forallb p l = forallb p l'.
Proof.
  induction 1; simpl.
  - reflexivity.
  - rewrite IHPermutation; reflexivity.
  - destruct (p x), (p y); reflexivity.
  - congruence.
Qed.

Lemma sortGroups_sorted l :
  forallb keyed l = true -> Sorted.StronglySorted notAbove (sortGroups l).
Proof.
  induction l as [| g t IH]; simpl; intros H.
  - constructor.
  - apply andb_true_iff in H; destruct H as [Hg Ht].
    apply insertGroup_sorted; [exact Hg | | apply IH, Ht].
    rewrite <- (forallb_perm keyed _ _ (sortGroups_perm t)). exact Ht.
Qed.

(** A sorted list is left as it is. *)
Lemma sortGroups_fixed l :
  Sorted.StronglySorted notAbove l -> sortGroups l = l.
Proof.
  induction 1 as [| g t Ht IH Hg]; simpl; [reflexivity |].
  rewrite IH. destruct t as [| h t']; [reflexivity |].
  simpl. apply Forall_inv in Hg. unfold notAbove in Hg.
  destruct (compareGroups g h); [reflexivity | reflexivity | contradiction].
Qed.

Lemma startsAt_not_passed v g h :
  startsAt v g = true -> compareGroups g h = Gt -> startsAt v h = false.
Proof.
  unfold startsAt, compareGroups.
  destruct (sortKey g) as [x |]; [| discriminate].
  destruct (sortKey h) as [y |]; [| reflexivity].
  unfold eq. intros Hx Hgt.
  destruct (compare x v) eqn:Exv; try discriminate. apply compare_eq in Exv; subst x.
  destruct (compare y v) eqn:Eyv; try reflexivity. apply compare_eq in Eyv; subst y.
  rewrite compare_refl in Hgt. discriminate.
Qed.

Lemma filter_insertGroup v g l :
  filter (startsAt v) (insertGroup g l) = filter (startsAt v) (g :: l).
Proof.
  induction l as [| h t IH]; [reflexivity |].
  cbn [insertGroup]. destruct (compareGroups g h) eqn:E; try reflexivity.
  cbn [filter] in *. rewrite IH.
  destruct (startsAt v g) eqn:Sg; [| reflexivity].
  rewrite (startsAt_not_passed v g h Sg E). reflexivity.
Qed.

Lemma filter_sortGroups v l :
  filter (startsAt v) (sortGroups l) = filter (startsAt v) l.
Proof.
  induction l as [| g t IH]; [reflexivity |].
  cbn [sortGroups]. rewrite filter_insertGroup. cbn [filter]. rewrite IH. reflexivity.
Qed.

Lemma sortRangeSet_cases s s' :
  sortRangeSet s = Ok s' ->
  (s' = s /\ (List.length s <= 1)%nat) \/ (s' = sortGroups s /\ forallb keyed s = true).
Proof.
  unfold sortRangeSet. destruct s as [| g [| h t]].
  - intros [= <-]; left; split; [reflexivity | simpl; lia].
  - intros [= <-]; left; split; [reflexivity | simpl; lia].
  - fold (keyed). change (fun g0 : group => match sortKey g0 with
                                            | Some _ => true
                                            | None => false
                                            end) with keyed.
    destruct (forallb keyed (g :: h :: t)) eqn:K; [| discriminate].
    intros [= <-]; right; split; reflexivity.
Qed.

Lemma short_sorted (s : list group) :
  (List.length s <= 1)%nat -> Sorted.StronglySorted notAbove s.
Proof.
  destruct s as [| g [| h t]]; simpl; intros H.
  - constructor.
  - constructor; constructor.
  - lia.
Qed.

Lemma sortRangeSet_perm_sorted s s' :
  sortRangeSet s = Ok s' ->
  Permutation.Permutation s s' /\ Sorted.StronglySorted notAbove s'.
Proof.
  intros H. apply sortRangeSet_cases in H.
  destruct H as [[-> Hlen] | [-> K]].
  - split; [apply Permutation.Permutation_refl | apply short_sorted, Hlen].
  - split; [apply sortGroups_perm | apply sortGroups_sorted, K].
Qed.

End SortFacts.

(** X1.  When [sortRangeSet] returns, its result holds the groups of the
    input, each as often as the input does, in an order in which no group
    comes after a group that the comparison function puts behind it. *)
Theorem sortRangeSet_sorts :
  forall (s s' : list group),
    sortRangeSet s = Ok s' ->
    Permutation.Permutation s s' /\ Sorted.StronglySorted notAbove s'.
Proof.
  intros s s' H. apply SortFacts.sortRangeSet_perm_sorted, H.
Qed.

Lemma sortRangeSet_sorts_witness :
  Permutation.Permutation
    (set (parsed ">=16.10.0 <17.0.0-0||>=14.17.0 <15.0.0-0"))
    (set (parsed ">=14.17.0 <15.0.0-0||>=16.10.0 <17.0.0-0")) /\
  Sorted.StronglySorted notAbove
    (set (parsed ">=14.17.0 <15.0.0-0||>=16.10.0 <17.0.0-0")).
Proof.
  apply (sortRangeSet_sorts
           (set (parsed ">=16.10.0 <17.0.0-0||>=14.17.0 <15.0.0-0"))
           (set (parsed ">=14.17.0 <15.0.0-0||>=16.10.0 <17.0.0-0"))).
  vm_compute; reflexivity.
Defined.

(** X2.  The sort is stable: the groups whose first comparators carry
    equal versions come in the result in the order they have in the
    input. *)
Theorem sortRangeSet_stable :
  forall (s s' : list group) (v : SemVer),
    sortRangeSet s = Ok s' ->
    filter (startsAt v) s' = filter (startsAt v) s.
Proof.
  intros s s' v H. apply SortFacts.sortRangeSet_cases in H.
  destruct H as [[-> _] | [-> _]]; [reflexivity | apply SortFacts.filter_sortGroups].
Qed.

Lemma sortRangeSet_stable_witness :
  filter (startsAt (mkSemVer 14 0 0 []))
    (set (parsed ">=12.0.0||>=14.0.0 <15.0.0-0||>=14.0.0 <14.5.0||>=14.0.0||>=16.0.0"))
  = filter (startsAt (mkSemVer 14 0 0 []))
      (set (parsed ">=16.0.0||>=14.0.0 <15.0.0-0||>=14.0.0 <14.5.0||>=12.0.0||>=14.0.0")).
Proof.
  apply (sortRangeSet_stable
           (set (parsed ">=16.0.0||>=14.0.0 <15.0.0-0||>=14.0.0 <14.5.0||>=12.0.0||>=14.0.0"))
           _ (mkSemVer 14 0 0 [])).
  vm_compute; reflexivity.
Defined.

(** X3.  Sorting twice is sorting once: the result of [sortRangeSet] is
    returned unchanged by [sortRangeSet]. *)
Theorem sortRangeSet_idempotent :
  forall (s s' : list group),
    sortRangeSet s = Ok s' -> sortRangeSet s' = Ok s'.
Proof.
  intros s s' H. pose proof (SortFacts.sortRangeSet_perm_sorted s s' H) as [Hp Hs].
  apply SortFacts.sortRangeSet_cases in H.
  destruct H as [[-> Hlen] | [E K]].
  - destruct s as [| g [| h t]]; [reflexivity | reflexivity | simpl in Hlen; lia].
  - rewrite (SortFacts.forallb_perm _ _ _ Hp) in K.
    unfold sortRangeSet. destruct s' as [| g [| h t]]; [reflexivity | reflexivity |].
    change (fun g0 : group => match sortKey g0 with
                              | Some _ => true
                              | None => false
                              end) with keyed.
    rewrite K, (SortFacts.sortGroups_fixed _ Hs). reflexivity.
Qed.

Lemma sortRangeSet_idempotent_witness :
  sortRangeSet (set (parsed ">=14.17.0 <15.0.0-0||>=16.10.0 <17.0.0-0"))
  = Ok (set (parsed ">=14.17.0 <15.0.0-0||>=16.10.0 <17.0.0-0")).
Proof.
  apply (sortRangeSet_idempotent
           (set (parsed ">=16.10.0 <17.0.0-0||>=14.17.0 <15.0.0-0"))).
  vm_compute; reflexivity.
Defined.

(** ** Reading back the text of a group list *)

Module Rebuild.
Import NodeSemver Roundtrip.

Lemma splitBars_cons c s :
  nobar c = true ->
  splitBars (String c s)
  = match splitBars s with
    | h :: t => String c h :: t
    | [] => [String c EmptyString]
    end.
Proof.
  unfold nobar. intros H. apply negb_true_iff in H. cbn [splitBars]. rewrite H.
  destruct s; reflexivity.
Qed.

Lemma splitBars_append a rest :
  all nobar a = true -> splitBars (a ++ "||" ++ rest) = a :: splitBars rest.
Proof.
  induction a as [| c a IH]; intros H.
  - reflexivity.
  - cbn [all] in H. apply andb_true_iff in H; destruct H as [Hc Ha].
    change (String c a ++ "||" ++ rest) with (String c (a ++ "||" ++ rest)).
    rewrite (splitBars_cons c _ Hc), (IH Ha). reflexivity.
Qed.

Lemma splitBars_join texts :
  texts <> [] -> Forall (fun t => all nobar t = true) texts ->
  splitBars (join "||" texts) = texts.
Proof.
  induction texts as [| t texts IH]; [contradiction |]. intros _ H.
  inversion H as [| ? ? Ht Hts]; subst.
  destruct texts as [| t' texts].
  - cbn [join]. apply splitBars_none. exact Ht.
  - change (join "||" (t :: t' :: texts)) with (t ++ "||" ++ join "||" (t' :: texts)).
    rewrite (splitBars_append t _ Ht), IH; [reflexivity | discriminate | exact Hts].
Qed.

Lemma splitSpacesFrom_start inSep c s :
  nonspace c = true ->
  splitSpacesFrom inSep (String c s) = splitSpacesFrom false (String c s).
Proof.
  unfold nonspace. intros H. apply negb_true_iff in H. cbn [splitSpacesFrom].
  rewrite H. reflexivity.
Qed.

Lemma splitSpacesFrom_append a rest :
  all nonspace a = true ->
  splitSpacesFrom false (a ++ " " ++ rest) = a :: splitSpacesFrom true rest.
Proof.
  induction a as [| c a IH]; intros H.
  - reflexivity.
  - cbn [all] in H. apply andb_true_iff in H; destruct H as [Hc Ha].
    change (String c a ++ " " ++ rest) with (String c (a ++ " " ++ rest)).
    cbn [splitSpacesFrom]. unfold nonspace in Hc. apply negb_true_iff in Hc.
    rewrite Hc, (IH Ha). reflexivity.
Qed.

Lemma splitSpaces_join texts :
  texts <> [] ->
  Forall (fun t => all nonspace t = true /\ t <> "") texts ->
  splitSpaces (join " " texts) = texts.
Proof.
  unfold splitSpaces. induction texts as [| t texts IH]; [contradiction |]. intros _ H.
  inversion H as [| ? ? [Ht Hne] Hts]; subst.
  destruct texts as [| t' texts].
  - cbn [join]. apply splitSpacesFrom_none. exact Ht.
  - change (join " " (t :: t' :: texts)) with (t ++ " " ++ join " " (t' :: texts)).
    rewrite (splitSpacesFrom_append t _ Ht).
    assert (Hstart : exists c s, join " " (t' :: texts) = String c s /\ nonspace c = true).
    { inversion Hts as [| ? ? [Ht' Hne'] _]; subst.
      destruct t' as [| c t']; [contradiction |].
      cbn [all] in Ht'. apply andb_true_iff in Ht'. destruct Ht' as [Hc _].
      destruct texts; eexists; eexists; (split; [reflexivity | exact Hc]). }
    destruct Hstart as [c [s [E Hc]]].
    rewrite E, (splitSpacesFrom_start true c s Hc), <- E.
    rewrite IH; [reflexivity | discriminate | exact Hts].
Qed.

Lemma printable_Cmp c : printable c = true -> exists op v, c = Cmp op v /\ SemVer_wf v = true.
Proof.
  destruct c as [| op v]; [discriminate |]. cbn [printable]. intros H.
  apply andb_true_iff in H; destruct H as [H _].
  apply andb_true_iff in H; destruct H as [H _]. eauto.
Qed.

Lemma printable_nonspace c :
  printable c = true -> all nonspace (value c) = true /\ value c <> "".
Proof.
  intros H. destruct (printable_Cmp c H) as [op [v [-> Hwf]]]. split.
  - apply (all_impl is_valuechar); [apply valuechar_not_space |].
    apply value_valuechars, Hwf.
  - simpl. pose proof (version_starts_with_digit v) as Hd.
    destruct (version v); [discriminate |]. destruct op; discriminate.
Qed.

Lemma printable_nobar c : printable c = true -> all nobar (value c) = true.
Proof.
  intros H. destruct (printable_Cmp c H) as [op [v [-> Hwf]]].
  apply (all_impl is_valuechar); [| apply value_valuechars, Hwf].
  intros x Hx. apply valuechar_not; [reflexivity | exact Hx].
Qed.

Lemma printable_read c : printable c = true -> Comparator_new (rewriteToken (value c)) = Some c.
Proof.
  intros H. destruct (printable_Cmp c H) as [op [v [-> Hwf]]].
  cbn [printable] in H.
  apply andb_true_iff in H; destruct H as [H _].
  apply andb_true_iff in H; destruct H as [_ H]. apply negb_true_iff in H.
  unfold rewriteToken. rewrite H.
  assert (Hstar : String.eqb (value (Cmp op v)) "*" = false).
  { simpl. pose proof (version_starts_with_digit v) as Hd.
    destruct (version v) as [| d t]; [discriminate |]. simpl in Hd.
    destruct op; simpl; try reflexivity.
    destruct (Ascii.eqb d "*") eqn:E; [| reflexivity].
    apply Ascii.eqb_eq in E. subst d. discriminate Hd. }
  rewrite Hstar. apply Comparator_new_value, Hwf.
Qed.

Lemma mapO_read g :
  forallb printable g = true ->
  mapO Comparator_new (map rewriteToken (map value g)) = Some g.
Proof.
  induction g as [| c g IH]; [reflexivity |]. cbn [forallb]. intros H.
  apply andb_true_iff in H; destruct H as [Hc Hg].
  cbn [map mapO]. rewrite (printable_read c Hc), (IH Hg). reflexivity.
Qed.

Lemma find_isNullSet g : forallb printable g = true -> find isNullSet g = None.
Proof.
  induction g as [| c g IH]; [reflexivity |]. cbn [forallb find]. intros H.
  apply andb_true_iff in H; destruct H as [Hc Hg].
  destruct c as [| op v]; [discriminate |]. cbn [printable] in Hc.
  apply andb_true_iff in Hc; destruct Hc as [_ Hc]. apply negb_true_iff in Hc.
  unfold isNullSet. rewrite Hc. apply IH, Hg.
Qed.

Lemma existsb_isAny g : forallb printable g = true -> existsb isAny g = false.
Proof.
  induction g as [| c g IH]; [reflexivity |]. cbn [forallb existsb]. intros H.
  apply andb_true_iff in H; destruct H as [Hc Hg].
  rewrite (IH Hg), orb_false_r. unfold isAny.
  destruct (printable_nonspace c Hc) as [_ Hne].
  destruct (value c); [contradiction | reflexivity].
Qed.

Lemma dedupe_distinct g : forall seen,
  NoDup (map value g) ->
  (forall c, In c g -> ~ In (value c) seen) ->
  dedupe seen g = g.
Proof.
  induction g as [| c g IH]; intros seen Hnd Hseen; [reflexivity |].
  cbn [map] in Hnd. inversion Hnd as [| ? ? Hnin Hnd']; subst.
  cbn [dedupe].
  assert (E : existsb (String.eqb (value c)) seen = false).
  { destruct (existsb (String.eqb (value c)) seen) eqn:E; [| reflexivity].
    apply existsb_exists in E. destruct E as [x [Hx E]]. apply String.eqb_eq in E.
    subst x. exfalso. apply (Hseen c); [left; reflexivity | exact Hx]. }
  rewrite E. f_equal. apply IH; [exact Hnd' |].
  intros c' Hc' [Heq | Hin].
  - apply Hnin. rewrite Heq. apply in_map, Hc'.
  - apply (Hseen c'); [right; exact Hc' | exact Hin].
Qed.

Lemma trim_groupText g :
  g <> [] -> forallb printable g = true -> trim (groupText g) = groupText g.
Proof.
  intros Hne Hp. unfold trim, groupText.
  assert (Hall : all nonspace (join " " (map value g)) = false
                 \/ True) by (right; exact I). clear Hall.
  assert (Hstart : startsWith nonspace (join " " (map value g)) = true).
  { destruct g as [| c g]; [contradiction |]. cbn [forallb] in Hp.
    apply andb_true_iff in Hp; destruct Hp as [Hc _].
    destruct (printable_nonspace c Hc) as [Hs Hn].
    cbn [map]. destruct (value c) as [| x t] eqn:E; [contradiction |].
    cbn [all] in Hs. apply andb_true_iff in Hs. destruct Hs as [Hx _].
    destruct (map value g); exact Hx. }
  assert (T1 : trimStart (join " " (map value g)) = join " " (map value g)).
  { destruct (join " " (map value g)) as [| x t]; [reflexivity |].
    simpl in Hstart. unfold nonspace in Hstart. apply negb_true_iff in Hstart.
    simpl. rewrite Hstart. reflexivity. }
  rewrite T1. clear T1 Hstart.
  induction g as [| c g IH]; [contradiction |].
  cbn [forallb] in Hp. apply andb_true_iff in Hp; destruct Hp as [Hc Hg].
  destruct (printable_nonspace c Hc) as [Hs Hn].
  destruct g as [| c' g].
  - cbn [map join]. apply trimEnd_nonspace. exact Hs.
  - change (join " " (map value (c :: c' :: g)))
      with (value c ++ " " ++ join " " (map value (c' :: g))).
    apply trimEnd_keep.
    + change (" " ++ join " " (map value (c' :: g)))
        with (String " " (join " " (map value (c' :: g)))).
      cbn [trimEnd]. rewrite IH; [| discriminate | exact Hg].
      cbn [forallb] in Hg. apply andb_true_iff in Hg. destruct Hg as [Hc' _].
      destruct (printable_nonspace c' Hc') as [_ Hn'].
      cbn [map]. destruct (value c') eqn:E; [contradiction |].
      destruct (map value g); reflexivity.
    + discriminate.
Qed.

Lemma parseRange_groupText g :
  printableGroup g -> parseRange (groupText g) = Some g.
Proof.
  intros [Hne [Hp Hnd]]. unfold parseRange.
  rewrite (trim_groupText g Hne Hp). unfold groupText.
  rewrite splitSpaces_join.
  - rewrite (mapO_read g Hp). cbn [obind].
    rewrite (find_isNullSet g Hp), (dedupe_distinct g [] Hnd (fun _ _ H => H)).
    rewrite (existsb_isAny g Hp), andb_false_r. reflexivity.
  - destruct g; [contradiction | discriminate].
  - apply Forall_map, Forall_forall. intros c Hc.
    rewrite forallb_forall in Hp. apply printable_nonspace, Hp, Hc.
Qed.

Lemma groupText_nobar g : forallb printable g = true -> all nobar (groupText g) = true.
Proof.
  intros Hp. unfold groupText. apply join_all; [reflexivity |].
  apply Forall_map, Forall_forall. intros c Hc.
  rewrite forallb_forall in Hp. apply printable_nobar, Hp, Hc.
Qed.

Lemma mapO_parseRange s :
  Forall printableGroup s -> mapO parseRange (map groupText s) = Some s.
Proof.
  induction 1 as [| g s Hg _ IH]; [reflexivity |].
  cbn [map mapO]. rewrite (parseRange_groupText g Hg), IH. reflexivity.
Qed.

Lemma filter_all {A : Type} (p : A -> bool) l :
  Forall (fun a => p a = true) l -> filter p l = l.
Proof.
  induction 1 as [| a l Ha _ IH]; [reflexivity |]. simpl. rewrite Ha, IH. reflexivity.
Qed.

Lemma no_any_group s : Forall printableGroup s -> find isAnyGroup s = None.
Proof.
  induction 1 as [| x l [Hne [Hp _]] _ IH]; [reflexivity |].
  cbn [find]. assert (E : isAnyGroup x = false).
  { destruct x as [| c [| c' x]]; try reflexivity. cbn [isAnyGroup].
    cbn [forallb] in Hp. rewrite andb_true_r in Hp.
    pose proof (existsb_isAny [c]) as Hx. cbn [forallb existsb] in Hx.
    rewrite andb_true_r, orb_false_r in Hx. apply Hx, Hp. }
  rewrite E. exact IH.
Qed.

Lemma heads_not_null s :
  Forall printableGroup s -> filter (fun c => negb (headIsNullSet c)) s = s.
Proof.
  intros H. apply filter_all. eapply Forall_impl; [| exact H]. intros x [Hne [Hp _]].
  destruct x as [| c x]; [contradiction |]. cbn [headIsNullSet].
  cbn [forallb] in Hp. apply andb_true_iff in Hp. destruct Hp as [Hc _].
  destruct c as [| op v]; [discriminate |]. cbn [printable] in Hc.
  apply andb_true_iff in Hc; destruct Hc as [_ Hc]. exact Hc.
Qed.

Lemma normalizeSet_printable s : Forall printableGroup s -> normalizeSet s = s.
Proof.
  intros H. destruct s as [| g [| h t]]; try reflexivity.
  unfold normalizeSet.
  rewrite (heads_not_null (g :: h :: t) H). cbv beta iota.
  pose proof (no_any_group (g :: h :: t) H) as F. unfold group in F.
  rewrite F. reflexivity.
Qed.

Lemma Range_new_setText s :
  s <> [] -> Forall printableGroup s ->
  Range_new (setText s) = Some (mkRange (setText s) s).
Proof.
  intros Hne H. unfold Range_new, setText.
  rewrite splitBars_join.
  - rewrite (mapO_parseRange s H). cbn [obind].
    rewrite filter_all.
    + pose proof (normalizeSet_printable s H) as N.
      destruct s as [| g s']; [contradiction |]. cbv beta iota.
      apply f_equal, f_equal. exact N.
    + eapply Forall_impl; [| exact H]. intros g [Hg _].
      destruct g; [contradiction | reflexivity].
  - destruct s; [contradiction | discriminate].
  - apply Forall_map. eapply Forall_impl; [| exact H].
    intros g [_ [Hp _]]. apply groupText_nobar, Hp.
Qed.

End Rebuild.

(** X4.  [setToRange] rebuilds a group list as it is: for a list that is
    not empty, of groups that are not empty, whose comparators carry
    versions, have distinct texts within a group and are neither [>=0.0.0]
    nor [<0.0.0-0], the range that [setToRange] returns has exactly these
    groups, and its raw text is their texts joined by [||]. *)
Theorem setToRange_rebuilds :
  forall (s : list group),
    s <> [] ->
    Forall printableGroup s ->
    setToRange (L := node_semver) s = Ok (mkRange (setText s) s).
Proof.
  intros s Hne H. unfold setToRange.
  change (@Range_new node_semver) with NodeSemver.Range_new.
  rewrite (Rebuild.Range_new_setText s Hne H). reflexivity.
Qed.

Lemma setToRange_rebuilds_witness :
  setToRange (L := node_semver)
    (set (parsed ">=14.17.0 <15.0.0-0||>=16.10.0 <17.0.0-0||>=18.0.0-rc.1"))
  = Ok (mkRange
          (setText (set (parsed ">=14.17.0 <15.0.0-0||>=16.10.0 <17.0.0-0||>=18.0.0-rc.1")))
          (set (parsed ">=14.17.0 <15.0.0-0||>=16.10.0 <17.0.0-0||>=18.0.0-rc.1"))).
Proof.
  apply (setToRange_rebuilds
           (set (parsed ">=14.17.0 <15.0.0-0||>=16.10.0 <17.0.0-0||>=18.0.0-rc.1"))).
  - discriminate.
  - repeat constructor; try discriminate; try reflexivity;
      simpl; intuition discriminate.
Defined.

(** ** C5: the head of the first range wins *)

(** C5 fails as stated: [<2.0.0] and [*] have the same minimum version
    0.0.0 and neither passes [semver.subset] against the other; the lowest
    group of the first range is [<2.0.0], yet the only group of the result
    is [ANY], because the [Range] constructor reduces the rebuilt text
    [<2.0.0||] to the universal range. *)
Lemma rebuilt_head_is_lost :
  NodeSemver.subset (parsed "<2.0.0") (parsed "*") = false /\
  NodeSemver.subset (parsed "*") (parsed "<2.0.0") = false /\
  NodeSemver.minVersion (parsed "<2.0.0") = Some (mkSemVer 0 0 0 []) /\
  NodeSemver.minVersion (parsed "*") = Some (mkSemVer 0 0 0 []) /\
  sortRangeSet (set (parsed "<2.0.0")) = Ok [[Cmp OpLt (mkSemVer 2 0 0 [])]] /\
  restrictiveRange (L := node_semver) 2 (parsed "<2.0.0") (parsed "*") []
  = Ok (mkRange "<2.0.0||" [[ANY]], [""]).
Proof. repeat split; vm_compute; reflexivity. Qed.

(** C5, amended.  Take two ranges with equal minimum versions, neither a
    subset of the other, and the head that [restrictiveRange] chooses: the
    lowest group of [r1]'s sorted list when that list is not empty, the
    lowest group of [r2]'s sorted list only when it is empty.  When the
    recursive call on the two remainders returns, and the list made of the
    head and of the sorted groups of what it returns is one that the
    [Range] constructor reads back as it is (no empty group, comparators
    with versions, distinct within a group, neither [>=0.0.0] nor
    [<0.0.0-0]), then [restrictiveRange] returns a range whose groups are
    exactly this list: its first group is the chosen head. *)
Theorem restrictiveRange_first_head_wins :
  forall (fuel : nat) (r1 r2 : Range) (ignoredRanges : list string)
         (m1 m2 : SemVer) (s1 s2 : list group) (minComp : group)
         (newR1 newR2 newRange : Range) (ignoredRanges' : list string)
         (rest : list group),
    NodeSemver.subset r1 r2 = false ->
    NodeSemver.subset r2 r1 = false ->
    minVersionOrStar (L := node_semver) r1 = Ok m1 ->
    minVersionOrStar (L := node_semver) r2 = Ok m2 ->
    eq m1 m2 = true ->
    sortRangeSet (set r1) = Ok s1 ->
    sortRangeSet (set r2) = Ok s2 ->
    match s1 with
    | h :: _ => minComp = h
    | [] => hd_error s2 = Some minComp
    end ->
    setToRange (L := node_semver) (tl s1) = Ok newR1 ->
    setToRange (L := node_semver) (tl s2) = Ok newR2 ->
    restrictiveRange (L := node_semver) fuel newR1 newR2 ignoredRanges
    = Ok (newRange, ignoredRanges') ->
    sortRangeSet (set newRange) = Ok rest ->
    Forall printableGroup (minComp :: rest) ->
    exists result,
      restrictiveRange (L := node_semver) (S fuel) r1 r2 ignoredRanges
      = Ok (result, ignoredRanges') /\
      set result = minComp :: rest /\
      hd_error (set result) = Some minComp.
Proof.
  intros fuel r1 r2 ign m1 m2 s1 s2 minComp newR1 newR2 newRange ign' rest
         S1 S2 E1 E2 Heq E3 E4 Hhead N1 N2 Hrec Hrest Hp.
  exists (mkRange (setText (minComp :: rest)) (minComp :: rest)).
  split; [| split; reflexivity].
  rewrite restrictiveRange_S.
  rewrite (restrictiveRangeBody_prepared (L := node_semver) _ _ _ _ _ _ _ _ S1 S2 E1 E2 E3 E4).
  rewrite Heq. cbn [negb].
  assert (F : firstDefined (hd_error s1) (hd_error s2) = Some minComp).
  { destruct s1 as [| h t]; cbn [hd_error firstDefined]; [exact Hhead | congruence]. }
  rewrite F, N1. cbn [bind]. rewrite N2. cbn [bind]. rewrite Hrec. cbn [bind].
  rewrite Hrest. cbn [bind]. unfold setToRange.
  change (@Range_new node_semver) with NodeSemver.Range_new.
  rewrite (Rebuild.Range_new_setText (minComp :: rest)) by (discriminate || exact Hp).
  reflexivity.
Qed.

Lemma restrictiveRange_first_head_wins_witness :
  exists result,
    restrictiveRange (L := node_semver) 3
      (parsed ">=14.15.0 <15.0.0-0||>=16.10.0")
      (parsed ">=14.15.0 <15.0.0-0||>=16.0.0 <17.0.0-0") []
    = Ok (result, [">=16.10.0"]) /\
    set result
    = [Cmp OpGte (mkSemVer 14 15 0 []); Cmp OpLt (mkSemVer 15 0 0 [Numeric 0])]
      :: [[Cmp OpGte (mkSemVer 16 10 0 []); Cmp OpLt (mkSemVer 17 0 0 [Numeric 0])]] /\
    hd_error (set result)
    = Some [Cmp OpGte (mkSemVer 14 15 0 []); Cmp OpLt (mkSemVer 15 0 0 [Numeric 0])].
Proof.
  refine (restrictiveRange_first_head_wins 2
            (parsed ">=14.15.0 <15.0.0-0||>=16.10.0")
            (parsed ">=14.15.0 <15.0.0-0||>=16.0.0 <17.0.0-0") []
            (mkSemVer 14 15 0 []) (mkSemVer 14 15 0 [])
            (set (parsed ">=14.15.0 <15.0.0-0||>=16.10.0"))
            (set (parsed ">=14.15.0 <15.0.0-0||>=16.0.0 <17.0.0-0"))
            [Cmp OpGte (mkSemVer 14 15 0 []); Cmp OpLt (mkSemVer 15 0 0 [Numeric 0])]
            (parsed ">=16.10.0") (parsed ">=16.0.0 <17.0.0-0")
            (parsed ">=16.10.0 <17.0.0-0") [">=16.10.0"]
            [[Cmp OpGte (mkSemVer 16 10 0 []); Cmp OpLt (mkSemVer 17 0 0 [Numeric 0])]]
            _ _ _ _ _ _ _ _ _ _ _ _ _);
    [vm_compute; reflexivity .. |].
  repeat constructor; try discriminate; try reflexivity;
    simpl; intuition discriminate.
Defined.

(** ** The empty group list *)

Section Emptied.

Context {L : SemverLib} {R : Runtime}.

Lemma filterM_keepsGroup_below s m :
  forallb (startsBelowMajor m) s = true -> filterM (keepsGroup m) s = Ok [].
Proof.
  induction s as [| g s IH]; [reflexivity |]. cbn [forallb]. intros H.
  apply andb_true_iff in H; destruct H as [Hg Hs].
  cbn [filterM]. destruct g as [| [| op v] rest]; try discriminate.
  cbn [startsBelowMajor] in Hg. apply N.ltb_lt in Hg.
  cbn [keepsGroup semver bind].
  assert (E : (major m <=? major v)%N = false) by (apply N.leb_gt; exact Hg).
  rewrite E, (IH Hs). reflexivity.
Qed.

End Emptied.

(** X5.  When every group of a list starts with a version of a major below
    that of the minimum version, [applyMinVersionToRangeSet] drops them
    all, and [setToRange] turns the empty list that remains into the range
    of the empty text, whose single group is the comparator [ANY]: the
    range that contains every version without a prerelease, and not the
    empty range. *)
Theorem emptied_range_is_universal :
  forall (s : list group) (minVersion : SemVer),
    forallb (startsBelowMajor minVersion) s = true ->
    applyMinVersionToRangeSet (L := node_semver) s minVersion = Ok [] /\
    setToRange (L := node_semver) [] = Ok (mkRange "" [[ANY]]) /\
    forall v, prerelease v = [] -> NodeSemver.Range_test (mkRange "" [[ANY]]) v = true.
Proof.
  intros s m H. split; [| split].
  - unfold applyMinVersionToRangeSet. rewrite (filterM_keepsGroup_below s m H).
    reflexivity.
  - reflexivity.
  - intros v Hv. unfold NodeSemver.Range_test, NodeSemver.testSet, NodeSemver.hasPrerelease.
    cbn [set existsb forallb Comparator_test]. rewrite Hv. reflexivity.
Qed.

Lemma emptied_range_is_universal_witness :
  applyMinVersionToRangeSet (L := node_semver)
    (set (parsed ">=12.22.0 <13.0.0-0||>=14.17.0 <15.0.0-0")) (mkSemVer 16 0 0 []) = Ok [] /\
  setToRange (L := node_semver) [] = Ok (mkRange "" [[ANY]]) /\
  forall v, prerelease v = [] -> NodeSemver.Range_test (mkRange "" [[ANY]]) v = true.
Proof.
  apply (emptied_range_is_universal
           (set (parsed ">=12.22.0 <13.0.0-0||>=14.17.0 <15.0.0-0")) (mkSemVer 16 0 0 [])).
  vm_compute; reflexivity.
Defined.

(** ** The rendering of [humanizeRange] *)

Module Rendering.
Import NodeSemver Roundtrip.

Lemma trimStart_nonspace s :
  startsWith (fun c => negb (is_space c)) s = true -> trimStart s = s.
Proof.
  destruct s as [| c s]; [discriminate |]. simpl. intros H.
  apply negb_true_iff in H. rewrite H. reflexivity.
Qed.

Lemma value_nonspace op v :
  SemVer_wf v = true -> all (fun c => negb (is_space c)) (value (Cmp op v)) = true.
Proof.
  intros Hwf. apply (all_impl is_valuechar); [apply valuechar_not_space |].
  apply value_valuechars, Hwf.
Qed.

Lemma value_nonempty op v : value (Cmp op v) <> "".
Proof.
  simpl. pose proof (version_starts_with_digit v) as H.
  destruct (version v); [discriminate |]. destruct op; discriminate.
Qed.

Lemma all_startsWith p s : all p s = true -> s <> "" -> startsWith p s = true.
Proof.
  destruct s as [| c s]; [contradiction |]. simpl.
  intros H _. apply andb_true_iff in H. apply H.
Qed.

Lemma startsWith_append p a b : startsWith p a = true -> startsWith p (a ++ b) = true.
Proof. destruct a; [discriminate | exact (fun H => H)]. Qed.

Lemma trim_single op v :
  SemVer_wf v = true -> trim (value (Cmp op v) ++ " " ++ "") = value (Cmp op v).
Proof.
  intros Hwf. pose proof (value_nonspace op v Hwf) as Hs.
  pose proof (value_nonempty op v) as Hne.
  set (t := value (Cmp op v)) in *. unfold trim.
  rewrite trimStart_nonspace
    by (apply startsWith_append, all_startsWith; assumption).
  clear Hne. induction t as [| c t IH]; [reflexivity |].
  cbn [all] in Hs. apply andb_true_iff in Hs; destruct Hs as [Hc Hs].
  apply negb_true_iff in Hc.
  change (String c t ++ " " ++ "") with (String c (t ++ " " ++ "")).
  cbn [trimEnd]. rewrite (IH Hs), Hc. destruct t; reflexivity.
Qed.

Lemma trim_pair o1 v1 o2 v2 :
  SemVer_wf v1 = true -> SemVer_wf v2 = true ->
  trim (value (Cmp o1 v1) ++ " " ++ value (Cmp o2 v2))
  = value (Cmp o1 v1) ++ " " ++ value (Cmp o2 v2).
Proof.
  intros W1 W2. pose proof (value_nonspace o1 v1 W1) as S1.
  pose proof (value_nonspace o2 v2 W2) as S2.
  pose proof (value_nonempty o1 v1) as N1.
  pose proof (value_nonempty o2 v2) as N2.
  set (t1 := value (Cmp o1 v1)) in *. set (t2 := value (Cmp o2 v2)) in *.
  unfold trim.
  rewrite trimStart_nonspace
    by (apply startsWith_append, all_startsWith; assumption).
  apply trimEnd_keep.
  - change (" " ++ t2) with (String " " t2). cbn [trimEnd].
    rewrite (trimEnd_nonspace t2 S2). destruct t2; [contradiction | reflexivity].
  - discriminate.
Qed.

Lemma humanizeGroup_plain g :
  plainGroup g = true -> humanizeGroup g = Ok (groupText g).
Proof.
  destruct g as [| c1 [| c2 [| c3 rest]]]; try discriminate.
  - destruct c1 as [| op v]; [reflexivity |]. cbn [plainGroup]. intros Hwf.
    unfold humanizeGroup, groupText. cbn [caretLower map join List.length hd_error].
    destruct op; cbn [operator Operator_eqb Nat.eqb andb];
      try reflexivity; rewrite (trim_single _ v Hwf); reflexivity.
  - destruct c1 as [| o1 v1]; [discriminate |]. destruct c2 as [| o2 v2]; [discriminate |].
    cbn [plainGroup]. intros H.
    apply andb_true_iff in H; destruct H as [H Hc].
    apply andb_true_iff in H; destruct H as [W1 W2].
    assert (C : caretLower [Cmp o1 v1; Cmp o2 v2] = None).
    { destruct o1, o2; try reflexivity. cbn [caretLower].
      cbn [Operator_eqb andb] in Hc. apply negb_true_iff in Hc.
      rewrite N.eqb_sym, Hc. reflexivity. }
    unfold humanizeGroup, groupText. rewrite C.
    cbn [map join List.length hd_error Nat.eqb andb].
    rewrite (trim_pair o1 v1 o2 v2 W1 W2). reflexivity.
  - destruct c1 as [| o1 v1]; [discriminate |]. destruct c2; discriminate.
Qed.

Lemma mapM_humanizeGroup_plain s :
  forallb plainGroup s = true -> mapM humanizeGroup s = Ok (map groupText s).
Proof.
  induction s as [| g s IH]; [reflexivity |].
  cbn [forallb]. intros H. apply andb_true_iff in H; destruct H as [Hg Hs].
  cbn [mapM map]. rewrite (humanizeGroup_plain g Hg), (IH Hs). reflexivity.
Qed.

Lemma humanizeGroup_long c1 c2 c3 rest :
  humanizeGroup (c1 :: c2 :: c3 :: rest) = Ok (trim (value c1 ++ " " ++ value c2)).
Proof.
  unfold humanizeGroup.
  assert (C : caretLower (c1 :: c2 :: c3 :: rest) = None).
  { destruct c1 as [| [] v1]; try reflexivity. destruct c2 as [| [] v2]; reflexivity. }
  rewrite C. cbn [List.length Nat.eqb andb hd_error]. reflexivity.
Qed.

End Rendering.

(** X6.  In a group of three or more comparators [humanizeRange] renders
    the first two and nothing of the others: two ranges of one such group
    each, with the same first two comparators, are rendered alike. *)
Theorem humanizeRange_reads_two_comparators :
  forall (r r' : Range) (c1 c2 c3 c3' : Comparator) (rest rest' : group),
    String.eqb "*" (raw r) = false ->
    String.eqb "*" (raw r') = false ->
    set r = [c1 :: c2 :: c3 :: rest] ->
    set r' = [c1 :: c2 :: c3' :: rest'] ->
    humanizeRange (Some r) = Ok (trim (value c1 ++ " " ++ value c2)) /\
    humanizeRange (Some r') = humanizeRange (Some r).
Proof.
  intros r r' c1 c2 c3 c3' rest rest' Hr Hr' Hs Hs'.
  unfold humanizeRange. rewrite Hr, Hr', Hs, Hs'. cbn [sortRangeSet bind mapM].
  rewrite !Rendering.humanizeGroup_long. split; reflexivity.
Qed.

Lemma humanizeRange_reads_two_comparators_witness :
  humanizeRange (Some (parsed ">=1.0.0 <3.0.0 <2.5.0"))
  = Ok (trim (value (Cmp OpGte (mkSemVer 1 0 0 [])) ++ " "
              ++ value (Cmp OpLt (mkSemVer 3 0 0 [])))) /\
  humanizeRange (Some (parsed ">=1.0.0 <3.0.0 <1.5.0"))
  = humanizeRange (Some (parsed ">=1.0.0 <3.0.0 <2.5.0")).
Proof.
  apply (humanizeRange_reads_two_comparators
           (parsed ">=1.0.0 <3.0.0 <2.5.0") (parsed ">=1.0.0 <3.0.0 <1.5.0")
           (Cmp OpGte (mkSemVer 1 0 0 [])) (Cmp OpLt (mkSemVer 3 0 0 []))
           (Cmp OpLt (mkSemVer 2 5 0 [])) (Cmp OpLt (mkSemVer 1 5 0 [])) [] []);
    vm_compute; reflexivity.
Defined.

(** X7.  A range other than [*] whose groups have one comparator, or two
    that are not of the caret shape ([>=a] then [<b] with the major of [b]
    one above that of [a]), is rendered as the texts of its sorted groups,
    the comparators of a group separated by a blank and the groups by
    [ || ]. *)
Theorem humanizeRange_plain :
  forall (r : Range) (s : list group),
    String.eqb "*" (raw r) = false ->
    sortRangeSet (set r) = Ok s ->
    forallb plainGroup s = true ->
    humanizeRange (Some r) = Ok (join " || " (map groupText s)).
Proof.
  intros r s Hraw Hs Hp. unfold humanizeRange. rewrite Hraw, Hs. cbn [bind].
  rewrite (Rendering.mapM_humanizeGroup_plain s Hp). reflexivity.
Qed.

Lemma humanizeRange_plain_witness :
  humanizeRange (Some (parsed ">=16.0.0||>1.2.3 <=1.9.0||14.17.0||>=1.0.0 <3.0.0"))
  = Ok (join " || " (map groupText
          (set (parsed ">=1.0.0 <3.0.0||>1.2.3 <=1.9.0||14.17.0||>=16.0.0")))) /\
  join " || " (map groupText
    (set (parsed ">=1.0.0 <3.0.0||>1.2.3 <=1.9.0||14.17.0||>=16.0.0")))
  = ">=1.0.0 <3.0.0 || >1.2.3 <=1.9.0 || 14.17.0 || >=16.0.0".
Proof.
  split; [| vm_compute; reflexivity].
  apply (humanizeRange_plain
           (parsed ">=16.0.0||>1.2.3 <=1.9.0||14.17.0||>=1.0.0 <3.0.0"));
    vm_compute; reflexivity.
Defined.

(** ** The group lists of the ranges that the package builds *)

Module Parsed.
Import NodeSemver.

Lemma mapO_Forall {A B : Type} (f : A -> option B) (P : B -> Prop) :
  (forall a b, f a = Some b -> P b) ->
  forall l l', mapO f l = Some l' -> Forall P l'.
Proof.
  intros Hf. induction l as [| a l IH]; intros l'; cbn [mapO].
  - intros [= <-]. constructor.
  - unfold obind. destruct (f a) as [b |] eqn:Fa; [| discriminate].
    destruct (mapO f l) as [bs |]; [| discriminate].
    intros [= <-]. constructor; [eapply Hf, Fa | apply IH; reflexivity].
Qed.

Lemma forallb_filter {A : Type} (p : A -> bool) l : forallb p (filter p l) = true.
Proof.
  induction l as [| a l IH]; [reflexivity |]. simpl.
  destruct (p a) eqn:Pa; [simpl; rewrite Pa; exact IH | exact IH].
Qed.

Lemma existsb_false_forallb {A : Type} (p : A -> bool) l :
  existsb p l = false -> forallb (fun a => negb (p a)) l = true.
Proof.
  induction l as [| a l IH]; [reflexivity |]. simpl.
  intros H. apply orb_false_iff in H. destruct H as [-> H]. exact (IH H).
Qed.

Lemma parseRange_tidy text g : parseRange text = Some g -> tidy g.
Proof.
  unfold parseRange, obind.
  destruct (mapO Comparator_new _) as [comparators |]; [| discriminate].
  destruct (find isNullSet comparators) as [c |].
  - intros [= <-]. left. simpl. lia.
  - destruct ((1 <? List.length (dedupe [] comparators))%nat
              && existsb isAny (dedupe [] comparators)) eqn:C.
    + intros [= <-]. right. apply (forallb_filter (fun c => negb (isAny c))).
    + intros [= <-]. apply andb_false_iff in C. destruct C as [C | C].
      * left. apply Nat.ltb_ge in C. exact C.
      * right. apply existsb_false_forallb, C.
Qed.

Lemma keyed_of_tidy g :
  g <> [] -> tidy g -> isAnyGroup g = false -> keyed g = true.
Proof.
  destruct g as [| c rest]; [contradiction |]. intros _ Ht Ha.
  assert (Hc : isAny c = false).
  { destruct Ht as [Ht | Ht].
    - destruct rest; [exact Ha | simpl in Ht; lia].
    - cbn [forallb] in Ht. apply andb_true_iff in Ht.
      apply negb_true_iff, Ht. }
  destruct c; [discriminate Hc | reflexivity].
Qed.

Lemma sortable_single g : g <> [] -> sortable [g].
Proof. intros H. split; [constructor; [exact H | constructor] | left; simpl; lia]. Qed.

Lemma normalizeSet_sortable s :
  Forall (fun g => g <> [] /\ tidy g) s -> sortable (normalizeSet s).
Proof.
  intros H. unfold normalizeSet.
  destruct s as [| first [| second rest]].
  - split; [constructor | left; simpl; lia].
  - apply sortable_single. apply Forall_inv in H. apply H.
  - set (s := first :: second :: rest) in *.
    assert (Hf : Forall (fun g => g <> [] /\ tidy g)
                   (filter (fun c => negb (headIsNullSet c)) s)).
    { apply Forall_forall. intros g Hg. apply filter_In in Hg.
      rewrite Forall_forall in H. apply H, Hg. }
    destruct (filter (fun c => negb (headIsNullSet c)) s) as [| c [| c' l]] eqn:F.
    + apply sortable_single. apply Forall_inv in H. apply H.
    + apply sortable_single. apply Forall_inv in Hf. apply Hf.
    + destruct (find isAnyGroup (c :: c' :: l)) as [a |] eqn:A.
      * apply sortable_single. apply find_some in A. destruct A as [Hin _].
        rewrite Forall_forall in Hf. apply (Hf a Hin).
      * split.
        { eapply Forall_impl; [| exact Hf]. intros g Hg; apply Hg. }
        { right. apply forallb_forall. intros g Hg.
          rewrite Forall_forall in Hf. destruct (Hf g Hg) as [Hne Ht].
          apply keyed_of_tidy; [exact Hne | exact Ht |].
          exact (find_none _ _ A g Hg). }
Qed.

Lemma Range_new_sortable text r : Range_new text = Some r -> sortable (set r).
Proof.
  unfold Range_new, obind.
  destruct (mapO parseRange (splitBars text)) as [groups |] eqn:M; [| discriminate].
  pose proof (mapO_Forall parseRange tidy parseRange_tidy _ _ M) as Ht.
  assert (Hf : Forall (fun g => g <> [] /\ tidy g)
                 (filter (fun c => negb (Nat.eqb (List.length c) 0)) groups)).
  { apply Forall_forall. intros g Hg. apply filter_In in Hg. destruct Hg as [Hin Hl].
    split; [intros ->; discriminate |]. rewrite Forall_forall in Ht. apply Ht, Hin. }
  destruct (filter (fun c => negb (Nat.eqb (List.length c) 0)) groups) as [| g l];
    [discriminate |].
  intros E. injection E as <-.
  change (sortable (normalizeSet (g :: l))). apply normalizeSet_sortable, Hf.
Qed.

Lemma sortable_sortRangeSet s : sortable s -> exists s', sortRangeSet s = Ok s'.
Proof.
  intros [_ H]. unfold sortRangeSet. destruct s as [| g [| h t]].
  - eexists; reflexivity.
  - eexists; reflexivity.
  - destruct H as [H | H]; [simpl in H; lia |].
    change (fun g0 : group => match sortKey g0 with
                              | Some _ => true
                              | None => false
                              end) with keyed.
    rewrite H. eexists; reflexivity.
Qed.

Lemma humanizeGroup_returns g : g <> [] -> exists t, humanizeGroup g = Ok t.
Proof.
  destruct g as [| c rest]; [contradiction |]. intros _. unfold humanizeGroup.
  destruct (caretLower (c :: rest)); [eexists; reflexivity |].
  destruct (Nat.eqb (List.length (c :: rest)) 1 && Operator_eqb (operator c) OpGte);
    eexists; reflexivity.
Qed.

Lemma mapM_returns {A B : Type} (f : A -> Outcome B) l :
  Forall (fun a => exists b, f a = Ok b) l -> exists bs, mapM f l = Ok bs.
Proof.
  induction 1 as [| a l [b Hb] _ [bs Hbs]]; cbn [mapM].
  - eexists; reflexivity.
  - rewrite Hb, Hbs. eexists; reflexivity.
Qed.

End Parsed.

(** X8.  On every range that the [Range] constructor of the package
    builds, [sortRangeSet] returns a group list and [humanizeRange]
    returns a text: neither throws. *)
Theorem humanizeRange_returns :
  forall (text : string) (r : Range),
    NodeSemver.Range_new text = Some r ->
    (exists s, sortRangeSet (set r) = Ok s) /\
    (exists t, humanizeRange (Some r) = Ok t).
Proof.
  intros text r Hr. apply Parsed.Range_new_sortable in Hr.
  destruct (Parsed.sortable_sortRangeSet _ Hr) as [s Hs].
  split; [exists s; exact Hs |].
  unfold humanizeRange. destruct (String.eqb "*" (raw r)); [eexists; reflexivity |].
  rewrite Hs. cbn [bind].
  destruct (Parsed.mapM_returns humanizeGroup s) as [res Hres].
  - apply Forall_forall. intros g Hg. apply Parsed.humanizeGroup_returns.
    destruct Hr as [Hne _]. rewrite Forall_forall in Hne. apply Hne.
    destruct (SortFacts.sortRangeSet_perm_sorted _ _ Hs) as [Hp _].
    apply (Permutation.Permutation_in g (Permutation.Permutation_sym Hp) Hg).
  - rewrite Hres. eexists; reflexivity.
Qed.

Lemma humanizeRange_returns_witness :
  (exists s, sortRangeSet (set (parsed ">=16.10.0 <17.0.0-0||>=14.17.0")) = Ok s) /\
  (exists t, humanizeRange (Some (parsed ">=16.10.0 <17.0.0-0||>=14.17.0")) = Ok t).
Proof.
  apply (humanizeRange_returns ">=16.10.0 <17.0.0-0||>=14.17.0").
  vm_compute; reflexivity.
Defined.

(** ** The constraint of an [engines] array *)

Module Occurrence.

Lemma prefix_spec pat : forall s, prefix pat s = true <-> exists b, s = pat ++ b.
Proof.
  induction pat as [| c pat IH]; intros s.
  - split; [intros _; exists s; reflexivity | intros _; destruct s; reflexivity].
  - destruct s as [| d s]; cbn [prefix].
    + split; [discriminate | intros [b Hb]; discriminate].
    + destruct (ascii_dec c d) as [-> | Hne].
      * rewrite IH. split; intros [b Hb]; exists b; simpl in *; congruence.
      * split; [discriminate | intros [b Hb]; simpl in Hb; congruence].
Qed.

Lemma drop_append pat b : drop (String.length pat) (pat ++ b) = b.
Proof.
  induction pat as [| c pat IH]; simpl; [destruct b; reflexivity | exact IH].
Qed.

(** [removeFirst] takes out the first occurrence of the pattern. *)
Lemma removeFirst_Some pat : forall s r,
  removeFirst pat s = Some r <->
  exists a b, s = a ++ pat ++ b /\ r = a ++ b /\
              forall a' b', s = a' ++ pat ++ b' ->
                            (String.length a <= String.length a')%nat.
Proof.
  induction s as [| c s IH]; intros r.
  - cbn [removeFirst]. destruct (prefix pat "") eqn:P.
    + apply prefix_spec in P. destruct P as [b Hb].
      destruct pat; [| discriminate]. simpl in Hb; subst b.
      split.
      * intros [= <-]. exists "", "". repeat split. intros; simpl; lia.
      * intros [a [b [Hs [Hr _]]]]. destruct a; [| discriminate].
        simpl in Hs; subst b. simpl in Hr. subst r. reflexivity.
    + split; [discriminate |].
      intros [a [b [Hs _]]]. destruct a; [| discriminate].
      simpl in Hs. assert (prefix pat "" = true) by (apply prefix_spec; eauto).
      congruence.
  - cbn [removeFirst]. destruct (prefix pat (String c s)) eqn:P.
    + pose proof P as P'. apply prefix_spec in P'. destruct P' as [b Hb].
      split.
      * intros [= <-]. exists "", b. rewrite Hb, drop_append.
        repeat split. intros; simpl; lia.
      * intros [a [b' [Hs [Hr Hmin]]]].
        specialize (Hmin "" b Hb). destruct a; [| simpl in Hmin; lia].
        simpl in Hs, Hr. subst r. rewrite Hs, drop_append. reflexivity.
    + split.
      * destruct (removeFirst pat s) as [r' |] eqn:R; [| discriminate].
        intros [= <-]. destruct (proj1 (IH r') eq_refl) as [a [b [Hs [Hr Hmin]]]].
        exists (String c a), b. subst s r'. repeat split.
        intros a' b' H'. destruct a' as [| d a'].
        { simpl in H'. assert (prefix pat (String c (a ++ pat ++ b)) = true)
            by (apply prefix_spec; eauto). congruence. }
        { simpl in H'. injection H' as _ H'. simpl. apply le_n_S, (Hmin a' b'), H'. }
      * intros [a [b [Hs [Hr Hmin]]]]. destruct a as [| d a].
        { simpl in Hs. assert (prefix pat (String c s) = true)
            by (apply prefix_spec; eauto). congruence. }
        { simpl in Hs. injection Hs as <- Hs. subst r.
          assert (R : removeFirst pat s = Some (a ++ b)).
          { apply IH. exists a, b. repeat split; [exact Hs |].
            intros a' b' H'. specialize (Hmin (String c a') b').
            simpl in Hmin. apply le_S_n, Hmin. rewrite H'. reflexivity. }
          rewrite R. reflexivity. }
Qed.

Lemma contains_removeFirst pat : forall a b, removeFirst pat (a ++ pat ++ b) <> None.
Proof.
  induction a as [| c a IH]; intros b.
  - simpl. destruct (pat ++ b) eqn:E; cbn [removeFirst];
      rewrite <- E; (assert (P : prefix pat (pat ++ b) = true)
                       by (apply prefix_spec; eauto)); rewrite P; discriminate.
  - change (String c a ++ pat ++ b) with (String c (a ++ pat ++ b)).
    cbn [removeFirst]. destruct (prefix pat (String c (a ++ pat ++ b))); [discriminate |].
    specialize (IH b). destruct (removeFirst pat (a ++ pat ++ b)); [discriminate |].
    contradiction.
Qed.

Lemma includes_spec pat s : includes pat s = true <-> contains pat s.
Proof.
  unfold includes, contains. split.
  - destruct (removeFirst pat s) as [r |] eqn:R; [| discriminate].
    intros _. apply removeFirst_Some in R. destruct R as [a [b [Hs _]]]. eauto.
  - intros [a [b ->]]. pose proof (contains_removeFirst pat a b) as H.
    destruct (removeFirst pat (a ++ pat ++ b)); [reflexivity | contradiction].
Qed.

Lemma includes_false pat s : includes pat s = false <-> ~ contains pat s.
Proof.
  rewrite <- includes_spec. destruct (includes pat s); split; intros H.
  - discriminate.
  - exfalso; apply H; reflexivity.
  - discriminate.
  - reflexivity.
Qed.

Lemma find_split {A : Type} (p : A -> bool) l x :
  find p l = Some x <->
  exists pre post,
    l = (pre ++ x :: post)%list /\ p x = true /\ Forall (fun y => p y = false) pre.
Proof.
  induction l as [| a l IH]; simpl.
  - split; [discriminate | intros [[| ? ?] [post [H _]]]; discriminate].
  - destruct (p a) eqn:Pa.
    + split.
      * intros [= <-]. exists [], l. repeat split; [exact Pa | constructor].
      * intros [pre [post [Hl [Px Hpre]]]]. destruct pre as [| y pre].
        { simpl in Hl. injection Hl as -> _. reflexivity. }
        { simpl in Hl. injection Hl as <- _. apply Forall_inv in Hpre. congruence. }
    + rewrite IH. split.
      * intros [pre [post [-> [Px Hpre]]]]. exists (a :: pre), post.
        repeat split; [exact Px | constructor; assumption].
      * intros [pre [post [Hl [Px Hpre]]]]. destruct pre as [| y pre].
        { simpl in Hl. injection Hl as -> _. congruence. }
        { simpl in Hl. injection Hl as <- ->. exists pre, post.
          repeat split; [exact Px | apply Forall_inv_tail in Hpre; exact Hpre]. }
Qed.

End Occurrence.

Section ArrayProperties.

Context {R : Runtime}.

Lemma show_inj a b : show a = show b -> a = b.
Proof.
  intros E. pose proof (Roundtrip.parseNumeric_show a) as Pa.
  rewrite E, Roundtrip.parseNumeric_show in Pa. congruence.
Qed.

Lemma Array_item_Some key r : forall items k,
  Array_item k items key = Some r <->
  exists i, key = show (k + N.of_nat i) /\ nth_error items i = Some r.
Proof.
  induction items as [| item items IH]; intros k; cbn [Array_item].
  - split; [discriminate | intros [[| i] [_ H]]; discriminate].
  - destruct (String.eqb (show k) key) eqn:E.
    + apply String.eqb_eq in E. split.
      * intros [= <-]. exists 0%nat. rewrite N.add_0_r. split; [congruence | reflexivity].
      * intros [[| i] [Hk Hn]]; [simpl in Hn; exact Hn |].
        exfalso. rewrite Hk in E. apply show_inj in E. lia.
    + apply String.eqb_neq in E. rewrite IH. split.
      * intros [i [Hk Hn]]. exists (S i). split; [| exact Hn].
        rewrite Hk. f_equal. lia.
      * intros [[| i] [Hk Hn]].
        { exfalso. apply E. rewrite Hk. f_equal. lia. }
        { exists i. split; [| exact Hn]. rewrite Hk. f_equal. lia. }
Qed.

Lemma Array_item_None key items :
  Array_item 0 items key = None <->
  ~ exists i, (i < List.length items)%nat /\ key = show (N.of_nat i).
Proof.
  split.
  - intros H [i [Hi Hk]].
    destruct (nth_error items i) as [r |] eqn:Hn.
    + assert (A : Array_item 0 items key = Some r)
        by (apply Array_item_Some; exists i; split; assumption).
      congruence.
    + apply nth_error_None in Hn. lia.
  - intros H. destruct (Array_item 0 items key) as [r |] eqn:A; [| reflexivity].
    exfalso. apply H. apply Array_item_Some in A. destruct A as [i [Hk Hn]].
    exists i. split; [| exact Hk].
    apply nth_error_Some. congruence.
Qed.

(** With a name that is no property of the array, the first branch of
    [getConstraintFromEngines] is not taken. *)
Lemma getConstraintFromEngines_search items key :
  ~ Array_has (List.length items) key ->
  getConstraintFromEngines (EnginesArray items) key
  = match find (includes key) items with
    | Some constraint => option_map Text (removeFirst key constraint)
    | None => None
    end.
Proof.
  intros H. cbn [getConstraintFromEngines].
  assert (A : Array_item 0 items key = None).
  { apply Array_item_None. intros Hi. apply H. left; exact Hi. }
  assert (B : String.eqb key "length" = false).
  { apply String.eqb_neq. intros Hl. apply H. right; left; exact Hl. }
  assert (C : Array_inherits key = false).
  { destruct (Array_inherits key) eqn:E; [| reflexivity].
    exfalso. apply H. right; right; exact E. }
  rewrite A, B, C. reflexivity.
Qed.

(** With a name that is a property of the array, the result is the value
    of the property: it is not [undefined], and it is a text only under
    the index of an item. *)
Lemma getConstraintFromEngines_property items key :
  Array_has (List.length items) key ->
  getConstraintFromEngines (EnginesArray items) key <> None /\
  forall r, getConstraintFromEngines (EnginesArray items) key = Some (Text r) ->
            exists i, key = show (N.of_nat i) /\ nth_error items i = Some r.
Proof.
  intros H. cbn [getConstraintFromEngines].
  destruct (Array_item 0 items key) as [item |] eqn:A.
  - split; [discriminate |]. intros r [= <-].
    apply Array_item_Some in A. exact A.
  - destruct (String.eqb key "length") eqn:B; [split; [discriminate | intros r; discriminate] |].
    destruct (Array_inherits key) eqn:C; [split; [discriminate | intros r; discriminate] |].
    exfalso. destruct H as [Hi | [Hl | Hh]].
    + apply (proj1 (Array_item_None key items) A Hi).
    + apply String.eqb_neq in B. contradiction.
    + congruence.
Qed.

Lemma Array_has_dec (items : list string) key :
  Array_has (List.length items) key \/ ~ Array_has (List.length items) key.
Proof.
  unfold Array_has.
  destruct (Array_item 0 items key) as [r |] eqn:A.
  - left; left. apply Array_item_Some in A. destruct A as [i [Hk Hn]].
    exists i. split; [apply nth_error_Some; congruence | exact Hk].
  - apply Array_item_None in A.
    destruct (String.eqb key "length") eqn:B.
    + apply String.eqb_eq in B. left; right; left; exact B.
    + apply String.eqb_neq in B.
      destruct (Array_inherits key) eqn:C; [left; right; right; reflexivity |].
      right. intros [Hi | [Hl | Hh]]; [contradiction | contradiction | discriminate].
Qed.

End ArrayProperties.

(** X9.  For an [engines] array, [getConstraintFromEngines] returns a text
    in two cases.  Under the index of an item, which is a property of the
    array, it returns the item.  Under a name that is no property of the
    array (no index, not [length], not inherited) it returns a text
    exactly when some item contains the name: the first such item with the
    first occurrence of the name taken out of it. *)
Theorem getConstraintFromEngines_array :
  forall (R : Runtime) (items : list string) (constraintKey r : string),
    getConstraintFromEngines (EnginesArray items) constraintKey = Some (Text r) <->
    (exists i, constraintKey = show (N.of_nat i) /\ nth_error items i = Some r) \/
    (~ Array_has (List.length items) constraintKey /\
     exists pre item post a b,
       items = (pre ++ item :: post)%list /\
       Forall (fun x => ~ contains constraintKey x) pre /\
       item = a ++ constraintKey ++ b /\
       (forall a' b', item = a' ++ constraintKey ++ b' ->
                      (String.length a <= String.length a')%nat) /\
       r = a ++ b).
Proof.
  intros R items key r. split.
  - intros G. destruct (Array_has_dec items key) as [Hp | Hn].
    + left. apply (proj2 (getConstraintFromEngines_property items key Hp) r G).
    + right. split; [exact Hn |].
      rewrite (getConstraintFromEngines_search items key Hn) in G.
      destruct (find (includes key) items) as [item |] eqn:F; [| discriminate].
      destruct (removeFirst key item) as [r' |] eqn:Rm; [| discriminate].
      injection G as ->.
      apply Occurrence.find_split in F.
      destruct F as [pre [post [Hl [_ Hpre]]]].
      apply Occurrence.removeFirst_Some in Rm. destruct Rm as [a [b [Hs [Hr Hmin]]]].
      exists pre, item, post, a, b. repeat split; try assumption.
      eapply Forall_impl; [| exact Hpre]. intros x Hx.
      apply Occurrence.includes_false, Hx.
  - intros [[i [Hk Hn]] | [Hno [pre [item [post [a [b [Hl [Hpre [Hs [Hmin Hr]]]]]]]]]]].
    + cbn [getConstraintFromEngines].
      assert (A : Array_item 0 items key = Some r)
        by (apply Array_item_Some; exists i; split; assumption).
      rewrite A. reflexivity.
    + rewrite (getConstraintFromEngines_search items key Hno).
      assert (F : find (includes key) items = Some item).
      { apply Occurrence.find_split. exists pre, post. repeat split; [exact Hl | |].
        - apply Occurrence.includes_spec. exists a, b. exact Hs.
        - eapply Forall_impl; [| exact Hpre]. intros x Hx.
          apply Occurrence.includes_false, Hx. }
      rewrite F.
      assert (Rm : removeFirst key item = Some r)
        by (apply Occurrence.removeFirst_Some; exists a, b; repeat split; assumption).
      rewrite Rm. reflexivity.
Qed.

(** X10.  For an [engines] array, [getConstraintFromEngines] returns
    [undefined] exactly when the name is no property of the array and no
    item contains it. *)
Theorem getConstraintFromEngines_array_undefined :
  forall (R : Runtime) (items : list string) (constraintKey : string),
    getConstraintFromEngines (EnginesArray items) constraintKey = None <->
    ~ Array_has (List.length items) constraintKey /\
    Forall (fun x => ~ contains constraintKey x) items.
Proof.
  intros R items key. split.
  - intros G. destruct (Array_has_dec items key) as [Hp | Hn].
    + exfalso. exact (proj1 (getConstraintFromEngines_property items key Hp) G).
    + split; [exact Hn |].
      rewrite (getConstraintFromEngines_search items key Hn) in G.
      destruct (find (includes key) items) as [item |] eqn:F.
      * exfalso. apply find_some in F. destruct F as [_ F].
        apply Occurrence.includes_spec in F. destruct F as [a [b ->]].
        pose proof (Occurrence.contains_removeFirst key a b) as Hc.
        destruct (removeFirst key (a ++ key ++ b)); [discriminate | contradiction].
      * apply Forall_forall. intros x Hx.
        apply Occurrence.includes_false. exact (find_none _ _ F x Hx).
  - intros [Hno H]. rewrite (getConstraintFromEngines_search items key Hno).
    destruct (find (includes key) items) as [item |] eqn:F; [| reflexivity].
    exfalso. apply find_some in F. destruct F as [Hin F].
    rewrite Forall_forall in H. apply (H item Hin).
    apply Occurrence.includes_spec, F.
Qed.

(** The properties of an array in the runtime of the examples. *)
Example getConstraintFromEngines_examples :
  getConstraintFromEngines (EnginesArray ["node >=4"; "npm 8"]) "node" = Some (Text " >=4") /\
  getConstraintFromEngines (EnginesArray ["node >=4"; "npm 8"]) "1" = Some (Text "npm 8") /\
  getConstraintFromEngines (EnginesArray ["node >=4"; "npm 8"]) "2" = None /\
  getConstraintFromEngines (EnginesArray ["node >=4"; "npm 8"]) "length" = Some (Length 2) /\
  getConstraintFromEngines (EnginesArray ["node >=4"; "mapper 1"]) "map" = Some Inherited /\
  getConstraintFromEngines (EnginesObject [("node", ">=4")]) "toString" = Some Inherited /\
  getConstraintFromEngines (EnginesObject [("node", ">=4")]) "npm" = None.
Proof. repeat split; vm_compute; reflexivity. Qed.

(** ** The array of ignored ranges *)

Section Ignored.

Context {L : SemverLib} {R : Runtime}.

Lemma restrictiveRange_from_empty fuel :
  forall r1 r2 ignoredRanges,
    restrictiveRange fuel r1 r2 ignoredRanges
    = (' (r, extra) <- restrictiveRange fuel r1 r2 [] ;;
       Ok (r, (ignoredRanges ++ extra)%list)).
Proof.
  induction fuel as [| fuel IH]; intros r1 r2 ign.
  - reflexivity.
  - rewrite !restrictiveRange_S. unfold restrictiveRangeBody.
    destruct (semver_subset r1 r2); [reflexivity |].
    destruct (semver_subset r2 r1); [reflexivity |].
    destruct (minVersionOrStar r1) as [m1 | e |]; cbn [bind]; try reflexivity.
    destruct (minVersionOrStar r2) as [m2 | e |]; cbn [bind]; try reflexivity.
    destruct (sortRangeSet (set r1)) as [s1 | e |]; cbn [bind]; try reflexivity.
    destruct (sortRangeSet (set r2)) as [s2 | e |]; cbn [bind]; try reflexivity.
    destruct (negb (eq m1 m2)).
    + destruct (applyMinVersionToRangeSet s1 _) as [a1 | e |]; cbn [bind]; try reflexivity.
      destruct (setToRange a1) as [n1 | e |]; cbn [bind]; try reflexivity.
      destruct (applyMinVersionToRangeSet s2 _) as [a2 | e |]; cbn [bind]; try reflexivity.
      destruct (setToRange a2) as [n2 | e |]; cbn [bind]; try reflexivity.
      destruct (Range_intersects n1 n2); [apply IH | reflexivity].
    + destruct (firstDefined (hd_error s1) (hd_error s2)) as [minComp |]; [| reflexivity].
      destruct (setToRange (tl s1)) as [n1 | e |]; cbn [bind]; try reflexivity.
      destruct (setToRange (tl s2)) as [n2 | e |]; cbn [bind]; try reflexivity.
      rewrite (IH n1 n2 ign).
      destruct (restrictiveRange fuel n1 n2 []) as [[newRange extra] | e |];
        cbn [bind]; try reflexivity.
      destruct (sortRangeSet (set newRange)) as [rest | e |]; cbn [bind]; try reflexivity.
      destruct (setToRange (minComp :: rest)) as [result | e |]; cbn [bind]; reflexivity.
Qed.

End Ignored.

(** X11.  [restrictiveRange] only appends to [ignoredRanges] and never reads
    it: a call with an array [ignoredRanges] returns, throws or fails to
    return as the call with an empty array does, and the ranges that the
    latter puts into its array are those appended to [ignoredRanges]. *)
Theorem restrictiveRange_appends_only :
  forall (L : SemverLib) (fuel : nat) (r1 r2 : Range) (ignoredRanges : list string),
    restrictiveRange fuel r1 r2 ignoredRanges
    = (' (r, extra) <- restrictiveRange fuel r1 r2 [] ;;
       Ok (r, (ignoredRanges ++ extra)%list)).
Proof. intros L fuel. apply restrictiveRange_from_empty. Qed.

(** ** The aggregation, for every implementation of the [semver] operations *)

Section Aggregation.

Context {L : SemverLib} {R : Runtime}.

Lemma initialState_defined st0 : initialState = Ok st0 -> fst st0 <> None.
Proof.
  unfold initialState. destruct (Range_new "*") as [star |]; [| discriminate].
  intros [= <-]. discriminate.
Qed.

Lemma constraintLoop_all_skipped fuel key packages st :
  forallb (skipped key (snd st)) packages = true ->
  constraintLoop fuel key st packages = Ok st.
Proof.
  unfold constraintLoop. induction packages as [| entry packages IH]; [reflexivity |].
  cbn [forallb foldM]. intros H. apply andb_true_iff in H; destruct H as [He Hp].
  rewrite (constraintStep_skipped fuel key st entry He). cbn [bind]. exact (IH Hp).
Qed.

Lemma skipped_more key ignoredRanges extra entry rv c :
  getConstraintFromEngines (engines (snd entry)) key = Some (Text c) ->
  semver_validRange c = Some rv ->
  In rv ignoredRanges ->
  skipped key (ignoredRanges ++ extra)%list entry = true.
Proof.
  intros Hc Hv Hin. unfold skipped. rewrite Hc, Hv.
  apply orb_true_iff; right. apply existsb_exists. exists rv.
  split; [apply in_or_app; left; exact Hin | apply String.eqb_refl].
Qed.

Lemma computeEnginesConstraint_all_skipped fuel pkgs key star :
  Range_new "*" = Some star ->
  forallb (skipped key []) pkgs = true ->
  computeEnginesConstraint fuel pkgs key = Ok (Some star).
Proof.
  intros Hstar Hs.
  unfold computeEnginesConstraint, initialState. rewrite Hstar. cbn [orThrow bind].
  rewrite constraintLoop_all_skipped by exact Hs. reflexivity.
Qed.

End Aggregation.

(** X12.  When [computeEnginesConstraint] returns, it returns a range: the
    variable [mrr] is defined from the start and stays so, and the branch
    of the loop for an undefined [mrr] is never taken. *)
Theorem computeEnginesConstraint_defined :
  forall (L : SemverLib) (R : Runtime) (fuel : nat) (packages : list (string * LockPackage))
         (constraintKey : string) (mrr : option Range),
    computeEnginesConstraint fuel packages constraintKey = Ok mrr ->
    exists r, mrr = Some r.
Proof.
  intros L R fuel packages key mrr H. unfold computeEnginesConstraint in H.
  inv_bind H. inv_bind H. injection H as <-.
  pose proof (constraintLoop_defined fuel key packages _ _ Ha0
                (initialState_defined _ Ha)) as Hd.
  destruct (fst a0) as [r |]; [exists r; reflexivity | contradiction].
Qed.

Lemma computeEnginesConstraint_defined_witness :
  exists r, Some (parsed ">=14.17.0") = Some r.
Proof.
  apply (computeEnginesConstraint_defined node_semver node_runtime 1
           [dependency "foo" ">=12.22.0"; dependency "bar" ">=14.17.0"] "node").
  vm_compute; reflexivity.
Defined.

(** X13.  When no package declares a usable constraint for the engine,
    each having none, an empty one or one that is not a valid range, and in
    particular when there is no package, [computeEnginesConstraint]
    returns the range [new Range('*')] it starts from. *)
Theorem computeEnginesConstraint_unconstrained :
  forall (L : SemverLib) (R : Runtime) (fuel : nat) (packages : list (string * LockPackage))
         (constraintKey : string) (star : Range),
    Range_new "*" = Some star ->
    forallb (skipped constraintKey []) packages = true ->
    computeEnginesConstraint fuel packages constraintKey = Ok (Some star).
Proof.
  intros L R fuel packages key star Hstar Hs.
  apply computeEnginesConstraint_all_skipped; assumption.
Qed.

Lemma computeEnginesConstraint_unconstrained_witness :
  computeEnginesConstraint (L := node_semver) 0
    [("a", mkLockPackage (EnginesObject [("npm", ">=8.0.0")]));
     ("b", mkLockPackage (EnginesArray ["node >=a.b.c"]));
     ("c", mkLockPackage (EnginesObject [("node", "")]))] "node"
  = Ok (Some (parsed "*")).
Proof.
  apply (computeEnginesConstraint_unconstrained node_semver node_runtime 0 _ "node" (parsed "*"));
    vm_compute; reflexivity.
Defined.

(** X14.  A range that is in [ignoredRanges] at some point of the loop
    stays ignored: a later package whose constraint has this valid range
    is skipped, and the result is the one without that package. *)
Theorem ignored_range_stays_ignored :
  forall (L : SemverLib) (R : Runtime) (fuel : nat) (constraintKey : string)
         (pre mid post : list (string * LockPackage))
         (name : string) (pkg : LockPackage) (constraint rawValidRange : string)
         (st0 st1 : LoopState),
    initialState = Ok st0 ->
    constraintLoop fuel constraintKey st0 pre = Ok st1 ->
    In rawValidRange (snd st1) ->
    getConstraintFromEngines (engines pkg) constraintKey = Some (Text constraint) ->
    semver_validRange constraint = Some rawValidRange ->
    computeEnginesConstraint fuel (pre ++ mid ++ (name, pkg) :: post)%list constraintKey
    = computeEnginesConstraint fuel (pre ++ mid ++ post)%list constraintKey.
Proof.
  intros L R fuel key pre mid post name pkg c rv st0 st1 H0 Hpre Hin Hc Hv.
  unfold computeEnginesConstraint. rewrite H0. cbn [bind].
  unfold constraintLoop in *. rewrite !foldM_app, Hpre. cbn [bind].
  rewrite !foldM_app.
  destruct (foldM (constraintStep fuel key) st1 mid) as [st2 | e |] eqn:Hmid;
    cbn [bind]; try reflexivity.
  destruct (constraintLoop_appends fuel key mid st1 st2 Hmid) as [extra He].
  cbn [foldM].
  rewrite (constraintStep_skipped fuel key st2 (name, pkg)); [reflexivity |].
  rewrite He. eapply skipped_more; eassumption.
Qed.

Lemma ignored_range_stays_ignored_witness :
  computeEnginesConstraint (L := node_semver) 1
    ([dependency "foo" ">=12.22.0"; dependency "bar" ">=14.17.0"]
     ++ [dependency "baz" ">=16.0.0"]
     ++ dependency "lorem" ">=12.22.0" :: [dependency "ipsum" ">=14.17.0"])%list "node"
  = computeEnginesConstraint (L := node_semver) 1
      ([dependency "foo" ">=12.22.0"; dependency "bar" ">=14.17.0"]
       ++ [dependency "baz" ">=16.0.0"]
       ++ [dependency "ipsum" ">=14.17.0"])%list "node".
Proof.
  apply (ignored_range_stays_ignored node_semver node_runtime 1 "node"
           [dependency "foo" ">=12.22.0"; dependency "bar" ">=14.17.0"]
           [dependency "baz" ">=16.0.0"] [dependency "ipsum" ">=14.17.0"]
           "lorem" (mkLockPackage (EnginesObject [("node", ">=12.22.0")]))
           ">=12.22.0" ">=12.22.0"
           (Some (parsed "*"), [])
           (Some (parsed ">=14.17.0"), ["*"; ">=12.22.0"]));
    try (vm_compute; reflexivity).
  right; left; reflexivity.
Defined.

(** ** Maps and objects *)

Module Maps.

Lemma Map_get_set_same {V : Type} k (v : V) m : Map_get k (Map_set k v m) = Some v.
Proof.
  induction m as [| [k' w] m IH]; simpl.
  - rewrite String.eqb_refl. reflexivity.
  - destruct (String.eqb k' k) eqn:E; simpl; rewrite E; [reflexivity | exact IH].
Qed.

Lemma Map_get_set_other {V : Type} k k' (v : V) m :
  k <> k' -> Map_get k (Map_set k' v m) = Map_get k m.
Proof.
  intros Hne. induction m as [| [k0 w] m IH]; simpl.
  - destruct (String.eqb k' k) eqn:E; [apply String.eqb_eq in E; congruence | reflexivity].
  - destruct (String.eqb k0 k') eqn:E; simpl.
    + apply String.eqb_eq in E. subst k0.
      destruct (String.eqb k' k) eqn:E'; [apply String.eqb_eq in E'; congruence |].
      reflexivity.
    + destruct (String.eqb k0 k); [reflexivity | exact IH].
Qed.

Lemma Map_keys_set {V : Type} k (v : V) m x :
  In x (Map_keys (Map_set k v m)) <-> x = k \/ In x (Map_keys m).
Proof.
  unfold Map_keys. induction m as [| [k' w] m IH]; simpl.
  - split; [intros [<- | []]; left; reflexivity | intros [-> | []]; left; reflexivity].
  - destruct (String.eqb k' k) eqn:E; simpl.
    + apply String.eqb_eq in E. subst k'. intuition congruence.
    + rewrite IH. intuition congruence.
Qed.

Lemma Map_set_NoDup {V : Type} k (v : V) m :
  NoDup (Map_keys m) -> NoDup (Map_keys (Map_set k v m)).
Proof.
  unfold Map_keys. induction m as [| [k' w] m IH]; simpl; intros H.
  - constructor; [intros [] | constructor].
  - destruct (String.eqb k' k) eqn:E; simpl; [exact H |].
    inversion H as [| ? ? Hnin Hnd]; subst. constructor; [| apply IH, Hnd].
    intros Hin. apply (Map_keys_set k v m k') in Hin. destruct Hin as [-> | Hin].
    + rewrite String.eqb_refl in E. discriminate.
    + contradiction.
Qed.

Lemma Map_get_None {V : Type} k (m : JSMap V) :
  Map_get k m = None <-> ~ In k (Map_keys m).
Proof.
  unfold Map_keys. induction m as [| [k' w] m IH]; simpl.
  - tauto.
  - destruct (String.eqb k' k) eqn:E.
    + apply String.eqb_eq in E. split; [discriminate | intros H; exfalso; apply H; left; exact E].
    + rewrite IH. apply String.eqb_neq in E. tauto.
Qed.

Lemma Map_get_In {V : Type} k (v : V) m :
  NoDup (Map_keys m) -> (Map_get k m = Some v <-> In (k, v) m).
Proof.
  unfold Map_keys. induction m as [| [k' w] m IH]; simpl; intros H.
  - split; [discriminate | intros []].
  - inversion H as [| ? ? Hnin Hnd]; subst.
    destruct (String.eqb k' k) eqn:E.
    + apply String.eqb_eq in E. subst k'. split.
      * intros [= <-]. left; reflexivity.
      * intros [[= <-] | Hin]; [reflexivity |].
        exfalso; apply Hnin. apply (in_map fst) in Hin. exact Hin.
    + rewrite (IH Hnd). apply String.eqb_neq in E. split.
      * intros Hin; right; exact Hin.
      * intros [[= -> _] | Hin]; [congruence | exact Hin].
Qed.

Lemma property_Map_get key properties : property key properties = Map_get key properties.
Proof.
  induction properties as [| [k v] rest IH]; simpl; [reflexivity |].
  rewrite IH. reflexivity.
Qed.

(** After the assignments of [source], a property has its last value in
    [source], or else the value it had. *)
Lemma Map_get_merge key : forall source object,
  Map_get key (merge object source)
  = match Map_get key (rev source) with
    | Some v => Some v
    | None => Map_get key object
    end.
Proof.
  unfold merge. induction source as [| [k v] source IH]; intros object.
  - reflexivity.
  - cbn [fold_left fst snd]. rewrite IH. cbn [rev].
    assert (A : forall (l1 : list (string * string)) l2,
               Map_get key (l1 ++ l2)%list
               = match Map_get key l1 with Some x => Some x | None => Map_get key l2 end).
    { induction l1 as [| [k1 v1] l1 IHl]; intros l2; simpl; [reflexivity |].
      destruct (String.eqb k1 key); [reflexivity | apply IHl]. }
    rewrite A. destruct (Map_get key (rev source)); [reflexivity |].
    simpl. destruct (String.eqb k key) eqn:E.
    + apply String.eqb_eq in E. subst k. apply Map_get_set_same.
    + apply Map_get_set_other. apply String.eqb_neq in E. congruence.
Qed.

Lemma Map_get_rev {V : Type} key (m : JSMap V) :
  NoDup (Map_keys m) -> Map_get key (rev m) = Map_get key m.
Proof.
  intros H.
  assert (Hr : NoDup (Map_keys (rev m))).
  { unfold Map_keys in *. rewrite map_rev. apply NoDup_rev, H. }
  destruct (Map_get key m) as [v |] eqn:G.
  - apply (Map_get_In _ _ _ Hr). apply -> in_rev. apply (Map_get_In _ _ _ H), G.
  - apply Map_get_None. apply Map_get_None in G. unfold Map_keys in *.
    rewrite map_rev. intros Hin. apply G. apply in_rev. exact Hin.
Qed.

Lemma Map_get_merge_NoDup key source object :
  NoDup (Map_keys source) ->
  Map_get key (merge object source)
  = match Map_get key source with
    | Some v => Some v
    | None => Map_get key object
    end.
Proof. intros H. rewrite Map_get_merge, (Map_get_rev key source H). reflexivity. Qed.

End Maps.

(** ** The tasks of the check command *)

(** *** The ranges of the selected engines *)

Section RangesLoop.

Context {L : SemverLib} {R : Runtime}.

Lemma rangesStep_inv fuel pd lp acc k acc' :
  rangesStep fuel pd lp acc k = Ok acc' ->
  exists rangeFrom rangeTo,
    computeEnginesConstraint fuel (ownPackages pd) k = Ok rangeFrom /\
    computeEnginesConstraint fuel lp k = Ok rangeTo /\
    acc' = Map_set k (mkEngineConstraintChange rangeFrom rangeTo) acc.
Proof.
  unfold rangesStep. intros H. inv_bind H. inv_bind H. injection H as <-.
  exists a, a0. repeat split; assumption.
Qed.

Lemma rangesLoop_spec fuel pd lp : forall keys acc ranges,
  foldM (rangesStep fuel pd lp) acc keys = Ok ranges ->
  (forall k, In k (Map_keys ranges) <-> In k (Map_keys acc) \/ In k keys) /\
  (NoDup (Map_keys acc) -> NoDup (Map_keys ranges)) /\
  (forall k change,
      Map_get k ranges = Some change ->
      Map_get k acc = Some change \/
      (In k keys /\
       computeEnginesConstraint fuel (ownPackages pd) k = Ok (from change) /\
       computeEnginesConstraint fuel lp k = Ok (to change))).
Proof.
  induction keys as [| k0 keys IH]; intros acc ranges H; cbn [foldM] in H.
  - injection H as <-. repeat split; try tauto. intros [H | []]; exact H.
  - inv_bind H. apply rangesStep_inv in Ha.
    destruct Ha as [rf [rt [Hf [Ht ->]]]].
    destruct (IH _ _ H) as [Hk [Hn Hv]]. repeat split.
    + intros Hin. apply Hk in Hin. destruct Hin as [Hin | Hin].
      * apply Maps.Map_keys_set in Hin. destruct Hin as [-> | Hin];
          [right; left; reflexivity | left; exact Hin].
      * right; right; exact Hin.
    + intros [Hin | [<- | Hin]]; apply Hk.
      * left. apply Maps.Map_keys_set. right; exact Hin.
      * left. apply Maps.Map_keys_set. left; reflexivity.
      * right; exact Hin.
    + intros Hnd. apply Hn, Maps.Map_set_NoDup, Hnd.
    + intros k change Hg. apply Hv in Hg. destruct Hg as [Hg | [Hin Hc]].
      * destruct (String.eqb k0 k) eqn:E.
        { apply String.eqb_eq in E. subst k0. rewrite Maps.Map_get_set_same in Hg.
          injection Hg as <-. right. cbn [from to].
          repeat split; [left; reflexivity | exact Hf | exact Ht]. }
        { apply String.eqb_neq in E. rewrite Maps.Map_get_set_other in Hg by congruence.
          left; exact Hg. }
      * right. split; [right; exact Hin | exact Hc].
Qed.

End RangesLoop.

Section Compute.

Context {L : SemverLib} {R : Runtime}.
Variable EngineConstraintKeys : list string.

Lemma constraintKeys_given ctx e es :
  Ctx.engines ctx = Some (e :: es) ->
  constraintKeys EngineConstraintKeys ctx
  = filter (filterEngineConstraintKey EngineConstraintKeys) (e :: es).
Proof. unfold constraintKeys. intros ->. reflexivity. Qed.

Lemma constraintKeys_default ctx :
  Ctx.engines ctx = None \/ Ctx.engines ctx = Some [] ->
  constraintKeys EngineConstraintKeys ctx = EngineConstraintKeys.
Proof. unfold constraintKeys. intros [-> | ->]; reflexivity. Qed.

Lemma constraintKeys_known ctx k :
  In k (constraintKeys EngineConstraintKeys ctx) -> In k EngineConstraintKeys.
Proof.
  unfold constraintKeys. destruct (Ctx.engines ctx) as [[| e es] |]; try (intros H; exact H).
  intros H. apply filter_In in H. destruct H as [_ H].
  unfold filterEngineConstraintKey in H. apply existsb_exists in H.
  destruct H as [x [Hx E]]. apply String.eqb_eq in E. subst x. exact Hx.
Qed.

(** The selected engines, spelled out: the given engines that are in
    [EngineConstraintKeys], or all of [EngineConstraintKeys] when none is
    given. *)
Lemma constraintKeys_selected ctx k :
  In k (constraintKeys EngineConstraintKeys ctx)
  <-> match Ctx.engines ctx with
      | Some (e :: es) => In k (e :: es) /\ In k EngineConstraintKeys
      | _ => In k EngineConstraintKeys
      end.
Proof.
  destruct (Ctx.engines ctx) as [[| e es] |] eqn:En.
  - rewrite constraintKeys_default by (right; exact En). tauto.
  - rewrite (constraintKeys_given ctx e es En), filter_In.
    unfold filterEngineConstraintKey. rewrite existsb_exists. split.
    + intros [Hin [x [Hx E]]]. apply String.eqb_eq in E. subst x. tauto.
    + intros [Hin Hk]. split; [exact Hin |]. exists k. split; [exact Hk |].
      apply String.eqb_refl.
  - rewrite constraintKeys_default by (left; exact En). tauto.
Qed.

Lemma computeEnginesConstraints_inv fuel ctx ctx' :
  computeEnginesConstraints EngineConstraintKeys fuel ctx = Done ctx' ->
  exists pd ld lp ranges,
    data (Ctx.packageObject ctx) = Some pd /\
    data (Ctx.packageLockObject ctx) = Some ld /\
    packages ld = Some lp /\
    foldM (rangesStep fuel pd lp) [] (constraintKeys EngineConstraintKeys ctx) = Ok ranges /\
    ctx' = Ctx.setRanges ctx ranges.
Proof.
  unfold computeEnginesConstraints.
  destruct (data (Ctx.packageObject ctx)) as [pd |]; [| discriminate].
  destruct (data (Ctx.packageLockObject ctx)) as [ld |]; [| discriminate].
  destruct (packages ld) as [lp |] eqn:Hp; [| discriminate].
  destruct (constraintKeys EngineConstraintKeys ctx) as [| k keys]; [discriminate |].
  destruct (foldM (rangesStep fuel pd lp) [] (k :: keys)) as [ranges | e |] eqn:F;
    cbn [lift andThen]; try discriminate.
  intros [= <-]. exists pd, ld, lp, ranges. repeat split; assumption.
Qed.

(** X15.  [computeEnginesConstraints] stores in [ctx.ranges] one entry for
    each selected engine and no other: when the context gives engines,
    those of them that are in [EngineConstraintKeys]; when it gives none,
    all of [EngineConstraintKeys].  No range is computed for an engine
    outside [EngineConstraintKeys], and the rest of the context is left as
    it is. *)
Theorem computeEnginesConstraints_keys :
  forall (fuel : nat) (ctx ctx' : Ctx.CheckCommandContext),
    computeEnginesConstraints EngineConstraintKeys fuel ctx = Done ctx' ->
    exists ranges,
      ctx' = Ctx.setRanges ctx ranges /\
      NoDup (Map_keys ranges) /\
      (forall k, In k (Map_keys ranges)
                 <-> match Ctx.engines ctx with
                     | Some (e :: es) => In k (e :: es) /\ In k EngineConstraintKeys
                     | _ => In k EngineConstraintKeys
                     end) /\
      (forall k, In k (Map_keys ranges) -> In k EngineConstraintKeys).
Proof.
  intros fuel ctx ctx' H. apply computeEnginesConstraints_inv in H.
  destruct H as [pd [ld [lp [ranges [_ [_ [_ [F ->]]]]]]]].
  destruct (rangesLoop_spec fuel pd lp _ _ _ F) as [Hk [Hn _]].
  assert (K : forall k, In k (Map_keys ranges)
                        <-> In k (constraintKeys EngineConstraintKeys ctx)).
  { intros k. split.
    - intros Hin. apply Hk in Hin. destruct Hin as [[] | Hin]. exact Hin.
    - intros Hin. apply Hk. right; exact Hin. }
  exists ranges. split; [reflexivity |]. split; [apply Hn; constructor |]. split.
  - intros k. rewrite K. apply constraintKeys_selected.
  - intros k Hin. apply K in Hin. apply (constraintKeys_known ctx k Hin).
Qed.

(** X16.  Each entry of [ctx.ranges] holds, as [from], the range that
    [computeEnginesConstraint] computes for the engine from the [engines]
    of [package.json] alone and, as [to], the one it computes from the
    packages of the lock file. *)
Theorem computeEnginesConstraints_ranges :
  forall (fuel : nat) (ctx ctx' : Ctx.CheckCommandContext)
         (packageData : PackageJSON.PackageJSONSchema) (lockData : PackageLockJSONSchema)
         (lockPackages : list (string * LockPackage))
         (ranges : JSMap EngineConstraintChange)
         (engine : string) (change : EngineConstraintChange),
    computeEnginesConstraints EngineConstraintKeys fuel ctx = Done ctx' ->
    data (Ctx.packageObject ctx) = Some packageData ->
    data (Ctx.packageLockObject ctx) = Some lockData ->
    packages lockData = Some lockPackages ->
    Ctx.ranges ctx' = Some ranges ->
    Map_get engine ranges = Some change ->
    computeEnginesConstraint fuel (ownPackages packageData) engine = Ok (from change) /\
    computeEnginesConstraint fuel lockPackages engine = Ok (to change).
Proof.
  intros fuel ctx ctx' pd ld lp ranges k change H Hpd Hld Hlp Hr Hg.
  apply computeEnginesConstraints_inv in H.
  destruct H as [pd' [ld' [lp' [ranges' [Hpd' [Hld' [Hlp' [F ->]]]]]]]].
  rewrite Hpd in Hpd'. injection Hpd' as <-.
  rewrite Hld in Hld'. injection Hld' as <-.
  rewrite Hlp in Hlp'. injection Hlp' as <-.
  cbn [Ctx.setRanges Ctx.ranges] in Hr. injection Hr as ->.
  destruct (rangesLoop_spec fuel pd lp _ _ _ F) as [_ [_ Hv]].
  destruct (Hv k change Hg) as [Hg' | [_ Hc]]; [discriminate | exact Hc].
Qed.

(** X17.  With both files loaded and a [packages] property in the lock
    file, [computeEnginesConstraints] throws [No valid constraint key(s).]
    exactly when no engine is selected: the context gives engines and none
    of them is in [EngineConstraintKeys], or it gives none and
    [EngineConstraintKeys] is empty.  Engines outside
    [EngineConstraintKeys] given next to one inside are dropped in
    silence. *)
Theorem computeEnginesConstraints_no_valid_key :
  forall (fuel : nat) (ctx : Ctx.CheckCommandContext)
         (packageData : PackageJSON.PackageJSONSchema) (lockData : PackageLockJSONSchema)
         (lockPackages : list (string * LockPackage)),
    data (Ctx.packageObject ctx) = Some packageData ->
    data (Ctx.packageLockObject ctx) = Some lockData ->
    packages lockData = Some lockPackages ->
    (computeEnginesConstraints EngineConstraintKeys fuel ctx
     = Failed (Message "No valid constraint key(s).")
     <-> match Ctx.engines ctx with
         | Some (e :: es) => forall k, In k (e :: es) -> ~ In k EngineConstraintKeys
         | _ => EngineConstraintKeys = []
         end).
Proof.
  intros fuel ctx pd ld lp Hpd Hld Hlp.
  unfold computeEnginesConstraints. rewrite Hpd, Hld, Hlp.
  assert (K : constraintKeys EngineConstraintKeys ctx = []
              <-> match Ctx.engines ctx with
                  | Some (e :: es) => forall k, In k (e :: es) -> ~ In k EngineConstraintKeys
                  | _ => EngineConstraintKeys = []
                  end).
  { destruct (Ctx.engines ctx) as [[| e es] |] eqn:En.
    - rewrite constraintKeys_default by (right; exact En). tauto.
    - rewrite (constraintKeys_given ctx e es En).
      set (given := e :: es). split.
      + intros F k Hk Hin.
        assert (Hf : In k (filter (filterEngineConstraintKey EngineConstraintKeys) given)).
        { apply filter_In. split; [exact Hk |]. unfold filterEngineConstraintKey.
          apply existsb_exists. exists k. split; [exact Hin | apply String.eqb_refl]. }
        rewrite F in Hf. destruct Hf.
      + intros H.
        destruct (filter (filterEngineConstraintKey EngineConstraintKeys) given)
          as [| k ks] eqn:F; [reflexivity |].
        assert (Hf : In k (filter (filterEngineConstraintKey EngineConstraintKeys) given))
          by (rewrite F; left; reflexivity).
        apply filter_In in Hf. destruct Hf as [Hk Hx]. exfalso. apply (H k Hk).
        unfold filterEngineConstraintKey in Hx. apply existsb_exists in Hx.
        destruct Hx as [x [Hx E]]. apply String.eqb_eq in E. subst x. exact Hx.
    - rewrite constraintKeys_default by (left; exact En). tauto. }
  rewrite <- K.
  destruct (constraintKeys EngineConstraintKeys ctx) as [| k keys].
  - split; reflexivity.
  - split; [| discriminate]. intros H. exfalso.
    destruct (foldM (rangesStep fuel pd lp) [] (k :: keys)); discriminate.
Qed.

(** X18.  For an engine for which [package.json] declares no usable
    constraint (none, an empty one, or one that is not a valid range), the
    [from] range of its entry in [ctx.ranges] is [new Range('*')]. *)
Theorem computeEnginesConstraints_from_universal :
  forall (fuel : nat) (ctx ctx' : Ctx.CheckCommandContext)
         (packageData : PackageJSON.PackageJSONSchema)
         (ranges : JSMap EngineConstraintChange)
         (engine : string) (change : EngineConstraintChange) (star : Range),
    Range_new "*" = Some star ->
    computeEnginesConstraints EngineConstraintKeys fuel ctx = Done ctx' ->
    data (Ctx.packageObject ctx) = Some packageData ->
    forallb (skipped engine []) (ownPackages packageData) = true ->
    Ctx.ranges ctx' = Some ranges ->
    Map_get engine ranges = Some change ->
    from change = Some star.
Proof.
  intros fuel ctx ctx' pd ranges k change star Hstar H Hpd Hs Hr Hg.
  apply computeEnginesConstraints_inv in H.
  destruct H as [pd' [ld [lp [ranges' [Hpd' [_ [_ [F ->]]]]]]]].
  rewrite Hpd in Hpd'. injection Hpd' as <-.
  cbn [Ctx.setRanges Ctx.ranges] in Hr. injection Hr as ->.
  destruct (rangesLoop_spec fuel pd lp _ _ _ F) as [_ [_ Hv]].
  destruct (Hv k change Hg) as [Hg' | [_ [Hc _]]]; [discriminate |].
  rewrite (computeEnginesConstraint_all_skipped fuel _ k star Hstar Hs) in Hc.
  injection Hc as <-. reflexivity.
Qed.

End Compute.

Lemma computeEnginesConstraints_keys_witness :
  exists ranges,
    Ctx.setRanges (exampleContext (Some ["node"; "deno"])) exampleRanges
    = Ctx.setRanges (exampleContext (Some ["node"; "deno"])) ranges /\
    NoDup (Map_keys ranges) /\
    (forall k, In k (Map_keys ranges)
               <-> In k ["node"; "deno"] /\ In k exampleKeys) /\
    (forall k, In k (Map_keys ranges) -> In k exampleKeys).
Proof.
  apply (computeEnginesConstraints_keys (L := node_semver) exampleKeys 1
           (exampleContext (Some ["node"; "deno"]))).
  vm_compute; reflexivity.
Defined.

Lemma computeEnginesConstraints_ranges_witness :
  computeEnginesConstraint (L := node_semver) 1 (ownPackages examplePackage) "node"
  = Ok (Some (parsed "*")) /\
  computeEnginesConstraint (L := node_semver) 1
    [dependency "foo" ">=12.22.0"; dependency "bar" ">=14.17.0"] "node"
  = Ok (Some (parsed ">=14.17.0")).
Proof.
  apply (computeEnginesConstraints_ranges (L := node_semver) exampleKeys 1
           (exampleContext (Some ["node"]))
           (Ctx.setRanges (exampleContext (Some ["node"])) exampleRanges)
           examplePackage exampleLock
           [dependency "foo" ">=12.22.0"; dependency "bar" ">=14.17.0"]
           exampleRanges "node"
           (mkEngineConstraintChange (Some (parsed "*")) (Some (parsed ">=14.17.0"))));
    vm_compute; reflexivity.
Defined.

Lemma computeEnginesConstraints_no_valid_key_witness :
  computeEnginesConstraints (L := node_semver) exampleKeys 1 (exampleContext (Some ["deno"]))
  = Failed (Message "No valid constraint key(s).")
  <-> (forall k, In k ["deno"] -> ~ In k exampleKeys).
Proof.
  apply (computeEnginesConstraints_no_valid_key (L := node_semver) exampleKeys 1
           (exampleContext (Some ["deno"])) examplePackage exampleLock
           [dependency "foo" ">=12.22.0"; dependency "bar" ">=14.17.0"]);
    reflexivity.
Defined.

Lemma computeEnginesConstraints_from_universal_witness :
  from (mkEngineConstraintChange (Some (parsed "*")) (Some (parsed ">=14.17.0")))
  = Some (parsed "*").
Proof.
  apply (computeEnginesConstraints_from_universal (L := node_semver) exampleKeys 1
           (exampleContext (Some ["node"]))
           (Ctx.setRanges (exampleContext (Some ["node"])) exampleRanges)
           examplePackage exampleRanges "node"
           (mkEngineConstraintChange (Some (parsed "*")) (Some (parsed ">=14.17.0")))
           (parsed "*"));
    vm_compute; reflexivity.
Defined.

(** *** The table of changes *)

Lemma outputStep_inv rs w0 w1 w2 w3 rows engine change st' :
  outputStep (rs, (w0, w1, w2, w3), rows) (engine, change) = Ok st' ->
  exists textTo textFrom,
    humanizeRange (to change) = Ok textTo /\
    humanizeRange (from change) = Ok textFrom /\
    ((textTo = textFrom /\ st' = (rs, (w0, w1, w2, w3), rows)) \/
     (textTo <> textFrom /\
      st' = (Map_set engine textTo rs,
             (Nat.max w0 (String.length engine + 2),
              Nat.max w1 (String.length textFrom + 2),
              arrowSeparator_length + 2,
              Nat.max w3 (String.length textTo + 2)),
             (rows ++ [(engine, textFrom, arrowSeparator, textTo)])%list))).
Proof.
  unfold outputStep. intros H. inv_bind H. inv_bind H.
  exists a, a0. split; [exact Ha |]. split; [exact Ha0 |].
  destruct (String.eqb a a0) eqn:E.
  - apply String.eqb_eq in E. left. split; [exact E |]. injection H as <-. reflexivity.
  - apply String.eqb_neq in E. right. split; [exact E |]. injection H as <-. reflexivity.
Qed.

Lemma outputLoop_changes : forall ranges st st',
  foldM outputStep st ranges = Ok st' ->
  NoDup (Map_keys ranges) ->
  (forall k, In k (Map_keys ranges) -> Map_get k (fst (fst st)) = None) ->
  forall k text,
    Map_get k (fst (fst st')) = Some text <->
    Map_get k (fst (fst st)) = Some text \/
    exists change,
      Map_get k ranges = Some change /\
      humanizeRange (to change) = Ok text /\
      humanizeRange (from change) <> Ok text.
Proof.
  induction ranges as [| [engine change] ranges IH]; intros st st' H Hnd Hfresh k text;
    cbn [foldM] in H.
  - injection H as <-. split; [intros H; left; exact H |].
    intros [H | [c [Hc _]]]; [exact H | discriminate].
  - inv_bind H. destruct st as [[rs [[[w0 w1] w2] w3]] rows].
    apply outputStep_inv in Ha.
    destruct Ha as [textTo [textFrom [Hto [Hfrom Hst]]]].
    unfold Map_keys in Hnd. cbn [map fst] in Hnd.
    inversion Hnd as [| ? ? Hnin Hnd']; subst.
    assert (Hfresh0 : Map_get engine rs = None)
      by (apply (Hfresh engine); left; reflexivity).
    assert (Hfresh' : forall k0, In k0 (Map_keys ranges) -> Map_get k0 (fst (fst a)) = None).
    { intros k0 Hk0.
      assert (Hne : k0 <> engine) by (intros ->; contradiction).
      destruct Hst as [[_ ->] | [_ ->]]; cbn [fst].
      - apply (Hfresh k0); right; exact Hk0.
      - rewrite Maps.Map_get_set_other by exact Hne. apply (Hfresh k0); right; exact Hk0. }
    rewrite (IH a st' H Hnd' Hfresh' k text). cbn [fst Map_get].
    destruct (String.eqb engine k) eqn:E.
    + apply String.eqb_eq in E. subst k.
      assert (Hnone : Map_get engine ranges = None) by (apply Maps.Map_get_None, Hnin).
      destruct Hst as [[Heq ->] | [Hne ->]]; cbn [fst].
      * rewrite Hfresh0. split.
        { intros [Hx | [c [Hc _]]]; [discriminate | congruence]. }
        { intros [Hx | [c [[= <-] [Ht Hf]]]]; [discriminate |].
          exfalso. apply Hf. rewrite Hfrom. congruence. }
      * rewrite Maps.Map_get_set_same, Hfresh0. split.
        { intros [[= <-] | [c [Hc _]]]; [| congruence].
          right. exists change. repeat split; [exact Hto |].
          rewrite Hfrom. intros [= Hx]. apply Hne. symmetry; exact Hx. }
        { intros [Hx | [c [[= <-] [Ht Hf]]]]; [discriminate |].
          left. congruence. }
    + apply String.eqb_neq in E.
      assert (Hsame : Map_get k (fst (fst a)) = Map_get k rs).
      { destruct Hst as [[_ ->] | [_ ->]]; cbn [fst]; [reflexivity |].
        apply Maps.Map_get_set_other. congruence. }
      rewrite Hsame. reflexivity.
Qed.

Lemma outputLoop_NoDup : forall ranges st st',
  foldM outputStep st ranges = Ok st' ->
  NoDup (Map_keys (fst (fst st))) -> NoDup (Map_keys (fst (fst st'))).
Proof.
  induction ranges as [| [engine change] ranges IH]; intros st st' H Hnd; cbn [foldM] in H.
  - injection H as <-. exact Hnd.
  - inv_bind H. destruct st as [[rs [[[w0 w1] w2] w3]] rows].
    apply outputStep_inv in Ha. destruct Ha as [textTo [textFrom [_ [_ Hst]]]].
    apply (IH a st' H).
    destruct Hst as [[_ ->] | [_ ->]]; cbn [fst] in *;
      [exact Hnd | apply Maps.Map_set_NoDup, Hnd].
Qed.

Lemma outputLoop_fits : forall ranges st st',
  foldM outputStep st ranges = Ok st' ->
  (let '(_, (w0, w1, w2, w3), rows) := st in
   Forall (fits (w0, w1, w2, w3)) rows /\
   (2 <= w0)%nat /\ (2 <= w1)%nat /\ (2 <= w2)%nat /\ (2 <= w3)%nat) ->
  let '(_, (w0, w1, w2, w3), rows) := st' in
  Forall (fits (w0, w1, w2, w3)) rows /\
  (2 <= w0)%nat /\ (2 <= w1)%nat /\ (2 <= w2)%nat /\ (2 <= w3)%nat.
Proof.
  induction ranges as [| [engine change] ranges IH]; intros st st' H Hst; cbn [foldM] in H.
  - injection H as <-. exact Hst.
  - inv_bind H. apply (IH a st' H). clear IH H.
    destruct st as [[rs [[[w0 w1] w2] w3]] rows].
    apply outputStep_inv in Ha. destruct Ha as [textTo [textFrom [_ [_ Ha]]]].
    destruct Ha as [[_ ->] | [_ ->]]; [exact Hst |].
    destruct Hst as [Hrows [H0 [H1 [H2 H3]]]].
    unfold arrowSeparator_length in *.
    repeat split; try lia.
    apply Forall_app. split.
    + eapply Forall_impl; [| exact Hrows]. intros row Hrow.
      destruct row as [[[e f] a] t]. unfold fits in *.
      unfold arrowSeparator_length in *. lia.
    + constructor; [| constructor]. unfold fits, arrowSeparator_length. lia.
Qed.

Lemma Map_set_not_empty {V : Type} k (v : V) m : Map_set k v m <> [].
Proof. destruct m as [| [k' w] m]; simpl; [| destruct (String.eqb k' k)]; discriminate. Qed.

Lemma outputLoop_rows : forall ranges st st',
  foldM outputStep st ranges = Ok st' ->
  (fst (fst st) = [] <-> snd st = []) ->
  (fst (fst st') = [] <-> snd st' = []).
Proof.
  induction ranges as [| [engine change] ranges IH]; intros st st' H Hst; cbn [foldM] in H.
  - injection H as <-. exact Hst.
  - inv_bind H. apply (IH a st' H). clear IH H.
    destruct st as [[rs [[[w0 w1] w2] w3]] rows].
    apply outputStep_inv in Ha. destruct Ha as [textTo [textFrom [_ [_ Ha]]]].
    destruct Ha as [[_ ->] | [_ ->]]; [exact Hst |]. cbn [fst snd]. split.
    + intros E. exfalso. exact (Map_set_not_empty _ _ _ E).
    + intros E. exfalso. destruct rows; discriminate.
Qed.

Section Output.

Variable getRelativePath : string -> string -> string.
Variable chalk_green chalk_cyan : string -> string.
Variable tableText : Widths -> list Row -> string.

Lemma outputComputedConstraints_inv ctx ctx' title :
  outputComputedConstraints getRelativePath chalk_green chalk_cyan tableText ctx
  = Done (ctx', title) ->
  exists ranges rs w rows,
    Ctx.ranges ctx = Some ranges /\
    outputLoop ranges = Ok (rs, w, rows) /\
    ctx' = Ctx.setRangesSimplified ctx rs.
Proof.
  unfold outputComputedConstraints.
  destruct (Ctx.ranges ctx) as [ranges |]; [| discriminate].
  destruct (outputLoop ranges) as [[[rs w] rows] | e |] eqn:F;
    cbn [lift andThen]; try discriminate.
  intros [= <- _]. exists ranges, rs, w, rows. repeat split. exact F.
Qed.

(** X19.  [outputComputedConstraints] stores in [ctx.rangesSimplified] the
    engines of [ctx.ranges] whose [to] range is rendered by
    [humanizeRange] differently from their [from] range, each with the
    rendering of its [to] range, and no other entry. *)
Theorem outputComputedConstraints_changes :
  forall (ctx ctx' : Ctx.CheckCommandContext) (title : string)
         (ranges : JSMap EngineConstraintChange),
    Ctx.ranges ctx = Some ranges ->
    NoDup (Map_keys ranges) ->
    outputComputedConstraints getRelativePath chalk_green chalk_cyan tableText ctx
    = Done (ctx', title) ->
    exists rangesSimplified,
      ctx' = Ctx.setRangesSimplified ctx rangesSimplified /\
      NoDup (Map_keys rangesSimplified) /\
      forall engine text,
        Map_get engine rangesSimplified = Some text <->
        exists change,
          Map_get engine ranges = Some change /\
          humanizeRange (to change) = Ok text /\
          humanizeRange (from change) <> Ok text.
Proof.
  intros ctx ctx' title ranges Hr Hnd H.
  apply outputComputedConstraints_inv in H.
  destruct H as [ranges' [rs [w [rows [Hr' [F ->]]]]]].
  rewrite Hr in Hr'. injection Hr' as <-.
  exists rs. split; [reflexivity |]. split.
  - apply (outputLoop_NoDup ranges _ _ F). constructor.
  - intros engine text.
    rewrite (outputLoop_changes ranges _ _ F Hnd (fun _ _ => eq_refl) engine text).
    cbn [fst Map_get]. split; [intros [Hx | Hx]; [discriminate | exact Hx] |].
    intros Hx; right; exact Hx.
Qed.

(** X20.  The title that [outputComputedConstraints] sets says that all
    ranges are up to date when [ctx.rangesSimplified] ends up empty.
    Otherwise it shows a table that has at least one row and whose columns
    are wide enough for every row, each text with two characters to spare,
    followed, unless the update flag is set, by the command to run for the
    update. *)
Theorem outputComputedConstraints_title :
  forall (ctx ctx' : Ctx.CheckCommandContext) (title : string),
    outputComputedConstraints getRelativePath chalk_green chalk_cyan tableText ctx
    = Done (ctx', title) ->
    (Ctx.rangesSimplified ctx' = Some [] /\
     title = "All computed engines range constraints are up-to-date "
             ++ chalk_green ":)") \/
    (exists (colWidths : Widths) (colValues : list Row) (table : string),
        Ctx.rangesSimplified ctx' <> Some [] /\
        colValues <> [] /\
        Forall (fits colWidths) colValues /\
        table = "Computed engines range constraints:" ++ newline ++ newline
                ++ tableText colWidths colValues /\
        title = if Ctx.update ctx then table
                else table ++ newline ++ newline ++ "Run "
                     ++ chalk_cyan (generateUpdateCommandFromContext getRelativePath ctx)
                     ++ " to upgrade " ++ filename (Ctx.packageObject ctx) ++ ".").
Proof.
  intros ctx ctx' title. unfold outputComputedConstraints.
  destruct (Ctx.ranges ctx) as [ranges |]; [| discriminate].
  destruct (outputLoop ranges) as [[[rs w] rows] | e |] eqn:F;
    cbn [lift andThen]; try discriminate.
  intros [= <- <-].
  pose proof (outputLoop_rows ranges _ _ F) as Hrows. cbn [fst snd] in Hrows.
  specialize (Hrows (conj (fun _ => eq_refl) (fun _ => eq_refl))).
  destruct w as [[[w0 w1] w2] w3].
  pose proof (outputLoop_fits ranges _ _ F) as Hfits. cbn beta iota in Hfits.
  assert (Hinit : Forall (fits (2, 2, 2, 2)) [] /\
                  (2 <= 2)%nat /\ (2 <= 2)%nat /\ (2 <= 2)%nat /\ (2 <= 2)%nat)
    by (repeat split; try lia; constructor).
  specialize (Hfits Hinit). destruct Hfits as [Hfits _].
  destruct rs as [| entry rs].
  - left. split; reflexivity.
  - right. exists (w0, w1, w2, w3), rows. eexists. split; [discriminate |].
    split.
    + intros E. apply Hrows in E. discriminate.
    + split; [exact Hfits |]. split; [reflexivity |].
      destruct (Ctx.update ctx); reflexivity.
Qed.

End Output.

Lemma outputComputedConstraints_changes_witness :
  exists rangesSimplified,
    Ctx.setRangesSimplified (Ctx.setRanges (exampleContext None) exampleRanges)
      [("node", ">=14.17.0")]
    = Ctx.setRangesSimplified (Ctx.setRanges (exampleContext None) exampleRanges)
        rangesSimplified /\
    NoDup (Map_keys rangesSimplified) /\
    forall engine text,
      Map_get engine rangesSimplified = Some text <->
      exists change,
        Map_get engine exampleRanges = Some change /\
        humanizeRange (to change) = Ok text /\
        humanizeRange (from change) <> Ok text.
Proof.
  apply (outputComputedConstraints_changes samePath plainText plainText noTable
           (Ctx.setRanges (exampleContext None) exampleRanges) _
           ("Computed engines range constraints:" ++ newline ++ newline)
           exampleRanges).
  - reflexivity.
  - repeat constructor. intros [].
  - vm_compute; reflexivity.
Defined.

Lemma outputComputedConstraints_title_witness :
  (Ctx.rangesSimplified
     (Ctx.setRangesSimplified (Ctx.setRanges (exampleContext None) exampleRanges)
        [("node", ">=14.17.0")]) = Some [] /\
   "Computed engines range constraints:" ++ newline ++ newline
   = "All computed engines range constraints are up-to-date " ++ plainText ":)") \/
  (exists (colWidths : Widths) (colValues : list Row) (table : string),
      Ctx.rangesSimplified
        (Ctx.setRangesSimplified (Ctx.setRanges (exampleContext None) exampleRanges)
           [("node", ">=14.17.0")]) <> Some [] /\
      colValues <> [] /\
      Forall (fits colWidths) colValues /\
      table = "Computed engines range constraints:" ++ newline ++ newline
              ++ noTable colWidths colValues /\
      "Computed engines range constraints:" ++ newline ++ newline
      = if Ctx.update (Ctx.setRanges (exampleContext None) exampleRanges) then table
        else table ++ newline ++ newline ++ "Run "
             ++ plainText (generateUpdateCommandFromContext samePath
                             (Ctx.setRanges (exampleContext None) exampleRanges))
             ++ " to upgrade "
             ++ filename (Ctx.packageObject
                            (Ctx.setRanges (exampleContext None) exampleRanges)) ++ ".").
Proof.
  apply (outputComputedConstraints_title samePath plainText plainText noTable
           (Ctx.setRanges (exampleContext None) exampleRanges)).
  vm_compute; reflexivity.
Defined.

Lemma merged_engines pd rs k :
  NoDup (Map_keys (PackageJSON.enginesObject pd)) ->
  NoDup (Map_keys rs) ->
  property k (merge (merge [] (PackageJSON.enginesObject pd)) rs)
  = match Map_get k rs with
    | Some v => Some v
    | None => property k (PackageJSON.enginesObject pd)
    end.
Proof.
  intros He Hr. rewrite !Maps.property_Map_get.
  rewrite (Maps.Map_get_merge_NoDup k rs _ Hr).
  rewrite (Maps.Map_get_merge_NoDup k _ [] He).
  destruct (Map_get k rs); [reflexivity |].
  destruct (Map_get k (PackageJSON.enginesObject pd)); reflexivity.
Qed.

Lemma merge_NoDup_same : forall (source object : list (string * string)),
  NoDup (Map_keys (object ++ source)%list) ->
  merge object source = (object ++ source)%list.
Proof.
  unfold merge. induction source as [| [k v] source IH]; intros object Hnd.
  - cbn [fold_left]. rewrite app_nil_r. reflexivity.
  - cbn [fold_left fst snd].
    assert (Hset : Map_set k v object = (object ++ [(k, v)])%list).
    { assert (Hk : ~ In k (Map_keys object)).
      { unfold Map_keys in *. rewrite map_app in Hnd. cbn [map fst] in Hnd.
        apply NoDup_remove_2 in Hnd. intros Hin. apply Hnd.
        apply in_or_app. left; exact Hin. }
      clear - Hk. induction object as [| [k' w] object IHo]; [reflexivity |].
      cbn [Map_set]. destruct (String.eqb k' k) eqn:E.
      - apply String.eqb_eq in E. subst k'. exfalso. apply Hk. left; reflexivity.
      - cbn [app]. rewrite IHo; [reflexivity |].
        intros Hin. apply Hk. right; exact Hin. }
    rewrite Hset, IH; rewrite <- app_assoc; [reflexivity | exact Hnd].
Qed.

Section Update.

Variable sortPackageJson : PackageJSON.PackageJSONSchema -> PackageJSON.PackageJSONSchema.

(** *** The update *)

Lemma updatePackageJson_inv ctx ctx' file content :
  updatePackageJson sortPackageJson ctx = Done (ctx', (file, content)) ->
  exists rs pd,
    Ctx.rangesSimplified ctx = Some rs /\
    data (Ctx.packageObject ctx) = Some pd /\
    relativePath (Ctx.packageObject ctx) = Some file /\
    file <> "" /\
    content = sortPackageJson
                (PackageJSON.mk (Some (merge (merge [] (PackageJSON.enginesObject pd)) rs))
                                (PackageJSON.others pd)) /\
    ctx' = Ctx.setPackageEngines ctx (merge (merge [] (PackageJSON.enginesObject pd)) rs).
Proof.
  unfold updatePackageJson.
  destruct (Ctx.rangesSimplified ctx) as [rs |]; [| discriminate].
  destruct (data (Ctx.packageObject ctx)) as [pd |]; [| discriminate].
  destruct (relativePath (Ctx.packageObject ctx)) as [[| c f] |]; try discriminate.
  intros [= <- <- <-]. exists rs, pd. repeat split. discriminate.
Qed.

(** X21.  When [updatePackageJson] returns, it has written one file, at
    the relative path of [package.json]: the sorted content of
    [package.json] with every other property as it was and with an
    [engines] object in which each engine of [ctx.rangesSimplified] has
    its simplified range and every other engine the constraint it had.
    The content kept in the context has the same [engines]. *)
Theorem updatePackageJson_engines :
  forall (ctx ctx' : Ctx.CheckCommandContext) (file : string)
         (content : PackageJSON.PackageJSONSchema)
         (rangesSimplified : JSMap string) (packageData : PackageJSON.PackageJSONSchema),
    Ctx.rangesSimplified ctx = Some rangesSimplified ->
    NoDup (Map_keys rangesSimplified) ->
    data (Ctx.packageObject ctx) = Some packageData ->
    NoDup (Map_keys (PackageJSON.enginesObject packageData)) ->
    updatePackageJson sortPackageJson ctx = Done (ctx', (file, content)) ->
    relativePath (Ctx.packageObject ctx) = Some file /\
    exists engines,
      content = sortPackageJson
                  (PackageJSON.mk (Some engines) (PackageJSON.others packageData)) /\
      data (Ctx.packageObject ctx')
      = Some (PackageJSON.mk (Some engines) (PackageJSON.others packageData)) /\
      forall k,
        property k engines
        = match Map_get k rangesSimplified with
          | Some text => Some text
          | None => property k (PackageJSON.enginesObject packageData)
          end.
Proof.
  intros ctx ctx' file content rs pd Hrs Hnr Hpd Hne H.
  apply updatePackageJson_inv in H.
  destruct H as [rs' [pd' [Hrs' [Hpd' [Hfile [_ [-> ->]]]]]]].
  rewrite Hrs in Hrs'. injection Hrs' as <-.
  rewrite Hpd in Hpd'. injection Hpd' as <-.
  split; [exact Hfile |].
  exists (merge (merge [] (PackageJSON.enginesObject pd)) rs).
  split; [reflexivity |]. split.
  - cbn [Ctx.setPackageEngines Ctx.packageObject data]. rewrite Hpd. reflexivity.
  - intros k. apply merged_engines; assumption.
Qed.

(** X22.  With nothing to change ([ctx.rangesSimplified] is empty),
    [updatePackageJson] still writes the file: with the [engines] object
    it had, and with an empty [engines] object when it had none. *)
Theorem updatePackageJson_without_changes :
  forall (ctx : Ctx.CheckCommandContext) (file : string)
         (packageData : PackageJSON.PackageJSONSchema),
    Ctx.rangesSimplified ctx = Some [] ->
    data (Ctx.packageObject ctx) = Some packageData ->
    NoDup (Map_keys (PackageJSON.enginesObject packageData)) ->
    relativePath (Ctx.packageObject ctx) = Some file ->
    file <> "" ->
    exists ctx',
      updatePackageJson sortPackageJson ctx
      = Done (ctx', (file, sortPackageJson
                             (PackageJSON.mk
                                (Some (PackageJSON.enginesObject packageData))
                                (PackageJSON.others packageData)))).
Proof.
  intros ctx file pd Hrs Hpd Hnd Hfile Hne.
  unfold updatePackageJson. rewrite Hrs, Hpd, Hfile.
  destruct file as [| c f]; [contradiction |].
  eexists. cbn [merge fold_left].
  change (fold_left (fun o p => Map_set (fst p) (snd p) o)
            (PackageJSON.enginesObject pd) [])
    with (merge [] (PackageJSON.enginesObject pd)).
  rewrite (merge_NoDup_same _ [] Hnd). reflexivity.
Qed.

End Update.

Lemma updatePackageJson_engines_witness :
  relativePath (Ctx.packageObject
                  (Ctx.setRangesSimplified (exampleContext None) [("node", ">=14.17.0")]))
  = Some "package.json" /\
  exists engines,
    PackageJSON.mk (Some [("npm", ">=8.0.0"); ("node", ">=14.17.0")]) [("name", "demo")]
    = unsorted (PackageJSON.mk (Some engines) (PackageJSON.others examplePackage)) /\
    data (Ctx.packageObject
            (Ctx.setPackageEngines
               (Ctx.setRangesSimplified (exampleContext None) [("node", ">=14.17.0")])
               [("npm", ">=8.0.0"); ("node", ">=14.17.0")]))
    = Some (PackageJSON.mk (Some engines) (PackageJSON.others examplePackage)) /\
    forall k,
      property k engines
      = match Map_get k [("node", ">=14.17.0")] with
        | Some text => Some text
        | None => property k (PackageJSON.enginesObject examplePackage)
        end.
Proof.
  apply (updatePackageJson_engines unsorted
           (Ctx.setRangesSimplified (exampleContext None) [("node", ">=14.17.0")])
           _ "package.json" _ [("node", ">=14.17.0")] examplePackage).
  - reflexivity.
  - repeat constructor. intros [].
  - reflexivity.
  - repeat constructor. intros [].
  - vm_compute; reflexivity.
Defined.

Lemma updatePackageJson_without_changes_witness :
  exists ctx',
    updatePackageJson unsorted
      (Ctx.setRangesSimplified
         (Ctx.mk None "" None true false false false
            (mkFileObject "package.json" (Some "package.json")
               (Some (PackageJSON.mk None [("name", "demo")])))
            (mkFileObject "package-lock.json" None None) None None) [])
    = Done (ctx', ("package.json",
                   unsorted (PackageJSON.mk (Some []) [("name", "demo")]))).
Proof.
  apply (updatePackageJson_without_changes unsorted
           (Ctx.setRangesSimplified
              (Ctx.mk None "" None true false false false
                 (mkFileObject "package.json" (Some "package.json")
                    (Some (PackageJSON.mk None [("name", "demo")])))
                 (mkFileObject "package-lock.json" None None) None None) [])
           "package.json" (PackageJSON.mk None [("name", "demo")])).
  - reflexivity.
  - reflexivity.
  - constructor.
  - reflexivity.
  - discriminate.
Defined.

(** *** From the lock file to the written [package.json] *)

Section Command.

Context {L : SemverLib} {R : Runtime}.
Variable EngineConstraintKeys : list string.
Variable getRelativePath : string -> string -> string.
Variable chalk_green chalk_cyan : string -> string.
Variable tableText : Widths -> list Row -> string.
Variable sortPackageJson : PackageJSON.PackageJSONSchema -> PackageJSON.PackageJSONSchema.

(** X23.  When [computeEnginesConstraints], [outputComputedConstraints]
    and [updatePackageJson] run one after the other, the [engines] object
    written to [package.json] keeps the constraint of every engine that is
    not selected, and of every selected engine whose range computed from
    the lock file is rendered like the one computed from [package.json];
    every other selected engine gets the rendering of the range computed
    from the lock file. *)
Theorem written_engines :
  forall (fuel : nat) (ctx ctx1 ctx2 ctx3 : Ctx.CheckCommandContext)
         (title file : string) (content : PackageJSON.PackageJSONSchema)
         (packageData : PackageJSON.PackageJSONSchema) (lockData : PackageLockJSONSchema)
         (lockPackages : list (string * LockPackage)),
    data (Ctx.packageObject ctx) = Some packageData ->
    data (Ctx.packageLockObject ctx) = Some lockData ->
    packages lockData = Some lockPackages ->
    NoDup (Map_keys (PackageJSON.enginesObject packageData)) ->
    computeEnginesConstraints EngineConstraintKeys fuel ctx = Done ctx1 ->
    outputComputedConstraints getRelativePath chalk_green chalk_cyan tableText ctx1
    = Done (ctx2, title) ->
    updatePackageJson sortPackageJson ctx2 = Done (ctx3, (file, content)) ->
    exists engines,
      content = sortPackageJson
                  (PackageJSON.mk (Some engines) (PackageJSON.others packageData)) /\
      (forall k,
          ~ In k (constraintKeys EngineConstraintKeys ctx) ->
          property k engines = property k (PackageJSON.enginesObject packageData)) /\
      (forall k rangeFrom rangeTo textFrom textTo,
          In k (constraintKeys EngineConstraintKeys ctx) ->
          computeEnginesConstraint fuel (ownPackages packageData) k = Ok rangeFrom ->
          computeEnginesConstraint fuel lockPackages k = Ok rangeTo ->
          humanizeRange rangeFrom = Ok textFrom ->
          humanizeRange rangeTo = Ok textTo ->
          property k engines
          = if String.eqb textTo textFrom
            then property k (PackageJSON.enginesObject packageData)
            else Some textTo).
Proof.
  intros fuel ctx ctx1 ctx2 ctx3 title file content pd ld lp Hpd Hld Hlp Hnd H1 H2 H3.
  apply computeEnginesConstraints_inv in H1.
  destruct H1 as [pd' [ld' [lp' [ranges [Hpd' [Hld' [Hlp' [F ->]]]]]]]].
  rewrite Hpd in Hpd'. injection Hpd' as <-.
  rewrite Hld in Hld'. injection Hld' as <-.
  rewrite Hlp in Hlp'. injection Hlp' as <-.
  destruct (rangesLoop_spec fuel pd lp _ _ _ F) as [Hk [Hn Hv]].
  assert (Hnr : NoDup (Map_keys ranges)) by (apply Hn; constructor).
  apply outputComputedConstraints_inv in H2.
  destruct H2 as [ranges' [rs [w [rows [Hr' [Fo ->]]]]]].
  cbn [Ctx.setRanges Ctx.ranges] in Hr'. injection Hr' as <-.
  assert (Hnrs : NoDup (Map_keys rs)).
  { apply (outputLoop_NoDup ranges _ _ Fo). constructor. }
  pose proof (outputLoop_changes ranges _ _ Fo Hnr (fun _ _ => eq_refl)) as Hc.
  cbn [fst Map_get] in Hc.
  apply updatePackageJson_inv in H3.
  destruct H3 as [rs' [pd' [Hrs' [Hpd' [_ [_ [-> _]]]]]]].
  cbn [Ctx.setRangesSimplified Ctx.setRanges Ctx.rangesSimplified Ctx.packageObject]
    in Hrs', Hpd'.
  injection Hrs' as <-. rewrite Hpd in Hpd'. injection Hpd' as <-.
  exists (merge (merge [] (PackageJSON.enginesObject pd)) rs).
  split; [reflexivity |]. split.
  - intros k Hk'. rewrite (merged_engines pd rs k Hnd Hnrs).
    destruct (Map_get k rs) as [text |] eqn:G; [| reflexivity].
    exfalso. apply Hk'. apply Hc in G. destruct G as [G | [change [G _]]]; [discriminate |].
    assert (Hin : In k (Map_keys ranges)).
    { destruct (Maps.Map_get_None k ranges) as [_ Hx].
      destruct (in_dec string_dec k (Map_keys ranges)) as [Hy | Hy]; [exact Hy |].
      rewrite (Hx Hy) in G. discriminate. }
    apply Hk in Hin. destruct Hin as [[] | Hin]. exact Hin.
  - intros k rf rt tf tt Hin Hf Ht Htf Htt.
    rewrite (merged_engines pd rs k Hnd Hnrs).
    assert (Hchange : exists change, Map_get k ranges = Some change).
    { destruct (Map_get k ranges) as [c |] eqn:G; [exists c; reflexivity |].
      apply Maps.Map_get_None in G. exfalso. apply G, Hk. right; exact Hin. }
    destruct Hchange as [change G].
    destruct (Hv k change G) as [Hx | [_ [Hf' Ht']]]; [discriminate |].
    rewrite Hf in Hf'. injection Hf' as ->. rewrite Ht in Ht'. injection Ht' as ->.
    destruct (String.eqb tt tf) eqn:E.
    + apply String.eqb_eq in E. subst tt.
      destruct (Map_get k rs) as [text |] eqn:Gr; [| reflexivity].
      exfalso. apply Hc in Gr. destruct Gr as [Gr | [c [Gc [Hto Hfrom]]]]; [discriminate |].
      rewrite G in Gc. injection Gc as <-. apply Hfrom. congruence.
    + apply String.eqb_neq in E.
      assert (Gr : Map_get k rs = Some tt).
      { apply Hc. right. exists change. repeat split; [exact G | exact Htt |].
        rewrite Htf. intros [= Hx]. apply E. symmetry; exact Hx. }
      rewrite Gr. reflexivity.
Qed.

End Command.

Lemma written_engines_witness :
  exists engines,
    PackageJSON.mk (Some [("npm", ">=8.0.0"); ("node", ">=14.17.0")]) [("name", "demo")]
    = unsorted (PackageJSON.mk (Some engines) (PackageJSON.others examplePackage)) /\
    (forall k,
        ~ In k (constraintKeys exampleKeys (exampleContext (Some ["node"]))) ->
        property k engines = property k (PackageJSON.enginesObject examplePackage)) /\
    (forall k rangeFrom rangeTo textFrom textTo,
        In k (constraintKeys exampleKeys (exampleContext (Some ["node"]))) ->
        computeEnginesConstraint (L := node_semver) 1 (ownPackages examplePackage) k
        = Ok rangeFrom ->
        computeEnginesConstraint (L := node_semver) 1
          [dependency "foo" ">=12.22.0"; dependency "bar" ">=14.17.0"] k = Ok rangeTo ->
        humanizeRange rangeFrom = Ok textFrom ->
        humanizeRange rangeTo = Ok textTo ->
        property k engines
        = if String.eqb textTo textFrom
          then property k (PackageJSON.enginesObject examplePackage)
          else Some textTo).
Proof.
  apply (written_engines (L := node_semver) exampleKeys samePath plainText plainText
           noTable unsorted 1 (exampleContext (Some ["node"]))
           (Ctx.setRanges (exampleContext (Some ["node"])) exampleRanges)
           (Ctx.setRangesSimplified
              (Ctx.setRanges (exampleContext (Some ["node"])) exampleRanges)
              [("node", ">=14.17.0")])
           (Ctx.setPackageEngines
              (Ctx.setRangesSimplified
                 (Ctx.setRanges (exampleContext (Some ["node"])) exampleRanges)
                 [("node", ">=14.17.0")])
              [("npm", ">=8.0.0"); ("node", ">=14.17.0")])
           ("Computed engines range constraints:" ++ newline ++ newline)
           "package.json"
           (PackageJSON.mk (Some [("npm", ">=8.0.0"); ("node", ">=14.17.0")])
                           [("name", "demo")])
           examplePackage exampleLock
           [dependency "foo" ">=12.22.0"; dependency "bar" ">=14.17.0"]).
  - reflexivity.
  - reflexivity.
  - reflexivity.
  - repeat constructor. intros [].
  - vm_compute; reflexivity.
  - vm_compute; reflexivity.
  - vm_compute; reflexivity.
Defined.

(** *** The update command *)

Lemma append_nil_r (a : string) : a ++ "" = a.
Proof. induction a as [| c a IH]; [reflexivity | simpl; rewrite IH; reflexivity]. Qed.

Lemma join_options a args : join " " (a :: args) = a ++ options args.
Proof.
  revert a. induction args as [| b args IH]; intros a.
  - cbn. symmetry. apply append_nil_r.
  - change (join " " (a :: b :: args)) with (a ++ " " ++ join " " (b :: args)).
    rewrite IH. reflexivity.
Qed.

Lemma options_app l1 l2 : options (l1 ++ l2)%list = options l1 ++ options l2.
Proof.
  unfold options. induction l1 as [| a l1 IH]; [reflexivity |].
  cbn [app fold_right]. rewrite IH.
  cbn [append]. rewrite Roundtrip.append_assoc. reflexivity.
Qed.

Lemma options_blank l suffix :
  (exists r, suffix = " " ++ r) -> exists r, options l ++ suffix = " " ++ r.
Proof.
  intros [r ->]. destruct l as [| a l].
  - exists r. reflexivity.
  - eexists. cbn [options fold_right append]. reflexivity.
Qed.

Lemma options_engines engines e suffix :
  In e engines ->
  (exists r, suffix = " " ++ r) ->
  contains (" -e " ++ e ++ " ")
           (options (flat_map (fun x => ["-e"; x]) engines) ++ suffix).
Proof.
  intros Hin Hs. induction engines as [| x engines IH]; [destruct Hin |].
  cbn [flat_map app].
  change (options ("-e" :: x :: flat_map (fun x0 => ["-e"; x0]) engines))
    with (" -e " ++ x ++ options (flat_map (fun x0 => ["-e"; x0]) engines)).
  destruct Hin as [-> | Hin].
  - destruct (options_blank (flat_map (fun x0 => ["-e"; x0]) engines) suffix Hs) as [r Hr].
    exists "", r.
    rewrite !Roundtrip.append_assoc, Hr. reflexivity.
  - destruct (IH Hin) as [a [b Hab]].
    exists (" -e " ++ x ++ a), b.
    rewrite !Roundtrip.append_assoc, Hab, !Roundtrip.append_assoc. reflexivity.
Qed.

Lemma contains_after (pat s before : string) :
  contains pat s -> contains pat (before ++ s).
Proof.
  intros [a [b ->]]. exists (before ++ a), b.
  rewrite !Roundtrip.append_assoc. reflexivity.
Qed.

Section UpdateCommand.

Variable getRelativePath : string -> string -> string.

(** X24.  The command that [generateUpdateCommandFromContext] builds
    starts with [nce] and ends with the flag [-u], and it passes on every
    engine of the context, each after a flag [-e]. *)
Theorem generateUpdateCommandFromContext_shape :
  forall (ctx : Ctx.CheckCommandContext),
    (exists middle,
        generateUpdateCommandFromContext getRelativePath ctx = "nce" ++ middle ++ " -u") /\
    (forall engines e,
        Ctx.engines ctx = Some engines ->
        In e engines ->
        contains (" -e " ++ e ++ " ")
                 (generateUpdateCommandFromContext getRelativePath ctx)).
Proof.
  intros ctx. unfold generateUpdateCommandFromContext.
  set (pathArgs := match match Ctx.path ctx with
                         | Some p => if (0 <? String.length p)%nat
                                     then Some (getRelativePath p (Ctx.workingDir ctx))
                                     else None
                         | None => None
                         end with
                   | Some p => if (0 <? String.length p)%nat then ["-p"; p] else []
                   | None => []
                   end).
  set (flags := ((if Ctx.quiet ctx then ["-q"] else [])
                 ++ (if Ctx.debug ctx then ["-d"] else [])
                 ++ (if Ctx.verbose ctx then ["-v"] else []))%list).
  set (engineArgs := match Ctx.engines ctx with
                     | Some engines => flat_map (fun e => ["-e"; e]) engines
                     | None => []
                     end).
  assert (E : (["nce"] ++ pathArgs ++ engineArgs
               ++ (if Ctx.quiet ctx then ["-q"] else [])
               ++ (if Ctx.debug ctx then ["-d"] else [])
               ++ (if Ctx.verbose ctx then ["-v"] else []) ++ ["-u"])%list
              = ("nce" :: (pathArgs ++ engineArgs ++ flags ++ ["-u"]))%list).
  { unfold flags. cbn [app]. rewrite <- !app_assoc. reflexivity. }
  rewrite E, join_options, !options_app.
  change (options ["-u"]) with " -u". split.
  - exists (options pathArgs ++ options engineArgs ++ options flags).
    rewrite !Roundtrip.append_assoc. reflexivity.
  - intros engines e He Hin. unfold engineArgs. rewrite He.
    apply contains_after, contains_after.
    apply options_engines; [exact Hin |].
    apply options_blank. exists "-u". reflexivity.
Qed.

End UpdateCommand.
